(** * pkatz: the Katz inversion viewer (src/src/ftr/pkatz.c)

    A shallow embedding of the geometry kernel, the drawing functions and
    the event handlers of [pkatz.c], with the properties of them that the
    design document states and further ones that the code itself shows:
    what the hull is, what a session keeps, and that the drawing functions
    stay inside the pixel buffer.

    Numbers.  The C code computes in [float], the binary32 format, and
    rounds the result of every operation.  The embedding reads it twice.
    In the first reading a [float] is a real number and the arithmetic is
    exact: this is enough for what rests on comparisons, copies and flags,
    and it is the reading of the design document where that speaks of real
    arithmetic.  In the second reading the functions whose names end in
    [_fl] take the rounding [rnd] as an argument and apply it to the result
    of every operation of the source, a conversion from [int] included, as
    a C implementation that evaluates [float] expressions in [float] does.
    [single rnd] says what the proofs use of a rounding, and [binary32],
    rounding to nearest with ties to even, is that of the program: [single]
    is proved of it, and the statements are run with it on concrete inputs.

    The one operation of the source that has no real result, a division by
    zero (IEEE gives an infinity or a NaN and goes on), is made visible:
    [fdiv] answers [None] there and every function that divides lives in
    the [option] monad.  [int] values are integers in [Z]; signed overflow
    is undefined in C and has no counterpart here: a statement that
    computes with coordinates bounds them so that the source has none. *)

From Stdlib Require Import Reals ZArith List Bool Ascii Lia Lra Psatz.
From Stdlib Require Import Permutation Sorted.
Import ListNotations.

Local Open Scope R_scope.

(** ** Arithmetic of the source *)

Definition float := R.

(** [a < b], [a <= b], [a > b] as C evaluates them. *)
Definition flt (a b : float) : bool := if Rlt_dec a b then true else false.
Definition fle (a b : float) : bool := if Rle_dec a b then true else false.
Definition fgt (a b : float) : bool := if Rgt_dec a b then true else false.

(** [a / b]: no real value when [b] is zero. *)
Definition fdiv (a b : float) : option float :=
  if Req_dec_T b 0 then None else Some (a / b).

(** [hypot] of libm: the Euclidean norm of [(a, b)]. *)
Definition hypot (a b : float) : float := sqrt (a * a + b * b).

(** [lrint] of libm in the default rounding mode: the nearest integer, a tie
    going to the even neighbour. *)
Definition lrint (a : float) : Z :=
  let lo := Int_part a in
  if flt (a - IZR lo) (1 / 2) then lo
  else if fgt (a - IZR lo) (1 / 2) then (lo + 1)%Z
  else if Z.even lo then lo else (lo + 1)%Z.

(** A character constant as an [int]. *)
Definition chr (a : ascii) : Z := Z.of_N (N_of_ascii a).

(** A C truth value as an [int]. *)
Definition b2i (b : bool) : Z := if b then 1%Z else 0%Z.

(** Sequencing of computations that may divide by zero. *)
Definition bind {A B : Type} (a : option A) (k : A -> option B) : option B :=
  match a with
  | Some v => k v
  | None => None
  end.

Notation "v <- a ;; k" := (bind a (fun v => k))
  (at level 61, a at next level, right associativity).

(** [if (b) g;] without an [else], for a statement [g] that updates [a];
    [when_div] is the same for a statement that may divide by zero. *)
Definition when {A : Type} (b : bool) (g : A -> A) (a : A) : A :=
  if b then g a else a.

Definition when_div {A : Type} (b : bool) (g : A -> option A) (a : A)
  : option A :=
  if b then g a else Some a.

(** A pair of coordinates, [float p[2]] in the source. *)
Definition point := (float * float)%type.

(** The Euclidean distance of the design document, [distance(p, c)]. *)
Definition distance (p c : point) : R :=
  sqrt ((fst p - fst c) ^ 2 + (snd p - snd c) ^ 2).

(** ** Single precision *)

(** The unit roundoff of the binary32 format, half the smallest positive
    number of it, and the largest finite one. *)
Definition u : R := / 16777216.
Definition eta : R := powerRZ 2 (-150).
Definition FLT_MAX : R := 16777215 * powerRZ 2 104.

(** What the proofs use of an arithmetic that rounds every result to the
    nearest number of a format: the error of a result in range is at most
    [u] times its magnitude (or [eta], near zero), and an integer of
    magnitude at most [2^24] is a number of the format. *)
Record single (rnd : R -> R) : Prop := {
  single_error : forall x : R,
    Rabs x <= FLT_MAX -> Rabs (rnd x - x) <= u * Rabs x + eta;
  single_int : forall z : Z,
    (Z.abs z <= 16777216)%Z -> rnd (IZR z) = IZR z
}.

(** The same for [double], the binary64 format, in which the C code takes
    its square roots. *)
Definition u64 : R := / 9007199254740992.
Definition eta64 : R := powerRZ 2 (-1075).
Definition DBL_MAX : R := 9007199254740991 * powerRZ 2 971.

Record double (rnd : R -> R) : Prop := {
  double_error : forall x : R,
    Rabs x <= DBL_MAX -> Rabs (rnd x - x) <= u64 * Rabs x + eta64;
  double_int : forall z : Z,
    (Z.abs z <= 9007199254740992)%Z -> rnd (IZR z) = IZR z
}.

(** The exponent of the last place of the number nearest to a real of
    magnitude [a], in a binary format of [prec] digits: the least [e] from
    [e] on with [a < 2^(e+prec)], [fuel] steps at most. *)
Fixpoint exponent_from (prec : Z) (fuel : nat) (e : Z) (a : R) : Z :=
  match fuel with
  | O => e
  | S fuel' =>
      if Rlt_dec a (powerRZ 2 (e + prec)) then e
      else exponent_from prec fuel' (e + 1) a
  end.

Definition exponent (prec emin : Z) (fuel : nat) (x : R) : Z :=
  exponent_from prec fuel emin (Rabs x).

(** Rounding to nearest, ties to even, the IEEE 754 default, in the format
    of [prec] digits whose least exponent is [emin]. *)
Definition round (prec emin : Z) (fuel : nat) (x : R) : R :=
  IZR (lrint (x * powerRZ 2 (- exponent prec emin fuel x)))
  * powerRZ 2 (exponent prec emin fuel x).

(** The roundings of [float] and of [double].  A result beyond [FLT_MAX]
    or [DBL_MAX] is an infinity in C; here it is whatever number the
    formula gives, and no statement speaks of one. *)
Definition binary32 (x : R) : R := round 24 (-149) 254 x.
Definition binary64 (x : R) : R := round 53 (-1074) 2046 x.

Arguments binary32 x : simpl never.
Arguments binary64 x : simpl never.

(** ** SECTION 1 of the source: constants and the viewer state *)

Definition DISK_RADIUS : float := 73 / 10.
Definition POINT_RADIUS : float := 23 / 10.
Definition ZOOM_FACTOR : float := 143 / 100.
Definition RADIUS_FACTOR : float := 113 / 100.

Module viewer_state.

(** [struct viewer_state].  The arrays [x], [y], [z] of interleaved
    coordinates are lists of points; of [z] only the [m] points the hull
    computation wrote are kept. *)
Record t := mk {
  n : Z;
  x : list point;
  y : list point;
  z : list point;
  m : Z;
  c : point;
  r : float;
  offset : point;
  scale : float;
  dragging_window_point : bool;
  dragging_image_point : bool;
  dragging_background : bool;
  dragged_point : Z;
  drag_handle : Z * Z;
  interpolation_order : Z;
  tile_plane : bool;
  show_horizon : bool;
  show_grid_points : bool;
  restrict_to_affine : bool;
  show_debug : bool
}.

(** Assignments to one field. *)
Definition set_y v e :=
  mk (n e) (x e) v (z e) (m e) (c e) (r e) (offset e) (scale e)
     (dragging_window_point e) (dragging_image_point e)
     (dragging_background e) (dragged_point e) (drag_handle e)
     (interpolation_order e) (tile_plane e) (show_horizon e)
     (show_grid_points e) (restrict_to_affine e) (show_debug e).
Definition set_z v e :=
  mk (n e) (x e) (y e) v (m e) (c e) (r e) (offset e) (scale e)
     (dragging_window_point e) (dragging_image_point e)
     (dragging_background e) (dragged_point e) (drag_handle e)
     (interpolation_order e) (tile_plane e) (show_horizon e)
     (show_grid_points e) (restrict_to_affine e) (show_debug e).
Definition set_m v e :=
  mk (n e) (x e) (y e) (z e) v (c e) (r e) (offset e) (scale e)
     (dragging_window_point e) (dragging_image_point e)
     (dragging_background e) (dragged_point e) (drag_handle e)
     (interpolation_order e) (tile_plane e) (show_horizon e)
     (show_grid_points e) (restrict_to_affine e) (show_debug e).
Definition set_c v e :=
  mk (n e) (x e) (y e) (z e) (m e) v (r e) (offset e) (scale e)
     (dragging_window_point e) (dragging_image_point e)
     (dragging_background e) (dragged_point e) (drag_handle e)
     (interpolation_order e) (tile_plane e) (show_horizon e)
     (show_grid_points e) (restrict_to_affine e) (show_debug e).
Definition set_r v e :=
  mk (n e) (x e) (y e) (z e) (m e) (c e) v (offset e) (scale e)
     (dragging_window_point e) (dragging_image_point e)
     (dragging_background e) (dragged_point e) (drag_handle e)
     (interpolation_order e) (tile_plane e) (show_horizon e)
     (show_grid_points e) (restrict_to_affine e) (show_debug e).
Definition set_offset v e :=
  mk (n e) (x e) (y e) (z e) (m e) (c e) (r e) v (scale e)
     (dragging_window_point e) (dragging_image_point e)
     (dragging_background e) (dragged_point e) (drag_handle e)
     (interpolation_order e) (tile_plane e) (show_horizon e)
     (show_grid_points e) (restrict_to_affine e) (show_debug e).
Definition set_scale v e :=
  mk (n e) (x e) (y e) (z e) (m e) (c e) (r e) (offset e) v
     (dragging_window_point e) (dragging_image_point e)
     (dragging_background e) (dragged_point e) (drag_handle e)
     (interpolation_order e) (tile_plane e) (show_horizon e)
     (show_grid_points e) (restrict_to_affine e) (show_debug e).
Definition set_dragging_window_point v e :=
  mk (n e) (x e) (y e) (z e) (m e) (c e) (r e) (offset e) (scale e)
     v (dragging_image_point e)
     (dragging_background e) (dragged_point e) (drag_handle e)
     (interpolation_order e) (tile_plane e) (show_horizon e)
     (show_grid_points e) (restrict_to_affine e) (show_debug e).
Definition set_dragging_image_point v e :=
  mk (n e) (x e) (y e) (z e) (m e) (c e) (r e) (offset e) (scale e)
     (dragging_window_point e) v
     (dragging_background e) (dragged_point e) (drag_handle e)
     (interpolation_order e) (tile_plane e) (show_horizon e)
     (show_grid_points e) (restrict_to_affine e) (show_debug e).
Definition set_dragging_background v e :=
  mk (n e) (x e) (y e) (z e) (m e) (c e) (r e) (offset e) (scale e)
     (dragging_window_point e) (dragging_image_point e)
     v (dragged_point e) (drag_handle e)
     (interpolation_order e) (tile_plane e) (show_horizon e)
     (show_grid_points e) (restrict_to_affine e) (show_debug e).
Definition set_dragged_point v e :=
  mk (n e) (x e) (y e) (z e) (m e) (c e) (r e) (offset e) (scale e)
     (dragging_window_point e) (dragging_image_point e)
     (dragging_background e) v (drag_handle e)
     (interpolation_order e) (tile_plane e) (show_horizon e)
     (show_grid_points e) (restrict_to_affine e) (show_debug e).
Definition set_drag_handle v e :=
  mk (n e) (x e) (y e) (z e) (m e) (c e) (r e) (offset e) (scale e)
     (dragging_window_point e) (dragging_image_point e)
     (dragging_background e) (dragged_point e) v
     (interpolation_order e) (tile_plane e) (show_horizon e)
     (show_grid_points e) (restrict_to_affine e) (show_debug e).
Definition set_interpolation_order v e :=
  mk (n e) (x e) (y e) (z e) (m e) (c e) (r e) (offset e) (scale e)
     (dragging_window_point e) (dragging_image_point e)
     (dragging_background e) (dragged_point e) (drag_handle e)
     v (tile_plane e) (show_horizon e)
     (show_grid_points e) (restrict_to_affine e) (show_debug e).
Definition set_tile_plane v e :=
  mk (n e) (x e) (y e) (z e) (m e) (c e) (r e) (offset e) (scale e)
     (dragging_window_point e) (dragging_image_point e)
     (dragging_background e) (dragged_point e) (drag_handle e)
     (interpolation_order e) v (show_horizon e)
     (show_grid_points e) (restrict_to_affine e) (show_debug e).
Definition set_show_horizon v e :=
  mk (n e) (x e) (y e) (z e) (m e) (c e) (r e) (offset e) (scale e)
     (dragging_window_point e) (dragging_image_point e)
     (dragging_background e) (dragged_point e) (drag_handle e)
     (interpolation_order e) (tile_plane e) v
     (show_grid_points e) (restrict_to_affine e) (show_debug e).
Definition set_show_grid_points v e :=
  mk (n e) (x e) (y e) (z e) (m e) (c e) (r e) (offset e) (scale e)
     (dragging_window_point e) (dragging_image_point e)
     (dragging_background e) (dragged_point e) (drag_handle e)
     (interpolation_order e) (tile_plane e) (show_horizon e)
     v (restrict_to_affine e) (show_debug e).
Definition set_restrict_to_affine v e :=
  mk (n e) (x e) (y e) (z e) (m e) (c e) (r e) (offset e) (scale e)
     (dragging_window_point e) (dragging_image_point e)
     (dragging_background e) (dragged_point e) (drag_handle e)
     (interpolation_order e) (tile_plane e) (show_horizon e)
     (show_grid_points e) v (show_debug e).
Definition set_show_debug v e :=
  mk (n e) (x e) (y e) (z e) (m e) (c e) (r e) (offset e) (scale e)
     (dragging_window_point e) (dragging_image_point e)
     (dragging_background e) (dragged_point e) (drag_handle e)
     (interpolation_order e) (tile_plane e) (show_horizon e)
     (show_grid_points e) (restrict_to_affine e) v.

End viewer_state.

Module FTR.

(** The part of [struct FTR] that [pkatz.c] reads and writes: the window
    size, the repaint flag and the user data, here the viewer state.
    [stop_loop] records a call of
    [ftr_notify_the_desire_to_stop_this_loop] with its argument. *)
Record t := mk {
  w : Z;
  h : Z;
  changed : Z;
  stop_loop : option Z;
  userdata : viewer_state.t
}.

Definition set_changed v f := mk (w f) (h f) v (stop_loop f) (userdata f).
Definition set_stop_loop v f := mk (w f) (h f) (changed f) v (userdata f).
Definition set_userdata v f := mk (w f) (h f) (changed f) (stop_loop f) v.

End FTR.

Import viewer_state FTR.

(** [center_view]: reset and center the viewer. *)
Definition center_view (f : FTR.t) : FTR.t :=
  let e := userdata f in
  let e := set_c (100, 100) e in
  let e := set_r 400 e in
  let e := set_dragging_window_point false e in
  let e := set_dragging_image_point false e in
  let e := set_dragged_point (-1) e in
  let e := set_dragging_background false e in
  let e := set_offset (0, 0) e in
  let e := set_scale 1 e in
  let e := set_interpolation_order 0 e in
  let e := set_tile_plane false e in
  let e := set_show_horizon false e in
  let e := set_show_grid_points false e in
  let e := set_restrict_to_affine false e in
  let e := set_show_debug false e in
  set_changed 1 (set_userdata e f).

(** ** SECTION 2 of the source: linear algebra *)

Definition vec3 := (float * float * float)%type.

(** [vector_product]: the vector product of two vectors. *)
Definition vector_product (a b : vec3) : vec3 :=
  let '(a0, a1, a2) := a in
  let '(b0, b1, b2) := b in
  (a1 * b2 - a2 * b1, a2 * b0 - a0 * b2, a0 * b1 - a1 * b0).

(** ** SECTION 3 of the source: the Katz algorithm *)

(** [invert_point_classic]: the inversion in the circle; each coordinate is
    divided by [r] twice. *)
Definition invert_point_classic (c : point) (R : float) (x : point)
  : option point :=
  let r := hypot (fst x - fst c) (snd x - snd c) in
  q0 <- fdiv (R * R * (fst x - fst c)) r ;;
  q0 <- fdiv q0 r ;;
  q1 <- fdiv (R * R * (snd x - snd c)) r ;;
  q1 <- fdiv q1 r ;;
  Some (fst c + q0, snd c + q1).

(** [invert_point_flip]: the two quotients by [r] are the only place where
    the function can fail. *)
Definition invert_point_flip (c : point) (R : float) (x : point)
  : option point :=
  let r := hypot (fst x - fst c) (snd x - snd c) in
  q0 <- fdiv (2 * (R - r) * (fst x - fst c)) r ;;
  q1 <- fdiv (2 * (R - r) * (snd x - snd c)) r ;;
  Some (fst x + q0, snd x + q1).

Definition invert_point (c : point) (R : float) (x : point) : option point :=
  invert_point_flip c R x.

(** [invert_points]: the loop over the first [n] points of [x]. *)
Fixpoint invert_points (c : point) (R : float) (x : list point) (n : nat)
  : option (list point) :=
  match n, x with
  | S n', p :: x' =>
      q <- invert_point c R p ;;
      y <- invert_points c R x' n' ;;
      Some (q :: y)
  | _, _ => Some []
  end.

Definition compute_points_inversion (e : viewer_state.t)
  : option viewer_state.t :=
  y' <- invert_points (c e) (r e) (x e) (Z.to_nat (n e)) ;;
  Some (set_y (y' ++ skipn (Z.to_nat (n e)) (y e)) e).

Definition compare_points_lexicographically (a b : point) : Z :=
  let p := (b2i (fgt (fst a) (fst b)) - b2i (flt (fst a) (fst b)))%Z in
  if negb (p =? 0)%Z then p
  else (b2i (fgt (snd a) (snd b)) - b2i (flt (snd a) (snd b)))%Z.

(** [qsort] of libc.  The C standard fixes its result, not its algorithm:
    the array ends up ordered by the comparison function.  The model sorts
    by insertion. *)
Fixpoint qsort_insert {A : Type} (cmp : A -> A -> Z) (a : A) (l : list A)
  : list A :=
  match l with
  | [] => [a]
  | b :: l' => if (cmp a b <=? 0)%Z then a :: l else b :: qsort_insert cmp a l'
  end.

Fixpoint qsort {A : Type} (l : list A) (cmp : A -> A -> Z) : list A :=
  match l with
  | [] => []
  | a :: l' => qsort_insert cmp a (qsort l' cmp)
  end.

(** [det]: oriented area of a triangle. *)
Definition det (a b c : point) : float :=
  let p := (fst b - fst a, snd b - snd a) in
  let q := (fst c - fst a, snd c - snd a) in
  fst p * snd q - snd p * fst q.

(** The hull found so far, [y[0] .. y[r-1]] in the source, is a list with
    [y[r-1]] at its head; [r] is its length.

    [andrew_pop k y p] is the inner loop
    [while (r >= k && det(y+2*(r-2), y+2*(r-1), p) <= 0) r -= 1;]
    of both passes ([k] is [2] in the first).  With fewer than two points in
    [y] there is no [y[r-2]] to read; the source never gets there with
    [r >= k]. *)
Fixpoint andrew_pop (k : nat) (y : list point) (p : point) : list point :=
  match y with
  | b :: ((a :: _) as y') =>
      if (k <=? length y)%nat && fle (det a b p) 0 then andrew_pop k y' p
      else y
  | _ => y
  end.

(** One iteration of either [for] loop: pop, then store [p] at [y[r]] and
    increment [r]. *)
Definition andrew_step (k : nat) (y : list point) (p : point) : list point :=
  p :: andrew_pop k y p.

(** [do_the_andrew_parkour] on the first [n] points of the array [x].  The
    result is the returned count [r], the [r] points written to the output
    array, and the array [x] as the function leaves it. *)
Definition do_the_andrew_parkour (x : list point) (n : nat)
  : Z * list point * list point :=
  let xs := qsort (firstn n x) compare_points_lexicographically in
  let lower := fold_left (andrew_step 2) xs [] in
  let k := S (length lower) in
  let hull := fold_left (andrew_step k) (tl (rev xs)) lower in
  (Z.of_nat (length hull), rev hull, xs ++ skipn n x).

(** [compute_red_points_convex_hull]: the hull of the inverted points [y]
    goes to [z] and [m]; [y] is handed over as the array to sort. *)
Definition compute_red_points_convex_hull (e : viewer_state.t)
  : viewer_state.t :=
  let '(r, z', y') := do_the_andrew_parkour (y e) (Z.to_nat (n e)) in
  set_m r (set_z z' (set_y y' e)).

(** ** The hull computation in a rounding arithmetic *)

(** [det] with every result rounded by [rnd], as [float] arithmetic does
    it: two subtractions for each of [p] and [q], two products and one
    subtraction. *)
Definition det_fl (rnd : R -> R) (a b c : point) : float :=
  let p := (rnd (fst b - fst a), rnd (snd b - snd a)) in
  let q := (rnd (fst c - fst a), rnd (snd c - snd a)) in
  rnd (rnd (fst p * snd q) - rnd (snd p * fst q)).

(** The inner loop and the two passes with the test of the [while] left
    open: [turn a b p] is what [det(a, b, p) <= 0] answers.  The points
    themselves are only compared and copied. *)
Fixpoint andrew_pop_by (turn : point -> point -> point -> bool) (k : nat)
  (y : list point) (p : point) : list point :=
  match y with
  | b :: ((a :: _) as y') =>
      if (k <=? length y)%nat && turn a b p then andrew_pop_by turn k y' p
      else y
  | _ => y
  end.

Definition andrew_step_by (turn : point -> point -> point -> bool) (k : nat)
  (y : list point) (p : point) : list point :=
  p :: andrew_pop_by turn k y p.

Definition do_the_andrew_parkour_by (turn : point -> point -> point -> bool)
  (x : list point) (n : nat) : Z * list point * list point :=
  let xs := qsort (firstn n x) compare_points_lexicographically in
  let lower := fold_left (andrew_step_by turn 2) xs [] in
  let k := S (length lower) in
  let hull := fold_left (andrew_step_by turn k) (tl (rev xs)) lower in
  (Z.of_nat (length hull), rev hull, xs ++ skipn n x).

(** [do_the_andrew_parkour] as the program runs it, with the rounded
    [det]. *)
Definition do_the_andrew_parkour_fl (rnd : R -> R) (x : list point) (n : nat)
  : Z * list point * list point :=
  do_the_andrew_parkour_by (fun a b p => fle (det_fl rnd a b p) 0) x n.

(** A point with integer coordinates of magnitude at most 1024: on such
    points [det] rounds nothing in single precision, every intermediate
    result being an integer below [2^24]. *)
Definition grid_point (p : point) : Prop :=
  exists a b : Z,
    p = (IZR a, IZR b) /\ (Z.abs a <= 1024)%Z /\ (Z.abs b <= 1024)%Z.

(** ** SECTION 4 of the source: coordinate conversions *)

Definition map_view_to_window (e : viewer_state.t) (x : point) : point :=
  (fst (offset e) + scale e * fst x, snd (offset e) + scale e * snd x).

Definition map_window_to_view (e : viewer_state.t) (x : point)
  : option point :=
  y0 <- fdiv (fst x - fst (offset e)) (scale e) ;;
  y1 <- fdiv (snd x - snd (offset e)) (scale e) ;;
  Some (y0, y1).

(** ** The view in a rounding arithmetic *)

(** [a / b] rounded; as in [fdiv], no value when [b] is zero. *)
Definition fdiv_fl (rnd : R -> R) (a b : float) : option float :=
  if Req_dec_T b 0 then None else Some (rnd (a / b)).

Definition map_view_to_window_fl (rnd : R -> R) (e : viewer_state.t)
  (x : point) : point :=
  (rnd (fst (offset e) + rnd (scale e * fst x)),
   rnd (snd (offset e) + rnd (scale e * snd x))).

Definition map_window_to_view_fl (rnd : R -> R) (e : viewer_state.t)
  (x : point) : option point :=
  y0 <- fdiv_fl rnd (rnd (fst x - fst (offset e))) (scale e) ;;
  y1 <- fdiv_fl rnd (rnd (snd x - snd (offset e))) (scale e) ;;
  Some (y0, y1).

(** The error allowed to one coordinate of a point taken from the view to
    the window and back: five roundings of a number of the size of the
    window coordinate, seen through the scale. *)
Definition tolerance (o s x : R) : R :=
  (5 * u * (Rabs o + Rabs (s * x)) + 4 * eta) / Rabs s + eta.

(** The coordinates for which no operation of the round trip overflows:
    the window coordinate and its quotient by the scale are far below
    [FLT_MAX], and the scale is at least the smallest positive number of
    the format. *)
Definition in_range (o s x : R) : Prop :=
  2 * eta <= Rabs s /\
  Rabs o + Rabs (s * x) <= FLT_MAX / 2 /\
  (Rabs o + Rabs (s * x)) / Rabs s <= FLT_MAX / 2.

(** ** SECTION 7 of the source: drawing segments *)

(** The values [0, 1, ..., cnt-1] of a loop counter. *)
Definition counter (cnt : Z) : list Z := map Z.of_nat (seq 0 (Z.to_nat cnt)).

(** [traverse_segment].  The callback [f] acts on the data [e] it is
    handed; [fuel] bounds the depth of the recursion, and [None] stands for
    fuel used up or for a division by zero. *)
Fixpoint traverse_segment {E : Type} (fuel : nat) (px py qx qy : Z)
  (f : Z -> Z -> E -> E) (e : E) : option E :=
  match fuel with
  | O => None
  | S fuel' =>
      if ((px =? qx) && (py =? qy))%Z then Some (f px py e)
      else if (qx + qy <? px + py)%Z then traverse_segment fuel' qx qy px py f e
      else if ((qy - py <? qx - px) || (qy - py <? px - qx))%Z then
        slope <- fdiv (IZR (qy - py)) (IZR (qx - px)) ;;
        Some (fold_left
                (fun e i => f (i + px)%Z (lrint (IZR py + IZR i * slope)) e)
                (counter (qx - px)) e)
      else
        slope <- fdiv (IZR (qx - px)) (IZR (qy - py)) ;;
        Some (fold_left
                (fun e j => f (lrint (IZR px + IZR j * slope)) (j + py)%Z e)
                (counter (qy - py + 1)) e)
  end.

(** [traverse_segment] in a rounding arithmetic.  The integers are
    converted to [float] where they meet one; the slope is a rounded
    quotient, and each pixel takes a rounded product and a rounded sum
    before [lrint]. *)
Fixpoint traverse_segment_fl {E : Type} (rnd : R -> R) (fuel : nat)
  (px py qx qy : Z) (f : Z -> Z -> E -> E) (e : E) : option E :=
  match fuel with
  | O => None
  | S fuel' =>
      if ((px =? qx) && (py =? qy))%Z then Some (f px py e)
      else if (qx + qy <? px + py)%Z then
        traverse_segment_fl rnd fuel' qx qy px py f e
      else if ((qy - py <? qx - px) || (qy - py <? px - qx))%Z then
        slope <- fdiv_fl rnd (rnd (IZR (qy - py))) (rnd (IZR (qx - px))) ;;
        Some (fold_left
                (fun e i =>
                   f (i + px)%Z
                     (lrint (rnd (rnd (IZR py) + rnd (rnd (IZR i) * slope))))
                     e)
                (counter (qx - px)) e)
      else
        slope <- fdiv_fl rnd (rnd (IZR (qx - px))) (rnd (IZR (qy - py))) ;;
        Some (fold_left
                (fun e j =>
                   f (lrint (rnd (rnd (IZR px) + rnd (rnd (IZR j) * slope))))
                     (j + py)%Z e)
                (counter (qy - py + 1)) e)
  end.

(** A callback that records its calls in order, for statements about which
    pixels are plotted. *)
Definition record_pixel (x y : Z) (log : list (Z * Z)) : list (Z * Z) :=
  log ++ [(x, y)].

(** ** SECTION 7 of the source: pixels, circles and disks *)

(** The part of [struct FTR] that the drawing functions use: the size of
    the window and the buffer [rgb] of its pixels, three bytes to the
    pixel, row after row. *)
Module canvas.

Record t := mk {
  w : Z;
  h : Z;
  rgb : list Z
}.

Definition set_rgb v f := mk (w f) (h f) v.

End canvas.

(** [a[i] = v].  There is nothing to write to outside of the array: the
    assignment has a result for [0 <= i < length a] only. *)
Definition store (a : list Z) (i v : Z) : option (list Z) :=
  if ((0 <=? i) && (i <? Z.of_nat (length a)))%Z
  then Some (firstn (Z.to_nat i) a ++ v :: skipn (S (Z.to_nat i)) a)
  else None.

(** The byte [a[i]]. *)
Definition load (a : list Z) (i : Z) : Z :=
  if (0 <=? i)%Z then nth (Z.to_nat i) a 0%Z else 0%Z.

(** The three assignments [a[i+0] = c0; a[i+1] = c1; a[i+2] = c2]. *)
Definition store3 (a : list Z) (i : Z) (color : Z * Z * Z)
  : option (list Z) :=
  let '(c0, c1, c2) := color in
  a <- store a (i + 0) c0 ;;
  a <- store a (i + 1) c1 ;;
  store a (i + 2) c2.

(** The conversion of a [float] to [int]: the fraction is dropped. *)
Definition ftoi (a : float) : Z :=
  if fle 0 a then Int_part a else (- Int_part (- a))%Z.

(** [insideP]: is the pixel inside the window? *)
Definition insideP (f : canvas.t) (x y : Z) : bool :=
  ((0 <=? x) && (0 <=? y) && (x <? canvas.w f) && (y <? canvas.h f))%Z.

(** The body that the five [plot_pixel_] functions share. *)
Definition plot_pixel (color : Z * Z * Z) (x y : Z) (f : canvas.t)
  : option canvas.t :=
  if insideP f x y then
    let idx := (canvas.w f * y + x)%Z in
    a <- store3 (canvas.rgb f) (3 * idx) color ;;
    Some (canvas.set_rgb a f)
  else Some f.

Definition plot_pixel_red := plot_pixel (255, 0, 0)%Z.
Definition plot_pixel_blue := plot_pixel (0, 0, 255)%Z.
Definition plot_pixel_cyan := plot_pixel (0, 255, 255)%Z.
Definition plot_pixel_green := plot_pixel (0, 128, 0)%Z.
Definition plot_pixel_gray := plot_pixel (120, 120, 120)%Z.

(** A plot function as the callback of a traversal: the data [e] it is
    handed is the window, or nothing after a write that went wrong. *)
Definition callback (plot : Z -> Z -> canvas.t -> option canvas.t)
  (x y : Z) (e : option canvas.t) : option canvas.t :=
  f <- e ;; plot x y f.

(** The body that the five [plot_segment_] functions share; the
    coordinates are converted to [int] at the call. *)
Definition plot_segment (plot : Z -> Z -> canvas.t -> option canvas.t)
  (f : canvas.t) (x0 y0 xf yf : float) : option canvas.t :=
  e <- traverse_segment 2 (ftoi x0) (ftoi y0) (ftoi xf) (ftoi yf)
         (callback plot) (Some f) ;;
  e.

(** The same in a rounding arithmetic, where [traverse_segment] computes
    the pixels with rounded operations. *)
Definition plot_segment_fl (rnd : R -> R)
  (plot : Z -> Z -> canvas.t -> option canvas.t)
  (f : canvas.t) (x0 y0 xf yf : float) : option canvas.t :=
  e <- traverse_segment_fl rnd 2 (ftoi x0) (ftoi y0) (ftoi xf) (ftoi yf)
         (callback plot) (Some f) ;;
  e.

Definition plot_segment_red := plot_segment plot_pixel_red.
Definition plot_segment_blue := plot_segment plot_pixel_blue.
Definition plot_segment_cyan := plot_segment plot_pixel_cyan.
Definition plot_segment_gray := plot_segment plot_pixel_gray.
Definition plot_segment_green := plot_segment plot_pixel_green.

(** [traverse_circle].  [None] stands for the square root of a negative
    number. *)
Definition traverse_circle {E : Type} (cx cy r : Z)
  (f : Z -> Z -> E -> E) (e : E) : option E :=
  let h := ftoi (IZR r / sqrt 2) in
  fold_left
    (fun e i =>
       e <- e ;;
       if (r * r - i * i <? 0)%Z then None
       else
         let s := ftoi (sqrt (IZR (r * r - i * i))) in
         let e := f (cx + i)%Z (cy + s)%Z e in
         let e := f (cx + i)%Z (cy - s)%Z e in
         let e := f (cx + s)%Z (cy + i)%Z e in
         let e := f (cx - s)%Z (cy + i)%Z e in
         Some e)
    (map (fun k => (k - h)%Z) (counter (2 * h + 1))) (Some e).

(** [traverse_circle] in a rounding arithmetic.  The radius over
    [sqrt(2)] and the square roots are computed in [double], of which
    [rnd] is the rounding; an [int] is converted to [double] first. *)
Definition traverse_circle_fl {E : Type} (rnd : R -> R) (cx cy r : Z)
  (f : Z -> Z -> E -> E) (e : E) : option E :=
  let h := ftoi (rnd (rnd (IZR r) / rnd (sqrt 2))) in
  fold_left
    (fun e i =>
       e <- e ;;
       if (r * r - i * i <? 0)%Z then None
       else
         let s := ftoi (rnd (sqrt (rnd (IZR (r * r - i * i))))) in
         let e := f (cx + i)%Z (cy + s)%Z e in
         let e := f (cx + i)%Z (cy - s)%Z e in
         let e := f (cx + s)%Z (cy + i)%Z e in
         let e := f (cx - s)%Z (cy + i)%Z e in
         Some e)
    (map (fun k => (k - h)%Z) (counter (2 * h + 1))) (Some e).

Definition plot_circle_green (f : canvas.t) (x y r : float)
  : option canvas.t :=
  e <- traverse_circle (ftoi x) (ftoi y) (ftoi r)
         (callback plot_pixel_green) (Some f) ;;
  e.

(** [splat_disk].  The two loop counters start at [-r-1], converted to
    [int], and run while they are at most [r+1]. *)
Definition splat_disk (rgb : list Z) (w h : Z) (p : point) (r : float)
  (color : Z * Z * Z) : option (list Z) :=
  let lo := ftoi (- r - 1) in
  let range := map (fun k => (lo + k)%Z) (counter (Int_part (r + 1) - lo + 1)) in
  fold_left
    (fun a j =>
       fold_left
         (fun a i =>
            a <- a ;;
            if flt (hypot (IZR i) (IZR j)) r then
              let ii := ftoi (fst p + IZR i) in
              let jj := ftoi (snd p + IZR j) in
              if ((0 <=? ii) && (0 <=? jj) && (ii <? w) && (jj <? h))%Z
              then store3 a (3 * (w * jj + ii)) color
              else Some a
            else Some a)
         range a)
    range (Some rgb).

(** ** SECTION 7 of the source: the scene *)

(** The drawing functions of the source get the window and, as its user
    data, the viewer state; here they get the viewer state [e] and the
    drawing part [f] of the window, and answer the window they leave. *)

(** [draw_view_center]: the disk of the handle and the dot in its
    middle. *)
Definition draw_view_center (e : viewer_state.t) (f : canvas.t)
  : option canvas.t :=
  let P := map_view_to_window e (c e) in
  a <- splat_disk (canvas.rgb f) (canvas.w f) (canvas.h f) P DISK_RADIUS
         (0, 127, 0)%Z ;;
  let f := canvas.set_rgb a f in
  let ii := ftoi (fst P) in
  let jj := ftoi (snd P) in
  if insideP f ii jj then
    a <- store (canvas.rgb f) (3 * (canvas.w f * jj + ii) + 1) 255 ;;
    Some (canvas.set_rgb a f)
  else Some f.

(** The loop that [draw_red_points] and [draw_gray_points] share: a disk
    at each of the first [n] points of an array.  A point that is not there
    cannot be read. *)
Definition draw_points (pts : list point) (color : Z * Z * Z)
  (e : viewer_state.t) (f : canvas.t) : option canvas.t :=
  fold_left
    (fun f i =>
       f <- f ;;
       p <- nth_error pts (Z.to_nat i) ;;
       a <- splat_disk (canvas.rgb f) (canvas.w f) (canvas.h f)
              (map_view_to_window e p) POINT_RADIUS color ;;
       Some (canvas.set_rgb a f))
    (counter (n e)) (Some f).

Definition draw_red_points (e : viewer_state.t) (f : canvas.t)
  : option canvas.t :=
  draw_points (x e) (255, 0, 0)%Z e f.

Definition draw_gray_points (e : viewer_state.t) (f : canvas.t)
  : option canvas.t :=
  draw_points (y e) (120, 120, 120)%Z e f.

Definition draw_inversion_circle (e : viewer_state.t) (f : canvas.t)
  : option canvas.t :=
  let P := map_view_to_window e (c e) in
  plot_circle_green f (fst P) (snd P) (r e * scale e).

(** The first loop of [paint_state]: every byte of the window white. *)
Definition clear_canvas (f : canvas.t) : option canvas.t :=
  a <- fold_left (fun a i => a <- a ;; store a i 255)
         (counter (canvas.w f * canvas.h f * 3)) (Some (canvas.rgb f)) ;;
  Some (canvas.set_rgb a f).

(** The body of the second loop of [paint_state], for the side of the hull
    from [z[i]] to [z[i+1]]. *)
Definition paint_edge (e : viewer_state.t) (i : Z) (f : canvas.t)
  : option canvas.t :=
  zi <- nth_error (z e) (Z.to_nat i) ;;
  zj <- nth_error (z e) (Z.to_nat (i + 1)) ;;
  let P := map_view_to_window e zi in
  let Q := map_view_to_window e zj in
  Z0 <- invert_point (c e) (r e) zi ;;
  Z2 <- invert_point (c e) (r e) zj ;;
  f <- (if show_debug e
        then plot_segment_gray f (fst P) (snd P) (fst Q) (snd Q)
        else Some f) ;;
  let P := map_view_to_window e Z0 in
  let Q := map_view_to_window e Z2 in
  let C := map_view_to_window e (c e) in
  if fgt (det P Q C) 0 then
    f <- plot_segment_blue f (fst P) (snd P) (fst Q) (snd Q) ;;
    a <- splat_disk (canvas.rgb f) (canvas.w f) (canvas.h f) P POINT_RADIUS
           (0, 0, 255)%Z ;;
    Some (canvas.set_rgb a f)
  else if show_debug e
       then plot_segment_cyan f (fst P) (snd P) (fst Q) (snd Q)
       else Some f.

(** [paint_state]: the whole scene.  It computes the inverted points and
    their hull on its way, and leaves them in the viewer state.  The buffer
    [rgb] of the window is kept beside the other fields of [struct FTR]. *)
Definition paint_state (f : FTR.t) (rgb : list Z)
  : option (FTR.t * list Z) :=
  let e := userdata f in
  cv <- clear_canvas (canvas.mk (w f) (h f) rgb) ;;
  cv <- draw_red_points e cv ;;
  cv <- draw_view_center e cv ;;
  cv <- draw_inversion_circle e cv ;;
  e <- compute_points_inversion e ;;
  cv <- (if show_debug e then draw_gray_points e cv else Some cv) ;;
  let e := compute_red_points_convex_hull e in
  cv <- fold_left (fun cv i => cv <- cv ;; paint_edge e i cv)
          (counter (m e - 1)) (Some cv) ;;
  Some (set_userdata e f, canvas.rgb cv).

(** expose handler: the scene is painted when the window has changed. *)
Definition event_expose (f : FTR.t) (b m x y : Z) (rgb : list Z)
  : option (FTR.t * list Z) :=
  if negb (changed f =? 0)%Z then paint_state f rgb else Some (f, rgb).

(** ** SECTION 8 of the source: user-interface actions and events *)

(** action: viewport translation *)
Definition change_view_offset (e : viewer_state.t) (dx dy : float)
  : viewer_state.t :=
  set_offset (fst (offset e) + dx, snd (offset e) + dy) e.

(** action: viewport zoom.  The division is the one of
    [map_window_to_view]. *)
Definition change_view_scale (e : viewer_state.t) (x y : Z) (fac : float)
  : option viewer_state.t :=
  let X := (IZR x, IZR y) in
  center <- map_window_to_view e X ;;
  let e := set_scale (scale e * fac) e in
  Some (set_offset (- fst center * scale e + fst X,
                    - snd center * scale e + snd X) e).

(** action: inversion radius scale *)
Definition change_radius (e : viewer_state.t) (x y : Z) (fac : float)
  : viewer_state.t :=
  set_r (r e * fac) e.

(** action: drag a point in the window domain *)
Definition drag_point_in_window_domain (e : viewer_state.t) (x y : Z)
  : option viewer_state.t :=
  c' <- map_window_to_view e (IZR x, IZR y) ;;
  Some (set_c c' e).

(** test whether [(x, y)] is inside the control disk *)
Definition hit_point (e : viewer_state.t) (x y : float) : Z :=
  let P := map_view_to_window e (c e) in
  if flt (hypot (fst P - x) (snd P - y)) (2 + DISK_RADIUS) then 0%Z
  else (-1)%Z.

(** ** The view actions in a rounding arithmetic *)

Definition change_view_offset_fl (rnd : R -> R) (e : viewer_state.t)
  (dx dy : float) : viewer_state.t :=
  set_offset (rnd (fst (offset e) + dx), rnd (snd (offset e) + dy)) e.

(** [float X[2] = {x, y}] converts the two integers; the product
    [-center[p]*e->scale] and the sum with [X[p]] are rounded one after the
    other. *)
Definition change_view_scale_fl (rnd : R -> R) (e : viewer_state.t)
  (x y : Z) (fac : float) : option viewer_state.t :=
  let X := (rnd (IZR x), rnd (IZR y)) in
  center <- map_window_to_view_fl rnd e X ;;
  let e := set_scale (rnd (scale e * fac)) e in
  Some (set_offset (rnd (rnd (- fst center * scale e) + fst X),
                    rnd (rnd (- snd center * scale e) + snd X)) e).

(** Modelled from the spec: [ftr_notify_the_desire_to_stop_this_loop] is
    declared in [ftr.h] and defined outside the sources at hand.  The
    document gives the window layer a run entry point that blocks until exit
    is requested and returns an exit code; the request is recorded in
    [stop_loop], and the user data, which the window layer only holds as an
    untyped pointer, is left alone. *)
Definition ftr_notify_the_desire_to_stop_this_loop (f : FTR.t) (retval : Z)
  : FTR.t :=
  set_stop_loop (Some retval) f.

(** [main_pkatz] up to the start of the event loop, for the points [pts]
    read from the standard input: a window of 800 by 600 pixels whose viewer
    state [center_view] has reset.  What the source leaves uninitialised
    there (the arrays [y] and [z], [m], [drag_handle]) is zero. *)
Definition main_pkatz_init (pts : list point) : FTR.t :=
  center_view
    (FTR.mk 800 600 0 None
       (viewer_state.mk (Z.of_nat (length pts)) pts
          (repeat (0, 0) (length pts)) [] 0 (0, 0) 0 (0, 0) 0
          false false false 0 (0%Z, 0%Z) 0 false false false false false)).

(** The view of the initial window after one press of '+', as single
    precision leaves it. *)
Definition zoomed_view : viewer_state.t :=
  set_offset (-172, - (4227071 / 32768))
    (set_scale (11995709 / 8388608) (userdata (main_pkatz_init []))).

(** A view zoomed out about a million times: the scale is [2^-20]. *)
Definition far_view : viewer_state.t :=
  set_offset (400, 300)
    (set_scale (/ 1048576) (userdata (main_pkatz_init []))).

(** The initial window after 49 presses of 'k', each of which moves the
    view by 10 pixels. *)
Definition panned_window : FTR.t :=
  set_userdata (set_offset (0, 490) (userdata (main_pkatz_init [])))
    (main_pkatz_init []).

Module ftr_h.

(** Sample values for the constants of [ftr.h], distinct from one another
    and from the code of every character; they serve to run the handlers on
    concrete events. *)
Definition FTR_KEY_LEFT : Z := 1100.
Definition FTR_KEY_UP : Z := 1101.
Definition FTR_KEY_RIGHT : Z := 1102.
Definition FTR_KEY_DOWN : Z := 1103.
Definition FTR_BUTTON_LEFT : Z := 256.
Definition FTR_BUTTON_RIGHT : Z := 1024.
Definition FTR_BUTTON_UP : Z := 2048.
Definition FTR_BUTTON_DOWN : Z := 4096.

End ftr_h.

Section pkatz.

(** Constants of [ftr.h], which is not part of the sources at hand: the
    codes of the arrow keys and of the mouse buttons. *)
Variables FTR_KEY_DOWN FTR_KEY_UP FTR_KEY_RIGHT FTR_KEY_LEFT : Z.
Variables FTR_BUTTON_LEFT FTR_BUTTON_RIGHT FTR_BUTTON_DOWN FTR_BUTTON_UP : Z.

(** key handler.  The chain of [if]s of the source is run in its order;
    only the two zoom keys can divide. *)
Definition event_key (f : FTR.t) (k m x y : Z) : option FTR.t :=
  if (k =? chr "q")%Z then
    Some (ftr_notify_the_desire_to_stop_this_loop f 0)
  else
    let f := when (k =? chr "c")%Z center_view f in
    let e := userdata f in
    let e := when (k =? chr "j")%Z
               (fun e => change_view_offset e 0 (-10)) e in
    let e := when (k =? chr "k")%Z
               (fun e => change_view_offset e 0 10) e in
    let e := when (k =? chr "h")%Z
               (fun e => change_view_offset e 10 0) e in
    let e := when (k =? chr "l")%Z
               (fun e => change_view_offset e (-10) 0) e in
    let e := when (k =? FTR_KEY_DOWN)%Z
               (fun e => change_view_offset e 0 (-100)) e in
    let e := when (k =? FTR_KEY_UP)%Z
               (fun e => change_view_offset e 0 100) e in
    let e := when (k =? FTR_KEY_RIGHT)%Z
               (fun e => change_view_offset e (-100) 0) e in
    let e := when (k =? FTR_KEY_LEFT)%Z
               (fun e => change_view_offset e 100 0) e in
    e <- when_div (k =? chr "+")%Z
           (fun e => change_view_scale e (Z.quot (w f) 2) (Z.quot (h f) 2)
                       ZOOM_FACTOR) e ;;
    e <- when_div (k =? chr "-")%Z
           (fun e => change_view_scale e (Z.quot (w f) 2) (Z.quot (h f) 2)
                       (1 / ZOOM_FACTOR)) e ;;
    let e := when (k =? chr "p")%Z
               (fun e => set_tile_plane (negb (tile_plane e)) e) e in
    let e := when (k =? chr "w")%Z
               (fun e => set_show_horizon (negb (show_horizon e)) e) e in
    let e := when ((chr "0" <=? k) && (k <=? chr "9"))%Z
               (set_interpolation_order (k - chr "0")%Z) e in
    let e := when (k =? chr ".")%Z
               (fun e => set_show_grid_points (negb (show_grid_points e)) e)
               e in
    let e := when (k =? chr "d")%Z
               (fun e => set_show_debug (negb (show_debug e)) e) e in
    let e := set_dragging_image_point false e in
    let e := set_dragging_window_point false e in
    Some (set_changed 1 (set_userdata e f)).

(** The key handler in a rounding arithmetic.  The zoom factors are
    [double] constants of the source, converted to [float] where they are
    passed. *)
Definition event_key_fl (rnd : R -> R) (f : FTR.t) (k m x y : Z)
  : option FTR.t :=
  if (k =? chr "q")%Z then
    Some (ftr_notify_the_desire_to_stop_this_loop f 0)
  else
    let f := when (k =? chr "c")%Z center_view f in
    let e := userdata f in
    let e := when (k =? chr "j")%Z
               (fun e => change_view_offset_fl rnd e 0 (-10)) e in
    let e := when (k =? chr "k")%Z
               (fun e => change_view_offset_fl rnd e 0 10) e in
    let e := when (k =? chr "h")%Z
               (fun e => change_view_offset_fl rnd e 10 0) e in
    let e := when (k =? chr "l")%Z
               (fun e => change_view_offset_fl rnd e (-10) 0) e in
    let e := when (k =? FTR_KEY_DOWN)%Z
               (fun e => change_view_offset_fl rnd e 0 (-100)) e in
    let e := when (k =? FTR_KEY_UP)%Z
               (fun e => change_view_offset_fl rnd e 0 100) e in
    let e := when (k =? FTR_KEY_RIGHT)%Z
               (fun e => change_view_offset_fl rnd e (-100) 0) e in
    let e := when (k =? FTR_KEY_LEFT)%Z
               (fun e => change_view_offset_fl rnd e 100 0) e in
    e <- when_div (k =? chr "+")%Z
           (fun e => change_view_scale_fl rnd e (Z.quot (w f) 2)
                       (Z.quot (h f) 2) (rnd ZOOM_FACTOR)) e ;;
    e <- when_div (k =? chr "-")%Z
           (fun e => change_view_scale_fl rnd e (Z.quot (w f) 2)
                       (Z.quot (h f) 2) (rnd (1 / ZOOM_FACTOR))) e ;;
    let e := when (k =? chr "p")%Z
               (fun e => set_tile_plane (negb (tile_plane e)) e) e in
    let e := when (k =? chr "w")%Z
               (fun e => set_show_horizon (negb (show_horizon e)) e) e in
    let e := when ((chr "0" <=? k) && (k <=? chr "9"))%Z
               (set_interpolation_order (k - chr "0")%Z) e in
    let e := when (k =? chr ".")%Z
               (fun e => set_show_grid_points (negb (show_grid_points e)) e)
               e in
    let e := when (k =? chr "d")%Z
               (fun e => set_show_debug (negb (show_debug e)) e) e in
    let e := set_dragging_image_point false e in
    let e := set_dragging_window_point false e in
    Some (set_changed 1 (set_userdata e f)).

(** The error allowed to one coordinate of the window centre [X] after a
    zoom: four roundings of numbers of the size of [X] and of the product
    [c * s] of the centre of the view and the new scale. *)
Definition zoom_tolerance (X c s : R) : R :=
  4 * u * (Rabs X + Rabs (c * s)) + 5 * eta.

(** A window and a view of moderate size, far from overflow: the window
    fits integers that [float] holds exactly, offset and scale are of
    magnitude at most [2^30], the scale at least [2^-30]. *)
Definition moderate (f : FTR.t) : Prop :=
  (Z.abs (w f) <= 16777216)%Z /\ (Z.abs (h f) <= 16777216)%Z /\
  Rabs (fst (offset (userdata f))) <= 1073741824 /\
  Rabs (snd (offset (userdata f))) <= 1073741824 /\
  / 1073741824 <= Rabs (scale (userdata f)) <= 1073741824.

(** resize handler *)
Definition event_resize (f : FTR.t) (k m x y : Z) : FTR.t :=
  set_changed 1 f.

(** mouse button handler *)
Definition event_button (f : FTR.t) (k m x y : Z) : option FTR.t :=
  let e := userdata f in
  let p := hit_point e (IZR x) (IZR y) in
  let e := when ((k =? FTR_BUTTON_LEFT) && (0 <=? p))%Z
             (fun e => set_dragging_window_point true
                         (set_dragged_point p e)) e in
  e <- when_div (dragging_window_point e && (k =? - FTR_BUTTON_LEFT)%Z)
         (fun e =>
            e <- drag_point_in_window_domain e x y ;;
            Some (set_dragged_point (-1)
                    (set_dragging_window_point false e))) e ;;
  let e := when ((k =? FTR_BUTTON_RIGHT) && (0 <=? p))%Z
             (fun e => set_dragging_image_point true
                         (set_dragged_point p e)) e in
  let e := when ((k =? FTR_BUTTON_LEFT)
                 && (hit_point e (IZR x) (IZR y) <? 0))%Z
             (fun e => set_dragging_background true
                         (set_drag_handle (x, y) e)) e in
  let e := when (dragging_background e && (k =? - FTR_BUTTON_LEFT)%Z)
             (fun e =>
                let dx := (x - fst (drag_handle e))%Z in
                let dy := (y - snd (drag_handle e))%Z in
                set_dragging_background false
                  (change_view_offset e (IZR dx) (IZR dy))) e in
  e <- when_div (k =? FTR_BUTTON_DOWN)%Z
         (fun e =>
            if (hit_point e (IZR x) (IZR y) <? 0)%Z
            then change_view_scale e x y ZOOM_FACTOR
            else Some (change_radius e x y RADIUS_FACTOR)) e ;;
  e <- when_div (k =? FTR_BUTTON_UP)%Z
         (fun e =>
            if (hit_point e (IZR x) (IZR y) <? 0)%Z
            then change_view_scale e x y (1 / ZOOM_FACTOR)
            else Some (change_radius e x y (1 / RADIUS_FACTOR))) e ;;
  Some (set_changed 1 (set_userdata e f)).

(** mouse motion handler *)
Definition event_motion (f : FTR.t) (b m x y : Z) : option FTR.t :=
  f <- when_div (dragging_window_point (userdata f)
                 && negb (Z.land m FTR_BUTTON_LEFT =? 0)%Z)
         (fun f =>
            e <- drag_point_in_window_domain (userdata f) x y ;;
            Some (set_changed 1 (set_userdata e f))) f ;;
  let f := when (dragging_background (userdata f)
                 && negb (Z.land m FTR_BUTTON_LEFT =? 0)%Z)
             (fun f =>
                let e := userdata f in
                let dx := (x - fst (drag_handle e))%Z in
                let dy := (y - snd (drag_handle e))%Z in
                let e := change_view_offset e (IZR dx) (IZR dy) in
                let e := set_drag_handle (x, y) e in
                set_changed 1 (set_userdata e f)) f in
  Some f.

(** The events the window layer delivers to the three handlers. *)
Inductive event : Type :=
| Key (k m x y : Z)
| Button (k m x y : Z)
| Motion (b m x y : Z).

Definition handle (f : FTR.t) (ev : event) : option FTR.t :=
  match ev with
  | Key k m x y => event_key f k m x y
  | Button k m x y => event_button f k m x y
  | Motion b m x y => event_motion f b m x y
  end.

(** The states of a session: [main_pkatz] calls [center_view] on a window
    whose viewer state is otherwise uninitialised, then the loop hands every
    event to its handler. *)
Inductive reachable : FTR.t -> Prop :=
| reachable_init (f0 : FTR.t) : reachable (center_view f0)
| reachable_step (f f' : FTR.t) (ev : event) :
    reachable f -> handle f ev = Some f' -> reachable f'.

(** The number of drag flags that are set. *)
Definition drag_count (e : viewer_state.t) : Z :=
  (b2i (dragging_window_point e) + b2i (dragging_image_point e)
   + b2i (dragging_background e))%Z.

(** An event of the primary button: its press or its release. *)
Definition primary (ev : event) : bool :=
  match ev with
  | Button k _ _ _ => ((k =? FTR_BUTTON_LEFT) || (k =? - FTR_BUTTON_LEFT))%Z
  | _ => false
  end.

(** The sessions in which the primary button is pressed only while it is
    up, as a mouse has it.  [session down f]: the state [f] is reached, and
    [down] tells whether the primary button is held.  Keys, motions and the
    other buttons come in any order, and so does a release. *)
Inductive session : bool -> FTR.t -> Prop :=
| session_init (f0 : FTR.t) : session false (center_view f0)
| session_press (f f' : FTR.t) (m x y : Z) :
    session false f ->
    handle f (Button FTR_BUTTON_LEFT m x y) = Some f' -> session true f'
| session_release (down : bool) (f f' : FTR.t) (m x y : Z) :
    session down f ->
    handle f (Button (- FTR_BUTTON_LEFT) m x y) = Some f' -> session false f'
| session_other (down : bool) (f f' : FTR.t) (ev : event) :
    session down f -> primary ev = false ->
    handle f ev = Some f' -> session down f'.

(** ** Notions for the statements about the hull *)

(** The order [compare_points_lexicographically] decides. *)
Definition lex_le (a b : point) : Prop :=
  fst a < fst b \/ (fst a = fst b /\ snd a <= snd b).

(** [l1] is [l2] with some elements left out. *)
Inductive subseq {A : Type} : list A -> list A -> Prop :=
| subseq_nil : subseq [] []
| subseq_skip (a : A) (l1 l2 : list A) : subseq l1 l2 -> subseq l1 (a :: l2)
| subseq_take (a : A) (l1 l2 : list A) :
    subseq l1 l2 -> subseq (a :: l1) (a :: l2).

(** The difference of two points and the cross product of two vectors;
    [det a b c] is [cross (vsub b a) (vsub c a)]. *)
Definition vsub (p q : point) : point := (fst p - fst q, snd p - snd q).
Definition cross (u v : point) : R := fst u * snd v - snd u * fst v.

(** A hull under construction, last point first, turns left at each of its
    points. *)
Fixpoint left_turns (y : list point) : Prop :=
  match y with
  | c :: ((b :: a :: _) as y') => 0 < det a b c /\ left_turns y'
  | _ => True
  end.

(** Vectors that point to the lexicographically larger side, and to the
    smaller side. *)
Definition lex_nonneg (v : point) : Prop :=
  0 < fst v \/ (fst v = 0 /\ 0 <= snd v).
Definition lex_nonpos (v : point) : Prop :=
  fst v < 0 \/ (fst v = 0 /\ snd v <= 0).

(** A chain, last point first: it turns left at each of its points, and
    every point is on the [side] of those before it. *)
Definition chain (side : point -> Prop) (y : list point) : Prop :=
  StronglySorted (fun p q => side (vsub p q)) y /\ left_turns y.

(** The sides of the polygon whose corners are [y], in order:
    [paint_state] walks them as [z[i]], [z[i+1]] for [i < m - 1]. *)
Definition edges (y : list point) : list (point * point) :=
  combine y (tl y).

(** The same for a hull under construction, last point first. *)
Fixpoint stack_edges (y : list point) : list (point * point) :=
  match y with
  | b :: ((a :: _) as y') => (a, b) :: stack_edges y'
  | _ => []
  end.

(** What a pass of the hull computation keeps true of the chain [y] it has
    built from the point [t] on and of the points [P] it has looked at:
    [y] is a chain of points of [P]; every point of [P] is on the left of,
    or on, each side of [y]; the last point of [y] is the farthest of [P] to
    the [side], and [t] the nearest. *)
Definition pass_inv (side : point -> Prop) (t : point) (y P : list point)
  : Prop :=
  chain side y /\
  (forall (q a b : point),
      In q P -> In (a, b) (stack_edges y) -> 0 <= det a b q) /\
  (forall q : point, In q P -> side (vsub (hd t y) q)) /\
  (forall q : point, In q P -> side (vsub q t)) /\
  (forall a : point, In a y -> In a P).

(** A path that turns left at each of its inner corners, first point
    first. *)
Fixpoint convex_path (y : list point) : Prop :=
  match y with
  | a :: ((b :: c :: _) as y') => 0 < det a b c /\ convex_path y'
  | _ => True
  end.

(** What a session keeps true of the viewer state. *)
Definition session_inv (e : viewer_state.t) : Prop :=
  0 < scale e /\ 0 < r e /\
  (dragged_point e = 0%Z \/ dragged_point e = (-1)%Z) /\
  (0 <= interpolation_order e <= 9)%Z.

(** The point data of the viewer state: the input and what
    [paint_state] computes from it. *)
Definition point_data (e : viewer_state.t)
  : Z * list point * list point * list point * Z :=
  (n e, x e, y e, z e, m e).

(** The events of a list handled one after the other, as the loop of the
    window layer hands them over. *)
Fixpoint run (f : FTR.t) (evs : list event) : option FTR.t :=
  match evs with
  | [] => Some f
  | ev :: evs' => f' <- handle f ev ;; run f' evs'
  end.

(** The colour of a pixel of the window. *)
Definition pixel (f : canvas.t) (x y : Z) : Z * Z * Z :=
  let i := (3 * (canvas.w f * y + x))%Z in
  (load (canvas.rgb f) i, load (canvas.rgb f) (i + 1),
   load (canvas.rgb f) (i + 2)).

(** The buffer has room for the pixels of the window. *)
Definition canvas_ok (f : canvas.t) : Prop :=
  (3 * canvas.w f * canvas.h f <= Z.of_nat (length (canvas.rgb f)))%Z.

(** A list of pixels plotted one after the other. *)
Definition plot_all {E : Type} (f : Z -> Z -> E -> E) (log : list (Z * Z))
  (e : E) : E :=
  fold_left (fun e xy => f (fst xy) (snd xy) e) log e.

(** The four pixels [traverse_circle] plots for the counter [i]. *)
Definition circle_pixels (cx cy r i : Z) : list (Z * Z) :=
  let s := ftoi (sqrt (IZR (r * r - i * i))) in
  [(cx + i, cy + s); (cx + i, cy - s); (cx + s, cy + i); (cx - s, cy + i)]%Z.

(** * Properties *)

(** ** Arithmetic *)

Lemma flt_true (a b : R) : a < b -> flt a b = true.
Proof. intros H. unfold flt. destruct (Rlt_dec a b); [reflexivity | tauto]. Qed.

Lemma fle_true (a b : R) : a <= b -> fle a b = true.
Proof. intros H. unfold fle. destruct (Rle_dec a b); [reflexivity | tauto]. Qed.

Lemma fle_false (a b : R) : ~ a <= b -> fle a b = false.
Proof. intros H. unfold fle. destruct (Rle_dec a b); [tauto | reflexivity]. Qed.

Lemma fdiv_zero (a : R) : fdiv a 0 = None.
Proof. unfold fdiv. destruct (Req_dec_T 0 0); [reflexivity | tauto]. Qed.

Lemma fdiv_nonzero (a b : R) : b <> 0 -> fdiv a b = Some (a / b).
Proof. intros H. unfold fdiv. destruct (Req_dec_T b 0); [tauto | reflexivity]. Qed.

Lemma hypot_zero (a b : R) : hypot a b = 0 <-> a = 0 /\ b = 0.
Proof.
  unfold hypot. split.
  - intros H. apply sqrt_eq_0 in H; [| nra]. split; nra.
  - intros [-> ->]. replace (0 * 0 + 0 * 0) with 0 by ring. apply sqrt_0.
Qed.

Lemma hypot_axis (a : R) : 0 <= a -> hypot a 0 = a.
Proof.
  intros H. unfold hypot. apply sqrt_lem_1; nra.
Qed.

Lemma hypot_distance (p c : point) :
  hypot (fst p - fst c) (snd p - snd c) = distance p c.
Proof. unfold hypot, distance. f_equal. ring. Qed.

(** ** Single precision *)

Lemma lrint_near (a : R) : Rabs (IZR (lrint a) - a) <= 1 / 2.
Proof.
  destruct (base_Int_part a) as [B1 B2].
  unfold lrint. cbv zeta. unfold flt, fgt.
  destruct (Rlt_dec _ _) as [L | L].
  - apply Rabs_le. lra.
  - destruct (Rgt_dec _ _) as [G | G].
    + rewrite plus_IZR. apply Rabs_le. lra.
    + destruct (Z.even _); [| rewrite plus_IZR]; apply Rabs_le; lra.
Qed.

Lemma pow2_pos (e : Z) : 0 < powerRZ 2 e.
Proof. apply powerRZ_lt. lra. Qed.

Lemma pow2_add (a b : Z) : powerRZ 2 (a + b) = powerRZ 2 a * powerRZ 2 b.
Proof. apply powerRZ_add. lra. Qed.

Lemma pow2_le (a b : Z) : (a <= b)%Z -> powerRZ 2 a <= powerRZ 2 b.
Proof.
  intros H. replace b with (a + (b - a))%Z by lia. rewrite pow2_add.
  assert (1 <= powerRZ 2 (b - a)).
  { destruct (b - a)%Z eqn:E; try lia.
    - simpl. lra.
    - simpl. apply pow_R1_Rle. lra. }
  pose proof (pow2_pos a). nra.
Qed.

Lemma pow2_inv (e : Z) : powerRZ 2 (- e) * powerRZ 2 e = 1.
Proof. rewrite <- pow2_add. replace (- e + e)%Z with 0%Z by lia. reflexivity. Qed.

Lemma lrint_IZR (z : Z) : lrint (IZR z) = z.
Proof.
  unfold lrint.
  assert (E : Int_part (IZR z) = z).
  { symmetry. apply Int_part_spec. lra. }
  rewrite E. rewrite flt_true by lra. reflexivity.
Qed.

Lemma Rabs_le_bounds (x a : R) : Rabs x <= a -> - a <= x <= a.
Proof.
  intros H. pose proof (Rle_abs x) as G1. pose proof (Rle_abs (- x)) as G2.
  rewrite Rabs_Ropp in G2. lra.
Qed.

Lemma lrint_eq (a : R) (m : Z) :
  IZR m - 1 / 2 < a < IZR m + 1 / 2 -> lrint a = m.
Proof.
  intros H. pose proof (lrint_near a) as N. apply Rabs_le_bounds in N.
  assert (L : (lrint a < m + 1)%Z) by (apply lt_IZR; rewrite plus_IZR; lra).
  assert (G : (m < lrint a + 1)%Z) by (apply lt_IZR; rewrite plus_IZR; lra).
  lia.
Qed.

Lemma lrint_tie (m : Z) :
  lrint (IZR m + 1 / 2) = if Z.even m then m else (m + 1)%Z.
Proof.
  assert (I : Int_part (IZR m + 1 / 2) = m).
  { symmetry. apply Int_part_spec. lra. }
  unfold lrint. cbv zeta. rewrite I. unfold flt, fgt.
  destruct (Rlt_dec _ _) as [L | L]; [exfalso; lra |].
  destruct (Rgt_dec _ _) as [G | G]; [exfalso; lra | reflexivity].
Qed.

Lemma pow2_IZR (k : Z) : (0 <= k)%Z -> powerRZ 2 k = IZR (2 ^ k).
Proof.
  intros H. destruct k as [| p | p]; try lia.
  - reflexivity.
  - cbn [powerRZ]. rewrite (pow_IZR 2 (Pos.to_nat p)), positive_nat_Z.
    reflexivity.
Qed.

(** *** A binary format *)

Section format.

Variables (prec emin : Z) (fuel : nat).

Lemma exponent_from_spec (n : nat) (e0 : Z) (a : R) :
  (e0 = emin \/ powerRZ 2 (e0 + prec - 1) <= a) ->
  a < powerRZ 2 (e0 + Z.of_nat n + prec) ->
  let e := exponent_from prec n e0 a in
  (e0 <= e <= e0 + Z.of_nat n)%Z /\
  a < powerRZ 2 (e + prec) /\ (e = emin \/ powerRZ 2 (e + prec - 1) <= a).
Proof.
  revert e0. induction n as [| n IH]; intros e0 Lo Hi; cbn [exponent_from].
  - cbv zeta. replace (e0 + Z.of_nat 0)%Z with e0 in Hi by lia.
    split; [lia |]. split; [exact Hi | exact Lo].
  - destruct (Rlt_dec a (powerRZ 2 (e0 + prec))) as [L | L].
    + cbv zeta. split; [lia |]. split; [exact L | exact Lo].
    + cbv zeta.
      destruct (IH (e0 + 1)%Z) as (B & U & D).
      * right. replace (e0 + 1 + prec - 1)%Z with (e0 + prec)%Z by lia. lra.
      * replace (e0 + 1 + Z.of_nat n + prec)%Z
          with (e0 + Z.of_nat (S n) + prec)%Z by lia. exact Hi.
      * split; [lia |]. split; [exact U | exact D].
Qed.

Lemma exponent_below (x : R) :
  Rabs x < powerRZ 2 (emin + Z.of_nat fuel + prec) ->
  let e := exponent prec emin fuel x in
  (emin <= e <= emin + Z.of_nat fuel)%Z /\
  Rabs x < powerRZ 2 (e + prec) /\
  (e = emin \/ powerRZ 2 (e + prec - 1) <= Rabs x).
Proof.
  intros H. unfold exponent.
  apply exponent_from_spec; [left; reflexivity | exact H].
Qed.

Lemma exponent_unique (x : R) (e : Z) :
  (emin <= e <= emin + Z.of_nat fuel)%Z ->
  Rabs x < powerRZ 2 (e + prec) ->
  (e = emin \/ powerRZ 2 (e + prec - 1) <= Rabs x) ->
  exponent prec emin fuel x = e.
Proof.
  intros B U D.
  assert (M : Rabs x < powerRZ 2 (emin + Z.of_nat fuel + prec)).
  { pose proof (pow2_le (e + prec) (emin + Z.of_nat fuel + prec) ltac:(lia)).
    lra. }
  destruct (exponent_below x M) as (B' & U' & D').
  set (e' := exponent prec emin fuel x) in *.
  destruct (Z.lt_trichotomy e' e) as [L | [L | L]]; [| exact L |]; exfalso.
  - destruct D as [D | D]; [lia |].
    pose proof (pow2_le (e' + prec) (e + prec - 1) ltac:(lia)). lra.
  - destruct D' as [D' | D']; [lia |].
    pose proof (pow2_le (e + prec) (e' + prec - 1) ltac:(lia)). lra.
Qed.

Lemma round_eval (x : R) (e m : Z) :
  (emin <= e <= emin + Z.of_nat fuel)%Z ->
  Rabs x < powerRZ 2 (e + prec) ->
  (e = emin \/ powerRZ 2 (e + prec - 1) <= Rabs x) ->
  lrint (x * powerRZ 2 (- e)) = m ->
  round prec emin fuel x = IZR m * powerRZ 2 e.
Proof.
  intros B U D L. unfold round.
  rewrite (exponent_unique x e B U D), L. reflexivity.
Qed.

Lemma round_error (x : R) :
  Rabs x < powerRZ 2 (emin + Z.of_nat fuel + prec) ->
  Rabs (round prec emin fuel x - x)
    <= powerRZ 2 (- prec) * Rabs x + powerRZ 2 (emin - 1).
Proof.
  intros H. destruct (exponent_below x H) as (B & U & D).
  unfold round. set (e := exponent prec emin fuel x) in *.
  pose proof (lrint_near (x * powerRZ 2 (- e))) as N.
  pose proof (pow2_pos e) as P. pose proof (pow2_inv e) as I.
  assert (E : Rabs (IZR (lrint (x * powerRZ 2 (- e))) * powerRZ 2 e - x)
              <= powerRZ 2 e / 2).
  { set (l := IZR (lrint (x * powerRZ 2 (- e)))) in *.
    assert (Q : l * powerRZ 2 e - x
                = (l - x * powerRZ 2 (- e)) * powerRZ 2 e).
    { transitivity (l * powerRZ 2 e - x * (powerRZ 2 (- e) * powerRZ 2 e));
        [rewrite I; ring | ring]. }
    rewrite Q, Rabs_mult, (Rabs_pos_eq (powerRZ 2 e)) by lra.
    pose proof (Rabs_pos (l - x * powerRZ 2 (- e))). nra. }
  pose proof (Rabs_pos x) as A.
  pose proof (pow2_pos (emin - 1)) as P1.
  pose proof (pow2_pos (- prec)) as P2.
  assert (H2 : powerRZ 2 (-1) = / 2) by (simpl; lra).
  destruct D as [D | D].
  - assert (Q : powerRZ 2 e = powerRZ 2 emin) by (rewrite D; reflexivity).
    replace (emin - 1)%Z with (emin + -1)%Z by lia. rewrite pow2_add, H2.
    nra.
  - assert (Q : powerRZ 2 e / 2 = powerRZ 2 (- prec) * powerRZ 2 (e + prec - 1)).
    { rewrite <- pow2_add. replace (- prec + (e + prec - 1))%Z with (e + -1)%Z by lia.
      rewrite pow2_add, H2. lra. }
    rewrite Q in E. nra.
Qed.

Lemma round_int (z : Z) :
  (1 <= prec)%Z -> (emin <= 0)%Z -> (1 <= emin + Z.of_nat fuel)%Z ->
  (Z.abs z <= 2 ^ prec)%Z -> round prec emin fuel (IZR z) = IZR z.
Proof.
  intros Hp He Hf H.
  assert (A : Rabs (IZR z) <= powerRZ 2 prec).
  { rewrite <- abs_IZR, pow2_IZR by lia. apply IZR_le. exact H. }
  assert (M : Rabs (IZR z) < powerRZ 2 (emin + Z.of_nat fuel + prec)).
  { pose proof (pow2_le (prec + 1) (emin + Z.of_nat fuel + prec) ltac:(lia)) as P.
    rewrite pow2_add in P. replace (powerRZ 2 1) with 2 in P by (simpl; lra).
    pose proof (pow2_pos prec). lra. }
  destruct (exponent_below _ M) as (B & U & D).
  unfold round. set (e := exponent prec emin fuel (IZR z)) in *.
  assert (E : (e <= 1)%Z).
  { destruct (Z_le_gt_dec e 1) as [L | G]; [exact L | exfalso].
    destruct D as [D | D]; [lia |].
    pose proof (pow2_le (prec + 1) (e + prec - 1) ltac:(lia)) as P.
    rewrite pow2_add in P. replace (powerRZ 2 1) with 2 in P by (simpl; lra).
    pose proof (pow2_pos prec). lra. }
  destruct (Z_le_gt_dec e 0) as [L | G].
  - rewrite (pow2_IZR (- e)) by lia. rewrite <- mult_IZR, lrint_IZR, mult_IZR.
    rewrite <- (pow2_IZR (- e)) by lia. rewrite Rmult_assoc, pow2_inv. ring.
  - assert (e = 1%Z) as Q1 by lia. rewrite Q1 in *.
    destruct D as [D | D]; [lia |].
    replace (1 + prec - 1)%Z with prec in D by lia.
    assert (Q : Z.abs z = (2 ^ prec)%Z).
    { apply eq_IZR. rewrite abs_IZR, <- pow2_IZR by lia. lra. }
    replace (powerRZ 2 (- (1))) with (/ 2) by (simpl; lra).
    replace (powerRZ 2 1) with 2 by (simpl; lra).
    assert (Hh : (2 ^ prec = 2 * 2 ^ (prec - 1))%Z).
    { replace prec with (1 + (prec - 1))%Z at 1 by lia.
      rewrite Z.pow_add_r by lia. reflexivity. }
    assert (Zh : exists k : Z, z = (2 * k)%Z).
    { destruct (Z.abs_eq_or_opp z) as [Q' | Q']; rewrite Q in Q'.
      - exists (2 ^ (prec - 1))%Z. lia.
      - exists (- 2 ^ (prec - 1))%Z. lia. }
    destruct Zh as (k & ->).
    replace (IZR (2 * k) * / 2) with (IZR k) by (rewrite mult_IZR; lra).
    rewrite lrint_IZR, mult_IZR. lra.
Qed.

End format.

(** *** Single and double precision *)

Lemma FLT_MAX_lt : FLT_MAX < powerRZ 2 128.
Proof.
  unfold FLT_MAX. replace 128%Z with (24 + 104)%Z by lia. rewrite pow2_add.
  pose proof (pow2_pos 104). replace (powerRZ 2 24) with 16777216 by (simpl; lra).
  nra.
Qed.

Lemma binary32_error (x : R) :
  Rabs x <= FLT_MAX -> Rabs (binary32 x - x) <= u * Rabs x + eta.
Proof.
  intros H. pose proof FLT_MAX_lt as M.
  pose proof (pow2_le 128 (-149 + Z.of_nat 254 + 24) ltac:(lia)) as P.
  pose proof (round_error 24 (-149) 254 x ltac:(lra)) as E.
  replace (powerRZ 2 (- (24))) with u in E by (unfold u; simpl; lra).
  exact E.
Qed.

(** The value of [binary32] at a real whose binade is known. *)
Lemma binary32_eval (x : R) (e m : Z) :
  (-149 <= e <= 104)%Z ->
  Rabs x < powerRZ 2 (e + 24) ->
  (e = (-149)%Z \/ powerRZ 2 (e + 23) <= Rabs x) ->
  lrint (x * powerRZ 2 (- e)) = m ->
  binary32 x = IZR m * powerRZ 2 e.
Proof.
  intros B U D L. apply (round_eval 24 (-149) 254 x e m); try assumption.
  - lia.
  - replace (e + 24 - 1)%Z with (e + 23)%Z by lia. exact D.
Qed.

Lemma binary32_int (z : Z) :
  (Z.abs z <= 16777216)%Z -> binary32 (IZR z) = IZR z.
Proof. intros H. apply round_int; lia. Qed.

Theorem binary32_single : single binary32.
Proof.
  split; [exact binary32_error | exact binary32_int].
Qed.

Lemma DBL_MAX_lt : DBL_MAX < powerRZ 2 1024.
Proof.
  unfold DBL_MAX. replace 1024%Z with (53 + 971)%Z by lia. rewrite pow2_add.
  pose proof (pow2_pos 971).
  replace (powerRZ 2 53) with 9007199254740992 by (simpl; lra).
  nra.
Qed.

Lemma binary64_error (x : R) :
  Rabs x <= DBL_MAX -> Rabs (binary64 x - x) <= u64 * Rabs x + eta64.
Proof.
  intros H. pose proof DBL_MAX_lt as M.
  pose proof (pow2_le 1024 (-1074 + Z.of_nat 2046 + 53) ltac:(lia)) as P.
  pose proof (round_error 53 (-1074) 2046 x ltac:(lra)) as E.
  replace (powerRZ 2 (- (53))) with u64 in E by (unfold u64; simpl; lra).
  exact E.
Qed.

Lemma binary64_int (z : Z) :
  (Z.abs z <= 9007199254740992)%Z -> binary64 (IZR z) = IZR z.
Proof. intros H. apply round_int; lia. Qed.

Theorem binary64_double : double binary64.
Proof.
  split; [exact binary64_error | exact binary64_int].
Qed.

Lemma Rabs_neg (x : R) : x <= 0 -> Rabs x = - x.
Proof. intros H. rewrite <- Rabs_Ropp. apply Rabs_pos_eq. lra. Qed.

Lemma pow2_pos_num (p : positive) : powerRZ 2 (Z.pos p) = IZR (2 ^ Z.pos p).
Proof. apply pow2_IZR. lia. Qed.

Lemma pow2_neg_num (p : positive) : powerRZ 2 (Z.neg p) = / IZR (2 ^ Z.pos p).
Proof.
  cbn [powerRZ]. rewrite (pow_IZR 2 (Pos.to_nat p)), positive_nat_Z. reflexivity.
Qed.

(** ** The inversion map *)

(** Off the pole the two quotients exist. *)
Lemma invert_point_flip_defined (c : point) (R : float) (x : point) :
  hypot (fst x - fst c) (snd x - snd c) <> 0 ->
  invert_point_flip c R x =
    let r := hypot (fst x - fst c) (snd x - snd c) in
    Some (fst x + 2 * (R - r) * (fst x - fst c) / r,
          snd x + 2 * (R - r) * (snd x - snd c) / r).
Proof.
  intros H. unfold invert_point_flip.
  rewrite !fdiv_nonzero by exact H. reflexivity.
Qed.

Lemma invert_point_flip_pole (c : point) (R : float) :
  invert_point_flip c R c = None.
Proof.
  unfold invert_point_flip.
  replace (hypot (fst c - fst c) (snd c - snd c)) with 0.
  - rewrite fdiv_zero. reflexivity.
  - symmetry. apply hypot_zero. split; ring.
Qed.

(** C1: for every point p whose distance r to the pole c is not zero,
    invert(c, R, p) is q = p + 2*(R - r)*(p - c)/r in both coordinates; and
    for center (0,0), radius 10 and p = (20,0) it is exactly (0,0). *)
Theorem invert_point_formula :
  (forall (c : point) (R : float) (p : point),
      distance p c <> 0 ->
      invert_point c R p =
        Some (fst p + 2 * (R - distance p c) * (fst p - fst c) / distance p c,
              snd p + 2 * (R - distance p c) * (snd p - snd c) / distance p c))
  /\ invert_point (0, 0) 10 (20, 0) = Some (0, 0).
Proof.
  assert (G : forall (c : point) (R : float) (p : point),
             distance p c <> 0 ->
             invert_point c R p =
               Some (fst p + 2 * (R - distance p c) * (fst p - fst c)
                             / distance p c,
                     snd p + 2 * (R - distance p c) * (snd p - snd c)
                             / distance p c)).
  { intros c R p H. unfold invert_point.
    rewrite <- hypot_distance in *.
    rewrite invert_point_flip_defined by exact H. reflexivity. }
  split; [exact G |].
  assert (D : distance (20, 0) (0, 0) = 20).
  { rewrite <- hypot_distance. simpl fst. simpl snd.
    replace (20 - 0) with 20 by ring. replace (0 - 0) with 0 by ring.
    apply hypot_axis. lra. }
  rewrite G by (rewrite D; lra).
  rewrite D. simpl fst. simpl snd. f_equal. f_equal; field.
Qed.

Lemma invert_point_formula_witness :
  distance (20, 0) (0, 0) <> 0 /\
  invert_point (0, 0) 10 (20, 0) =
    Some (20 + 2 * (10 - distance (20, 0) (0, 0)) * (20 - 0)
               / distance (20, 0) (0, 0),
          0 + 2 * (10 - distance (20, 0) (0, 0)) * (0 - 0)
              / distance (20, 0) (0, 0)).
Proof.
  assert (D : distance (20, 0) (0, 0) <> 0).
  { rewrite <- hypot_distance. simpl fst. simpl snd.
    replace (20 - 0) with 20 by ring. replace (0 - 0) with 0 by ring.
    rewrite hypot_axis; lra. }
  split; [exact D |].
  exact (proj1 invert_point_formula (0, 0) 10 (20, 0) D).
Defined.

(** C2, as stated, fails: with the point on the pole the map divides by
    r = 0 and yields no point, so it does not return p. *)
Lemma invert_point_pole_counterexample :
  invert_point (0, 0) 10 (0, 0) = None /\
  invert_point (0, 0) 10 (0, 0) <> Some (0, 0).
Proof.
  unfold invert_point. rewrite invert_point_flip_pole.
  split; [reflexivity | discriminate].
Qed.

(** C2, amended: the inversion map has no guard for r = 0.  It yields a
    point exactly when p differs from the pole c; for p = c, whatever the
    radius, both coordinates are quotients by zero. *)
Theorem invert_point_undefined_at_pole (c : point) (R : float) (p : point) :
  invert_point c R p = None <-> p = c.
Proof.
  unfold invert_point. split.
  - intros H.
    destruct (Req_dec_T (hypot (fst p - fst c) (snd p - snd c)) 0) as [E | E].
    + apply hypot_zero in E. destruct E as [E0 E1].
      destruct p as [p0 p1], c as [c0 c1]. simpl in *. f_equal; lra.
    + rewrite invert_point_flip_defined in H by exact E. discriminate.
  - intros ->. apply invert_point_flip_pole.
Qed.

(** ** The round trip in a rounding arithmetic *)

Lemma fdiv_fl_nonzero (rnd : R -> R) (a b : R) :
  b <> 0 -> fdiv_fl rnd a b = Some (rnd (a / b)).
Proof.
  intros H. unfold fdiv_fl. destruct (Req_dec_T b 0); [tauto | reflexivity].
Qed.

Lemma map_window_to_view_fl_defined (rnd : R -> R) (e : viewer_state.t)
  (p : point) :
  scale e <> 0 ->
  map_window_to_view_fl rnd e p =
    Some (rnd (rnd (fst p - fst (offset e)) / scale e),
          rnd (rnd (snd p - snd (offset e)) / scale e)).
Proof.
  intros H. unfold map_window_to_view_fl.
  rewrite !fdiv_fl_nonzero by exact H. reflexivity.
Qed.

Lemma eta_bounds : 0 < eta <= / 4.
Proof.
  unfold eta. split; [apply pow2_pos |].
  pose proof (pow2_le (-150) (-2) ltac:(lia)) as H.
  replace (powerRZ 2 (-2)) with (/ 4) in H by (simpl; lra). exact H.
Qed.

Lemma FLT_MAX_ge : 16777215 <= FLT_MAX.
Proof.
  unfold FLT_MAX. pose proof (pow2_le 0 104 ltac:(lia)) as H.
  change (powerRZ 2 0) with 1 in H. nra.
Qed.

Lemma round_trip_error (rnd : R -> R) (o s x : R) :
  single rnd -> in_range o s x ->
  Rabs (rnd (rnd (rnd (o + rnd (s * x)) - o) / s) - x) <= tolerance o s x.
Proof.
  intros [SE _] (Hs & HW & HQ). unfold tolerance. unfold u in *.
  pose proof eta_bounds as [E0 E1]. pose proof FLT_MAX_ge as FM.
  assert (Ps : 0 < Rabs s) by lra.
  assert (s0 : s <> 0) by (intros ->; rewrite Rabs_R0 in Ps; lra).
  set (a := s * x) in *.
  pose proof (Rabs_pos o) as PO. pose proof (Rabs_pos a) as PA.
  (* the four roundings *)
  pose proof (SE a ltac:(lra)) as R1.
  set (t := rnd a) in *.
  assert (T : Rabs t <= Rabs a + (/ 16777216 * Rabs a + eta)).
  { replace t with (a + (t - a)) by ring.
    eapply Rle_trans; [apply Rabs_triang |]. lra. }
  assert (OT : Rabs (o + t)
               <= Rabs o + Rabs a + (/ 16777216 * Rabs a + eta)).
  { eapply Rle_trans; [apply Rabs_triang |]. lra. }
  pose proof (SE (o + t) ltac:(lra)) as R2.
  set (w := rnd (o + t)) in *.
  assert (WO : Rabs (w - o) <= Rabs t + Rabs (w - (o + t))).
  { replace (w - o) with (t + (w - (o + t))) by ring. apply Rabs_triang. }
  pose proof (SE (w - o) ltac:(lra)) as R3.
  set (d := rnd (w - o)) in *.
  assert (D : Rabs d <= Rabs (w - o) + Rabs (d - (w - o))).
  { replace d with ((w - o) + (d - (w - o))) at 1 by ring. apply Rabs_triang. }
  assert (DA : Rabs (d - a)
               <= Rabs (t - a) + Rabs (w - (o + t)) + Rabs (d - (w - o))).
  { replace (d - a) with ((t - a) + (w - (o + t)) + (d - (w - o))) by ring.
    eapply Rle_trans; [apply Rabs_triang |].
    apply Rplus_le_compat_r. apply Rabs_triang. }
  assert (N : Rabs (d - a) + / 16777216 * Rabs d
              <= 5 * / 16777216 * (Rabs o + Rabs a) + 4 * eta) by lra.
  assert (I : 0 < / Rabs s) by (apply Rinv_0_lt_compat; exact Ps).
  assert (DS : Rabs (d / s) = Rabs d * / Rabs s).
  { unfold Rdiv. rewrite Rabs_mult, Rabs_inv. reflexivity. }
  assert (DSle : Rabs (d / s) <= FLT_MAX).
  { rewrite DS.
    assert (Rabs d
            <= (Rabs o + Rabs a) * (1 + 4 * / 16777216) + 4 * eta) by lra.
    assert (eta * / Rabs s <= / 2).
    { apply (Rmult_le_reg_r (Rabs s)); [exact Ps |].
      rewrite Rmult_assoc, Rinv_l by lra. lra. }
    unfold Rdiv in HQ.
    assert (Rabs d * / Rabs s
            <= ((Rabs o + Rabs a) * (1 + 4 * / 16777216) + 4 * eta)
               * / Rabs s).
    { apply Rmult_le_compat_r; lra. }
    assert (K : ((Rabs o + Rabs a) * (1 + 4 * / 16777216) + 4 * eta)
                * / Rabs s
                = (Rabs o + Rabs a) * / Rabs s * (1 + 4 * / 16777216)
                  + 4 * (eta * / Rabs s)) by ring.
    lra. }
  pose proof (SE (d / s) DSle) as R4.
  set (v := rnd (d / s)) in *.
  assert (X : d / s - x = (d - a) / s).
  { unfold a. field. exact s0. }
  assert (V : Rabs (v - x) <= Rabs (v - d / s) + Rabs ((d - a) / s)).
  { replace (v - x) with ((v - d / s) + (d / s - x)) by ring.
    rewrite X. apply Rabs_triang. }
  assert (DAS : Rabs ((d - a) / s) = Rabs (d - a) * / Rabs s).
  { unfold Rdiv. rewrite Rabs_mult, Rabs_inv. reflexivity. }
  fold a. unfold Rdiv.
  assert (M : (Rabs (d - a) + / 16777216 * Rabs d) * / Rabs s
              <= (5 * / 16777216 * (Rabs o + Rabs a) + 4 * eta) * / Rabs s).
  { apply Rmult_le_compat_r; lra. }
  rewrite DS in R4. rewrite DAS in V. lra.
Qed.

(** C6, amended: for a transform with scale <> 0 and every point p,
    mapping p from view space to window space and back returns p exactly
    in real arithmetic.  In single precision it returns p up to an error,
    in each coordinate, of at most (5 u (|offset| + |scale p|) + 4 eta) /
    |scale| + eta, as long as no operation overflows: five roundings of the
    window coordinate, seen through the scale.  The tolerance is not
    relative to p. *)
Theorem map_window_to_view_of_window (e : viewer_state.t) (p : point) :
  scale e <> 0 ->
  map_window_to_view e (map_view_to_window e p) = Some p /\
  (forall rnd : R -> R,
     single rnd ->
     in_range (fst (offset e)) (scale e) (fst p) ->
     in_range (snd (offset e)) (scale e) (snd p) ->
     exists q : point,
       map_window_to_view_fl rnd e (map_view_to_window_fl rnd e p) = Some q /\
       Rabs (fst q - fst p) <= tolerance (fst (offset e)) (scale e) (fst p) /\
       Rabs (snd q - snd p) <= tolerance (snd (offset e)) (scale e) (snd p)).
Proof.
  intros H. split.
  - unfold map_window_to_view, map_view_to_window. simpl fst. simpl snd.
    rewrite !fdiv_nonzero by exact H. unfold bind.
    destruct p as [p0 p1]. simpl fst. simpl snd.
    f_equal. f_equal; field; exact H.
  - intros rnd S R0 R1.
    rewrite (map_window_to_view_fl_defined rnd e _ H).
    unfold map_view_to_window_fl. cbn [fst snd].
    eexists. split; [reflexivity |]. cbn [fst snd].
    split; apply round_trip_error; assumption.
Qed.

(** ** The actions *)

Lemma map_window_to_view_defined (e : viewer_state.t) (p : point) :
  scale e <> 0 ->
  map_window_to_view e p =
    Some ((fst p - fst (offset e)) / scale e,
          (snd p - snd (offset e)) / scale e).
Proof.
  intros H. unfold map_window_to_view.
  rewrite !fdiv_nonzero by exact H. reflexivity.
Qed.

Lemma map_window_to_view_None (e : viewer_state.t) (p : point) :
  map_window_to_view e p = None <-> scale e = 0.
Proof.
  split.
  - intros H. destruct (Req_dec_T (scale e) 0) as [E | E]; [exact E |].
    rewrite map_window_to_view_defined in H by exact E. discriminate.
  - intros E. unfold map_window_to_view. rewrite E, fdiv_zero. reflexivity.
Qed.

Lemma change_view_scale_defined (e : viewer_state.t) (x y : Z) (fac : float) :
  scale e <> 0 ->
  exists e' : viewer_state.t,
    change_view_scale e x y fac = Some e' /\
    scale e' = scale e * fac /\
    offset e' =
      (- ((IZR x - fst (offset e)) / scale e) * (scale e * fac) + IZR x,
       - ((IZR y - snd (offset e)) / scale e) * (scale e * fac) + IZR y) /\
    dragging_window_point e' = dragging_window_point e /\
    dragging_image_point e' = dragging_image_point e /\
    dragging_background e' = dragging_background e /\
    c e' = c e /\ drag_handle e' = drag_handle e.
Proof.
  intros H. unfold change_view_scale.
  rewrite map_window_to_view_defined by exact H.
  eexists. split; [reflexivity |]. simpl. repeat split; reflexivity.
Qed.

(** ** The key handler *)

Lemma chr_eqb_neq (k c : Z) : c <> k -> (k =? c)%Z = false.
Proof. intros H. apply Z.eqb_neq. congruence. Qed.

(** ** The zoom in a rounding arithmetic *)

Lemma change_view_scale_fl_defined (rnd : R -> R) (e : viewer_state.t)
  (x y : Z) (fac : float) :
  scale e <> 0 ->
  change_view_scale_fl rnd e x y fac =
    let c0 := rnd (rnd (rnd (IZR x) - fst (offset e)) / scale e) in
    let c1 := rnd (rnd (rnd (IZR y) - snd (offset e)) / scale e) in
    let s := rnd (scale e * fac) in
    Some (set_offset (rnd (rnd (- c0 * s) + rnd (IZR x)),
                      rnd (rnd (- c1 * s) + rnd (IZR y)))
            (set_scale s e)).
Proof.
  intros H. unfold change_view_scale_fl. cbv zeta.
  rewrite map_window_to_view_fl_defined by exact H. reflexivity.
Qed.

Lemma single_abs (rnd : R -> R) (x : R) :
  single rnd -> Rabs x <= FLT_MAX ->
  Rabs (rnd x) <= (1 + / 16777216) * Rabs x + eta.
Proof.
  intros [SE _] H. pose proof (SE x H) as E. unfold u in E.
  replace (rnd x) with (x + (rnd x - x)) by ring.
  eapply Rle_trans; [apply Rabs_triang |]. lra.
Qed.

Lemma FLT_MAX_half : 85070591730234615865843651857942052864 <= FLT_MAX / 2.
Proof.
  unfold FLT_MAX. rewrite (pow2_IZR 104) by lia.
  replace (2 ^ 104)%Z with 20282409603651670423947251286016%Z by reflexivity.
  lra.
Qed.

(** One coordinate of the centre after the zoom [X - c*s], shown again. *)
Lemma zoom_fixed_error (rnd : R -> R) (X c s : R) :
  single rnd -> Rabs X + Rabs (c * s) <= FLT_MAX / 2 ->
  Rabs (rnd (rnd (rnd (- c * s) + X) + rnd (s * c)) - X)
  <= zoom_tolerance X c s.
Proof.
  intros [SE _] H. unfold zoom_tolerance. unfold u in *.
  pose proof eta_bounds as [E0 E1]. pose proof FLT_MAX_ge as FM.
  pose proof (Rabs_pos X) as PX. pose proof (Rabs_pos (c * s)) as PB.
  assert (B1 : Rabs (- c * s) = Rabs (c * s)).
  { replace (- c * s) with (- (c * s)) by ring. apply Rabs_Ropp. }
  assert (B2 : Rabs (s * c) = Rabs (c * s)) by (f_equal; ring).
  pose proof (SE (- c * s) ltac:(lra)) as R1. set (t1 := rnd (- c * s)) in *.
  pose proof (SE (s * c) ltac:(lra)) as R2. set (t2 := rnd (s * c)) in *.
  assert (T1 : Rabs (t1 + X) <= Rabs (c * s) + Rabs (t1 - - c * s) + Rabs X).
  { replace (t1 + X) with (- c * s + (t1 - - c * s) + X) by ring.
    eapply Rle_trans; [apply Rabs_triang |].
    apply Rplus_le_compat_r.
    eapply Rle_trans; [apply Rabs_triang |]. lra. }
  pose proof (SE (t1 + X) ltac:(lra)) as R3. set (o := rnd (t1 + X)) in *.
  assert (Q : o + t2 = X + ((t1 - - c * s) + (t2 - s * c) + (o - (t1 + X))))
    by ring.
  assert (T2 : Rabs (o + t2)
               <= Rabs X + (Rabs (t1 - - c * s) + Rabs (t2 - s * c)
                            + Rabs (o - (t1 + X)))).
  { rewrite Q. eapply Rle_trans; [apply Rabs_triang |].
    apply Rplus_le_compat_l.
    eapply Rle_trans; [apply Rabs_triang |].
    apply Rplus_le_compat_r. apply Rabs_triang. }
  pose proof (SE (o + t2) ltac:(lra)) as R4. set (r := rnd (o + t2)) in *.
  assert (Q' : r - X = (r - (o + t2)) + ((t1 - - c * s) + (t2 - s * c)
                                          + (o - (t1 + X)))).
  { rewrite Q. ring. }
  rewrite Q'.
  eapply Rle_trans; [apply Rabs_triang |].
  assert (T3 : Rabs ((t1 - - c * s) + (t2 - s * c) + (o - (t1 + X)))
               <= Rabs (t1 - - c * s) + Rabs (t2 - s * c)
                  + Rabs (o - (t1 + X))).
  { eapply Rle_trans; [apply Rabs_triang |].
    apply Rplus_le_compat_r. apply Rabs_triang. }
  lra.
Qed.

Lemma Zabs_quot2 (x B : Z) :
  (Z.abs x <= B)%Z -> (Z.abs (Z.quot x 2) <= B)%Z.
Proof.
  intros H. rewrite <- (Z.quot_abs x 2) by lia. change (Z.abs 2) with 2%Z.
  pose proof (Z.abs_nonneg x).
  apply Z.quot_le_upper_bound; lia.
Qed.

(** In a moderate state no operation of the zoom comes near overflow. *)
Lemma zoom_in_range (rnd : R -> R) (x : Z) (o s : R) :
  single rnd -> (Z.abs x <= 16777216)%Z -> Rabs o <= 1073741824 ->
  / 1073741824 <= Rabs s <= 1073741824 ->
  Rabs (rnd (IZR x))
  + Rabs (rnd (rnd (rnd (IZR x) - o) / s) * rnd (s * rnd ZOOM_FACTOR))
  <= FLT_MAX / 2.
Proof.
  intros S Hx Ho [Hs1 Hs2].
  pose proof eta_bounds as [E0 E1]. pose proof FLT_MAX_half as FM.
  pose proof (FLT_MAX_ge) as FM'.
  rewrite (single_int rnd S x Hx).
  assert (AX : Rabs (IZR x) <= 16777216).
  { rewrite <- abs_IZR. apply IZR_le. exact Hx. }
  assert (A1 : Rabs (IZR x - o) <= 2147483648).
  { eapply Rle_trans; [apply Rabs_triang |]. rewrite Rabs_Ropp. lra. }
  pose proof (single_abs rnd (IZR x - o) S ltac:(lra)) as D0.
  set (d0 := rnd (IZR x - o)) in *.
  assert (Ps : 0 < Rabs s) by lra.
  assert (Is : / Rabs s <= 1073741824).
  { rewrite <- (Rinv_inv 1073741824). apply Rinv_le_contravar; lra. }
  assert (Ip : 0 < / Rabs s) by (apply Rinv_0_lt_compat; exact Ps).
  assert (A2 : Rabs (d0 / s) <= 4294967296 * 1073741824).
  { unfold Rdiv. rewrite Rabs_mult, Rabs_inv.
    apply Rmult_le_compat; try lra. apply Rabs_pos. }
  pose proof (single_abs rnd (d0 / s) S ltac:(lra)) as C.
  set (c := rnd (d0 / s)) in *.
  assert (AF : Rabs ZOOM_FACTOR <= 2).
  { unfold ZOOM_FACTOR. rewrite Rabs_pos_eq; lra. }
  pose proof (single_abs rnd ZOOM_FACTOR S ltac:(lra)) as Fc.
  set (fac := rnd ZOOM_FACTOR) in *.
  assert (A3 : Rabs (s * fac) <= 1073741824 * 4).
  { rewrite Rabs_mult. apply Rmult_le_compat; try lra; apply Rabs_pos. }
  pose proof (single_abs rnd (s * fac) S ltac:(lra)) as S'.
  set (s' := rnd (s * fac)) in *.
  assert (A4 : Rabs (c * s') <= 9223372036854775808 * 8589934592).
  { rewrite Rabs_mult. apply Rmult_le_compat; try lra; apply Rabs_pos. }
  lra.
Qed.

(** What '+' does to the view in a rounding arithmetic. *)
Lemma event_key_fl_plus (rnd : R -> R) (f : FTR.t) (m x y : Z) :
  FTR_KEY_DOWN <> chr "+" -> FTR_KEY_UP <> chr "+" ->
  FTR_KEY_RIGHT <> chr "+" -> FTR_KEY_LEFT <> chr "+" ->
  scale (userdata f) <> 0 ->
  let e := userdata f in
  let X0 := rnd (IZR (Z.quot (w f) 2)) in
  let X1 := rnd (IZR (Z.quot (h f) 2)) in
  let c0 := rnd (rnd (X0 - fst (offset e)) / scale e) in
  let c1 := rnd (rnd (X1 - snd (offset e)) / scale e) in
  let s := rnd (scale e * rnd ZOOM_FACTOR) in
  exists f' : FTR.t,
    event_key_fl rnd f (chr "+") m x y = Some f' /\
    scale (userdata f') = s /\
    offset (userdata f') = (rnd (rnd (- c0 * s) + X0), rnd (rnd (- c1 * s) + X1)).
Proof.
  intros HD HU HR HL Hs e X0 X1 c0 c1 s.
  unfold event_key_fl.
  rewrite (chr_eqb_neq _ _ HD), (chr_eqb_neq _ _ HU),
    (chr_eqb_neq _ _ HR), (chr_eqb_neq _ _ HL).
  change (chr "+") with 43%Z. change (chr "q") with 113%Z.
  simpl.
  rewrite (change_view_scale_fl_defined rnd (userdata f) _ _ _ Hs).
  cbv zeta. simpl.
  eexists. split; [reflexivity |]. simpl. split; reflexivity.
Qed.

(** C7, amended: pressing '+' multiplies the scale by the zoom factor and
    sets the offset to [X - center * scale], where [X] is the window centre
    (w/2, h/2) and [center] the view point found for it before the zoom; so
    [center] is shown at the window centre again, exactly so in exact
    arithmetic and up to four roundings in a rounding arithmetic. *)
Theorem event_key_plus_zoom (f : FTR.t) (m x y : Z) :
  FTR_KEY_DOWN <> chr "+" -> FTR_KEY_UP <> chr "+" ->
  FTR_KEY_RIGHT <> chr "+" -> FTR_KEY_LEFT <> chr "+" ->
  let X := (IZR (Z.quot (w f) 2), IZR (Z.quot (h f) 2)) in
  (scale (userdata f) <> 0 ->
   exists (f' : FTR.t) (center : point),
     event_key f (chr "+") m x y = Some f' /\
     map_window_to_view (userdata f) X = Some center /\
     map_view_to_window (userdata f) center = X /\
     scale (userdata f') = scale (userdata f) * ZOOM_FACTOR /\
     map_view_to_window (userdata f') center = X)
  /\
  (forall rnd : R -> R, single rnd -> moderate f ->
   exists (f' : FTR.t) (center : point),
     event_key_fl rnd f (chr "+") m x y = Some f' /\
     map_window_to_view_fl rnd (userdata f) X = Some center /\
     scale (userdata f') = rnd (scale (userdata f) * rnd ZOOM_FACTOR) /\
     offset (userdata f')
     = (rnd (rnd (- fst center * scale (userdata f')) + fst X),
        rnd (rnd (- snd center * scale (userdata f')) + snd X)) /\
     Rabs (fst (map_view_to_window_fl rnd (userdata f') center) - fst X)
     <= zoom_tolerance (fst X) (fst center) (scale (userdata f')) /\
     Rabs (snd (map_view_to_window_fl rnd (userdata f') center) - snd X)
     <= zoom_tolerance (snd X) (snd center) (scale (userdata f'))).
Proof.
  intros HD HU HR HL X. split.
  - intros Hs. unfold event_key.
    rewrite (chr_eqb_neq _ _ HD), (chr_eqb_neq _ _ HU),
      (chr_eqb_neq _ _ HR), (chr_eqb_neq _ _ HL).
    change (chr "+") with 43%Z. change (chr "q") with 113%Z.
    simpl.
    destruct (change_view_scale_defined (userdata f) (Z.quot (w f) 2)
                (Z.quot (h f) 2) ZOOM_FACTOR Hs)
      as (e' & He' & Hsc & Hoff & _).
    rewrite He'. simpl.
    eexists. eexists.
    split; [reflexivity |].
    split; [apply map_window_to_view_defined; exact Hs |].
    unfold map_view_to_window, X. simpl.
    rewrite Hsc, Hoff. simpl.
    repeat split; try (f_equal; field; exact Hs).
  - intros rnd S (Mw & Mh & Mo0 & Mo1 & Ms).
    assert (Hs : scale (userdata f) <> 0).
    { intros E. rewrite E, Rabs_R0 in Ms.
      assert (0 < / 1073741824) by (apply Rinv_0_lt_compat; lra). lra. }
    pose proof (Zabs_quot2 _ _ Mw) as Qw.
    pose proof (Zabs_quot2 _ _ Mh) as Qh.
    pose proof (zoom_in_range rnd _ _ _ S Qw Mo0 Ms) as R0.
    pose proof (zoom_in_range rnd _ _ _ S Qh Mo1 Ms) as R1.
    destruct (event_key_fl_plus rnd f m x y HD HU HR HL Hs)
      as (f' & Hf & Hsc & Hoff).
    cbv zeta in Hsc, Hoff.
    rewrite (map_window_to_view_fl_defined rnd (userdata f) X Hs).
    unfold X. cbn [fst snd].
    rewrite !(single_int rnd S _ Qw), !(single_int rnd S _ Qh) in *.
    exists f'. eexists.
    split; [exact Hf |].
    split; [reflexivity |].
    split; [exact Hsc |].
    cbn [fst snd]. rewrite <- Hsc in Hoff.
    split; [exact Hoff |].
    unfold map_view_to_window_fl. rewrite Hoff. cbn [fst snd].
    rewrite Hsc in *.
    split; apply zoom_fixed_error; assumption.
Qed.

Lemma when_ind {A : Type} (P : A -> Prop) (b : bool) (g : A -> A) (a : A) :
  P a -> (forall a', P a' -> P (g a')) -> P (when b g a).
Proof. intros Ha Hg. unfold when. destruct b; auto. Qed.

Lemma when_pres {A B : Type} (proj : A -> B) (b : bool) (g : A -> A) (a : A) :
  (forall a', proj (g a') = proj a') -> proj (when b g a) = proj a.
Proof. intros H. unfold when. destruct b; [apply H | reflexivity]. Qed.

Lemma when_div_change_view_scale (b : bool) (x y : Z) (fac : float)
  (e : viewer_state.t) :
  scale e <> 0 ->
  exists e' : viewer_state.t,
    when_div b (fun e => change_view_scale e x y fac) e = Some e' /\
    (fac <> 0 -> scale e' <> 0).
Proof.
  intros H. unfold when_div. destruct b.
  - destruct (change_view_scale_defined e x y fac H) as (e' & He' & Hs & _).
    exists e'. split; [exact He' |]. intros Hf. rewrite Hs.
    apply Rmult_integral_contrapositive_currified; assumption.
  - exists e. split; [reflexivity | intros _; exact H].
Qed.

Lemma ZOOM_FACTOR_pos : 0 < ZOOM_FACTOR.
Proof. unfold ZOOM_FACTOR. lra. Qed.

(** The one way out of the key handler that does not reach its last two
    lines. *)
Lemma event_key_q (f : FTR.t) (m x y : Z) :
  event_key f (chr "q") m x y =
    Some (ftr_notify_the_desire_to_stop_this_loop f 0).
Proof. reflexivity. Qed.

Lemma event_key_returns (f : FTR.t) (k m x y : Z) :
  scale (userdata f) <> 0 ->
  exists f' : FTR.t,
    event_key f k m x y = Some f' /\ scale (userdata f') <> 0.
Proof.
  intros Hs. unfold event_key.
  destruct (k =? chr "q")%Z; [eexists; split; [reflexivity | exact Hs] |].
  cbv zeta.
  match goal with
  | |- context [when_div _ _ ?e] => set (e8 := e)
  end.
  assert (H8 : scale e8 <> 0).
  { subst e8.
    repeat (apply when_ind; [| intros a' Ha'; exact Ha']).
    unfold when. destruct (k =? chr "c")%Z; [simpl; lra | exact Hs]. }
  destruct (when_div_change_view_scale (k =? chr "+")%Z
              (Z.quot (w (when (k =? chr "c")%Z center_view f)) 2)
              (Z.quot (h (when (k =? chr "c")%Z center_view f)) 2)
              ZOOM_FACTOR e8 H8) as (e9 & -> & H9).
  simpl bind.
  assert (Z1 : 1 / ZOOM_FACTOR <> 0) by (unfold ZOOM_FACTOR; lra).
  destruct (when_div_change_view_scale (k =? chr "-")%Z
              (Z.quot (w (when (k =? chr "c")%Z center_view f)) 2)
              (Z.quot (h (when (k =? chr "c")%Z center_view f)) 2)
              (1 / ZOOM_FACTOR) e9 (H9 (Rgt_not_eq _ _ ZOOM_FACTOR_pos)))
    as (e10 & -> & H10).
  simpl bind. eexists. split; [reflexivity |].
  simpl. rewrite !(when_pres scale) by reflexivity.
  exact (H10 Z1).
Qed.

(** C9, amended: for every key code other than 'q' the key handler, when
    it is through, has cleared dragging_window_point and
    dragging_image_point, and it is through whenever the scale is not zero;
    for 'q' it only asks the loop to stop and leaves the viewer state as it
    was. *)
Theorem event_key_clears_point_drags (f : FTR.t) (k m x y : Z) :
  (k <> chr "q" ->
   (forall f' : FTR.t,
       event_key f k m x y = Some f' ->
       dragging_window_point (userdata f') = false /\
       dragging_image_point (userdata f') = false) /\
   (scale (userdata f) <> 0 ->
    exists f' : FTR.t, event_key f k m x y = Some f')) /\
  (exists f' : FTR.t,
      event_key f (chr "q") m x y = Some f' /\ userdata f' = userdata f).
Proof.
  split.
  - intros Hq. split.
    2:{ intros Hs. destruct (event_key_returns f k m x y Hs) as (f' & H & _).
        exists f'. exact H. }
    intros f'. unfold event_key.
    rewrite (proj2 (Z.eqb_neq k (chr "q")) Hq). cbv zeta.
    unfold bind.
    destruct (when_div (k =? chr "+")%Z _ _) as [e9 |]; [| discriminate].
    destruct (when_div (k =? chr "-")%Z _ _) as [e10 |]; [| discriminate].
    intros H. injection H as <-. simpl. split; reflexivity.
  - eexists. split; [apply event_key_q | reflexivity].
Qed.

(** ** The button and motion handlers *)

Lemma hit_point_view (e e' : viewer_state.t) (x y : float) :
  c e' = c e -> offset e' = offset e -> scale e' = scale e ->
  hit_point e' x y = hit_point e x y.
Proof.
  intros Hc Ho Hs. unfold hit_point, map_view_to_window.
  rewrite Hc, Ho, Hs. reflexivity.
Qed.

Lemma hit_point_cases (e : viewer_state.t) (x y : float) :
  hit_point e x y = 0%Z \/ hit_point e x y = (-1)%Z.
Proof. unfold hit_point. destruct (flt _ _); [left | right]; reflexivity. Qed.

Lemma change_view_scale_Some (e e' : viewer_state.t) (x y : Z) (fac : float) :
  change_view_scale e x y fac = Some e' ->
  scale e <> 0 /\ scale e' = scale e * fac /\
  dragging_window_point e' = dragging_window_point e /\
  dragging_image_point e' = dragging_image_point e /\
  dragging_background e' = dragging_background e.
Proof.
  intros H.
  destruct (Req_dec_T (scale e) 0) as [E | E].
  - unfold change_view_scale in H.
    rewrite (proj2 (map_window_to_view_None e _) E) in H. discriminate.
  - destruct (change_view_scale_defined e x y fac E)
      as (e2 & H2 & Hs & _ & Hw & Hi & Hb & _).
    rewrite H2 in H. injection H as <-. auto.
Qed.

Lemma drag_point_in_window_domain_Some (e e' : viewer_state.t) (x y : Z) :
  drag_point_in_window_domain e x y = Some e' ->
  scale e <> 0 /\ scale e' = scale e /\ offset e' = offset e /\
  dragging_window_point e' = dragging_window_point e /\
  dragging_image_point e' = dragging_image_point e /\
  dragging_background e' = dragging_background e.
Proof.
  unfold drag_point_in_window_domain. intros H.
  destruct (map_window_to_view e (IZR x, IZR y)) as [q |] eqn:Hq;
    [| discriminate].
  simpl in H. injection H as <-. simpl.
  repeat split.
  intros E. apply map_window_to_view_None with (p := (IZR x, IZR y)) in E.
  congruence.
Qed.

(** What a button event does to the drag flags. *)
Lemma event_button_flags (f f' : FTR.t) (k m x y : Z) :
  event_button f k m x y = Some f' ->
  let e := userdata f in
  let e' := userdata f' in
  let p := hit_point e (IZR x) (IZR y) in
  let rel := (k =? - FTR_BUTTON_LEFT)%Z in
  dragging_window_point e' =
    (dragging_window_point e || ((k =? FTR_BUTTON_LEFT) && (0 <=? p))%Z)
    && negb rel /\
  dragging_image_point e' =
    dragging_image_point e || ((k =? FTR_BUTTON_RIGHT) && (0 <=? p))%Z /\
  (rel = false ->
   dragging_background e' =
     dragging_background e || ((k =? FTR_BUTTON_LEFT) && (p <? 0))%Z) /\
  (rel = true -> dragging_background e' = false).
Proof.
  intros H e e' p rel. subst e'.
  unfold event_button in H. cbv zeta in H. fold e p rel in H.
  set (e1 := when ((k =? FTR_BUTTON_LEFT)%Z && (0 <=? p)%Z) _ e) in H.
  assert (Hw1 : dragging_window_point e1 =
                dragging_window_point e
                || ((k =? FTR_BUTTON_LEFT) && (0 <=? p))%Z).
  { subst e1. unfold when.
    destruct ((k =? FTR_BUTTON_LEFT)%Z && (0 <=? p)%Z); simpl;
      [rewrite orb_true_r | rewrite orb_false_r]; reflexivity. }
  assert (Hi1 : dragging_image_point e1 = dragging_image_point e).
  { subst e1. apply when_pres. reflexivity. }
  assert (Hb1 : dragging_background e1 = dragging_background e).
  { subst e1. apply when_pres. reflexivity. }
  assert (Hv1 : c e1 = c e /\ offset e1 = offset e /\ scale e1 = scale e).
  { subst e1. repeat split; apply when_pres; reflexivity. }
  clearbody e1.
  destruct (when_div (dragging_window_point e1 && rel) _ e1) as [e2 |] eqn:H2;
    [| discriminate].
  simpl bind in H.
  assert (F2 : dragging_window_point e2 = dragging_window_point e1 && negb rel
               /\ dragging_image_point e2 = dragging_image_point e1
               /\ dragging_background e2 = dragging_background e1
               /\ (rel = false -> e2 = e1)).
  { unfold when_div in H2.
    destruct (dragging_window_point e1) eqn:W1; destruct rel eqn:R; simpl in H2.
    - destruct (drag_point_in_window_domain e1 x y) as [e1' |] eqn:D;
        [| discriminate].
      simpl in H2. injection H2 as <-. simpl.
      apply drag_point_in_window_domain_Some in D.
      destruct D as (_ & _ & _ & _ & Hi & Hb).
      repeat split; try assumption; discriminate.
    - injection H2 as <-. rewrite W1. repeat split; reflexivity.
    - injection H2 as <-. rewrite W1. repeat split; reflexivity.
    - injection H2 as <-. rewrite W1. repeat split; reflexivity. }
  destruct F2 as (Hw2 & Hi2 & Hb2 & He2).
  clear H2.
  set (e3 := when ((k =? FTR_BUTTON_RIGHT)%Z && (0 <=? p)%Z) _ e2) in H.
  assert (Hw3 : dragging_window_point e3 = dragging_window_point e2).
  { subst e3. apply when_pres. reflexivity. }
  assert (Hi3 : dragging_image_point e3 =
                dragging_image_point e2
                || ((k =? FTR_BUTTON_RIGHT) && (0 <=? p))%Z).
  { subst e3. unfold when.
    destruct ((k =? FTR_BUTTON_RIGHT)%Z && (0 <=? p)%Z); simpl;
      [rewrite orb_true_r | rewrite orb_false_r]; reflexivity. }
  assert (Hb3 : dragging_background e3 = dragging_background e2).
  { subst e3. apply when_pres. reflexivity. }
  assert (Hv3 : c e3 = c e2 /\ offset e3 = offset e2 /\ scale e3 = scale e2).
  { subst e3. repeat split; apply when_pres; reflexivity. }
  clearbody e3.
  set (h3 := hit_point e3 (IZR x) (IZR y)) in H.
  assert (Hh3 : rel = false -> h3 = p).
  { intros R. subst h3 p. destruct Hv3 as (A & B & C).
    destruct Hv1 as (A1 & B1 & C1). specialize (He2 R). subst e2.
    apply hit_point_view; congruence. }
  clearbody h3.
  set (e4 := when ((k =? FTR_BUTTON_LEFT)%Z && (h3 <? 0)%Z) _ e3) in H.
  assert (Hw4 : dragging_window_point e4 = dragging_window_point e3).
  { subst e4. apply when_pres. reflexivity. }
  assert (Hi4 : dragging_image_point e4 = dragging_image_point e3).
  { subst e4. apply when_pres. reflexivity. }
  assert (Hb4 : dragging_background e4 =
                dragging_background e3
                || ((k =? FTR_BUTTON_LEFT) && (h3 <? 0))%Z).
  { subst e4. unfold when.
    destruct ((k =? FTR_BUTTON_LEFT)%Z && (h3 <? 0)%Z); simpl;
      [rewrite orb_true_r | rewrite orb_false_r]; reflexivity. }
  clearbody e4.
  set (e5 := when (dragging_background e4 && rel) _ e4) in H.
  assert (Hw5 : dragging_window_point e5 = dragging_window_point e4).
  { subst e5. apply when_pres. reflexivity. }
  assert (Hi5 : dragging_image_point e5 = dragging_image_point e4).
  { subst e5. apply when_pres. reflexivity. }
  assert (Hb5 : dragging_background e5 = dragging_background e4 && negb rel).
  { subst e5. unfold when.
    destruct (dragging_background e4) eqn:B4; destruct rel; simpl;
      rewrite ?B4; reflexivity. }
  clearbody e5.
  assert (Z : forall (b : bool) (fz fr : float) (ea eb : viewer_state.t),
             when_div b
               (fun e => if (hit_point e (IZR x) (IZR y) <? 0)%Z
                         then change_view_scale e x y fz
                         else Some (change_radius e x y fr)) ea = Some eb ->
             dragging_window_point eb = dragging_window_point ea /\
             dragging_image_point eb = dragging_image_point ea /\
             dragging_background eb = dragging_background ea).
  { intros b fz fr ea eb Hz. unfold when_div in Hz. destruct b.
    - destruct (hit_point ea (IZR x) (IZR y) <? 0)%Z.
      + apply change_view_scale_Some in Hz. tauto.
      + injection Hz as <-. repeat split.
    - injection Hz as <-. repeat split. }
  destruct (when_div (k =? FTR_BUTTON_DOWN)%Z _ e5) as [e6 |] eqn:H6;
    [| discriminate].
  simpl bind in H.
  destruct (when_div (k =? FTR_BUTTON_UP)%Z _ e6) as [e7 |] eqn:H7;
    [| discriminate].
  simpl bind in H. injection H as <-. simpl userdata.
  apply Z in H6. apply Z in H7.
  destruct H6 as (Hw6 & Hi6 & Hb6). destruct H7 as (Hw7 & Hi7 & Hb7).
  rewrite Hw7, Hw6, Hw5, Hw4, Hw3, Hw2, Hw1.
  rewrite Hi7, Hi6, Hi5, Hi4, Hi3, Hi2, Hi1.
  rewrite Hb7, Hb6, Hb5, Hb4, Hb3, Hb2, Hb1.
  repeat split.
  - intros R. rewrite R, (Hh3 R). simpl. rewrite andb_true_r. reflexivity.
  - intros R. rewrite R. simpl. rewrite andb_false_r. reflexivity.
Qed.

Lemma when_div_zoom_flags (b : bool) (x y : Z) (fac : float)
  (e e' : viewer_state.t) :
  when_div b (fun e => change_view_scale e x y fac) e = Some e' ->
  dragging_background e' = dragging_background e.
Proof.
  unfold when_div. destruct b; intros H.
  - apply change_view_scale_Some in H. tauto.
  - injection H as <-. reflexivity.
Qed.

Lemma event_motion_returns (f : FTR.t) (b m x y : Z) :
  scale (userdata f) <> 0 ->
  exists f' : FTR.t,
    event_motion f b m x y = Some f' /\ scale (userdata f') <> 0.
Proof.
  intros Hs. unfold event_motion.
  assert (H1 : exists f1 : FTR.t,
             when_div (dragging_window_point (userdata f)
                       && negb (Z.land m FTR_BUTTON_LEFT =? 0)%Z)
               (fun f =>
                  e <- drag_point_in_window_domain (userdata f) x y ;;
                  Some (set_changed 1 (set_userdata e f))) f = Some f1
             /\ scale (userdata f1) <> 0).
  { unfold when_div. destruct (_ && _).
    - unfold drag_point_in_window_domain.
      rewrite map_window_to_view_defined by exact Hs. simpl.
      eexists. split; [reflexivity | exact Hs].
    - exists f. split; [reflexivity | exact Hs]. }
  destruct H1 as (f1 & -> & Hs1). simpl bind.
  eexists. split; [reflexivity |].
  rewrite (when_pres (fun f => scale (userdata f))) by reflexivity.
  exact Hs1.
Qed.

Lemma event_button_returns (f : FTR.t) (k m x y : Z) :
  scale (userdata f) <> 0 ->
  exists f' : FTR.t,
    event_button f k m x y = Some f' /\ scale (userdata f') <> 0.
Proof.
  intros Hs. unfold event_button. cbv zeta.
  set (p := hit_point (userdata f) (IZR x) (IZR y)).
  set (e1 := when ((k =? FTR_BUTTON_LEFT)%Z && (0 <=? p)%Z) _ (userdata f)).
  assert (Hs1 : scale e1 <> 0).
  { subst e1. rewrite (when_pres scale) by reflexivity. exact Hs. }
  clearbody e1.
  assert (H2 : exists e2 : viewer_state.t,
             when_div (dragging_window_point e1 && (k =? - FTR_BUTTON_LEFT)%Z)
               (fun e =>
                  e <- drag_point_in_window_domain e x y ;;
                  Some (set_dragged_point (-1)
                          (set_dragging_window_point false e))) e1 = Some e2
             /\ scale e2 <> 0).
  { unfold when_div. destruct (_ && _).
    - unfold drag_point_in_window_domain.
      rewrite map_window_to_view_defined by exact Hs1. simpl.
      eexists. split; [reflexivity | exact Hs1].
    - exists e1. split; [reflexivity | exact Hs1]. }
  destruct H2 as (e2 & -> & Hs2). simpl bind.
  match goal with
  | |- context [when_div (k =? FTR_BUTTON_DOWN)%Z _ ?e] => set (e5 := e)
  end.
  assert (Hs5 : scale e5 <> 0).
  { subst e5. rewrite !(when_pres scale) by reflexivity. exact Hs2. }
  clearbody e5.
  assert (Z : forall (b : bool) (fz fr : float) (ea : viewer_state.t),
             fz <> 0 -> scale ea <> 0 ->
             exists eb : viewer_state.t,
               when_div b
                 (fun e => if (hit_point e (IZR x) (IZR y) <? 0)%Z
                           then change_view_scale e x y fz
                           else Some (change_radius e x y fr)) ea = Some eb
               /\ scale eb <> 0).
  { intros b fz fr ea Hfz Ha. unfold when_div. destruct b.
    - destruct (hit_point ea (IZR x) (IZR y) <? 0)%Z.
      + destruct (change_view_scale_defined ea x y fz Ha)
          as (eb & Hb & Hsb & _).
        exists eb. split; [exact Hb |]. rewrite Hsb.
        apply Rmult_integral_contrapositive_currified; assumption.
      + eexists. split; [reflexivity | exact Ha].
    - exists ea. split; [reflexivity | exact Ha]. }
  destruct (Z (k =? FTR_BUTTON_DOWN)%Z ZOOM_FACTOR RADIUS_FACTOR e5
              (Rgt_not_eq _ _ ZOOM_FACTOR_pos) Hs5) as (e6 & -> & Hs6).
  simpl bind.
  assert (Z1 : 1 / ZOOM_FACTOR <> 0) by (unfold ZOOM_FACTOR; lra).
  destruct (Z (k =? FTR_BUTTON_UP)%Z (1 / ZOOM_FACTOR) (1 / RADIUS_FACTOR) e6
              Z1 Hs6) as (e7 & -> & Hs7).
  simpl bind. eexists. split; [reflexivity | exact Hs7].
Qed.

(** Every handler is through, and leaves a scale other than zero, when it
    starts from a scale other than zero. *)
Lemma handle_returns (f : FTR.t) (ev : event) :
  scale (userdata f) <> 0 ->
  exists f' : FTR.t, handle f ev = Some f' /\ scale (userdata f') <> 0.
Proof.
  intros Hs. destruct ev as [k m x y | k m x y | b m x y]; simpl.
  - apply event_key_returns; exact Hs.
  - apply event_button_returns; exact Hs.
  - apply event_motion_returns; exact Hs.
Qed.

(** In a session the scale is never zero, so no handler ever divides by
    zero: every event leads to a next state. *)
Lemma reachable_scale (f : FTR.t) :
  reachable f -> scale (userdata f) <> 0.
Proof.
  induction 1 as [f0 | f f' ev _ IH H].
  - simpl. lra.
  - destruct (handle_returns f ev IH) as (f2 & H2 & Hs2). congruence.
Qed.

Lemma reachable_progress (f : FTR.t) (ev : event) :
  reachable f -> exists f' : FTR.t, handle f ev = Some f' /\ reachable f'.
Proof.
  intros Hr. destruct (handle_returns f ev (reachable_scale f Hr))
    as (f' & H & _).
  exists f'. split; [exact H | exact (reachable_step f f' ev Hr H)].
Qed.

(** A key event sets neither flag of the primary button. *)
Lemma event_key_primary (f f' : FTR.t) (k m x y : Z) :
  event_key f k m x y = Some f' ->
  (dragging_window_point (userdata f') = true ->
   dragging_window_point (userdata f) = true) /\
  (dragging_background (userdata f') = true ->
   dragging_background (userdata f) = true).
Proof.
  unfold event_key. destruct (k =? chr "q")%Z.
  - intros H. injection H as <-. simpl. tauto.
  - cbv zeta. unfold bind.
    destruct (when_div (k =? chr "+")%Z _ _) as [e9 |] eqn:H9;
      [| discriminate].
    destruct (when_div (k =? chr "-")%Z _ _) as [e10 |] eqn:H10;
      [| discriminate].
    intros H. injection H as <-.
    apply when_div_zoom_flags in H9, H10.
    simpl.
    rewrite !(when_pres dragging_background) by reflexivity.
    rewrite H10, H9.
    rewrite !(when_pres dragging_background) by reflexivity.
    split; [discriminate |].
    unfold when. destruct (k =? chr "c")%Z; simpl; [discriminate | tauto].
Qed.

(** A motion event changes neither flag of the primary button. *)
Lemma event_motion_primary (f f' : FTR.t) (b m x y : Z) :
  event_motion f b m x y = Some f' ->
  dragging_window_point (userdata f') = dragging_window_point (userdata f) /\
  dragging_background (userdata f') = dragging_background (userdata f).
Proof.
  unfold event_motion, bind.
  destruct (when_div _ _ f) as [f1 |] eqn:H1; [| discriminate].
  intros H. injection H as <-.
  assert (F1 : dragging_window_point (userdata f1)
               = dragging_window_point (userdata f)
               /\ dragging_background (userdata f1)
                  = dragging_background (userdata f)).
  { unfold when_div in H1. destruct (_ && _).
    - destruct (drag_point_in_window_domain (userdata f) x y) as [e1 |] eqn:D;
        [| discriminate].
      simpl in H1. injection H1 as <-. simpl.
      apply drag_point_in_window_domain_Some in D. tauto.
    - injection H1 as <-. split; reflexivity. }
  destruct F1 as (Hw & Hb).
  rewrite !(when_pres (fun f => dragging_window_point (userdata f))),
    !(when_pres (fun f => dragging_background (userdata f)))
    by reflexivity.
  rewrite Hw, Hb. split; reflexivity.
Qed.

(** C8, amended: the three drag flags are not exclusive, as
    dragging_image_point is cleared by key events only; of the two flags
    of the primary button, dragging_window_point and dragging_background,
    at most one is set in every state of a session in which the primary
    button is pressed only while it is up, and none while it is up. *)
Theorem primary_drag_exclusive (down : bool) (f : FTR.t) :
  session down f ->
  dragging_window_point (userdata f) && dragging_background (userdata f)
  = false /\
  (down = false ->
   dragging_window_point (userdata f) = false /\
   dragging_background (userdata f) = false).
Proof.
  intros Hs.
  induction Hs as [f0 | f f' m x y _ IH H | down f f' m x y _ IH H
                   | down f f' ev _ IH Hp H].
  - simpl. split; [reflexivity | intros _; split; reflexivity].
  - destruct IH as [_ IH]. destruct (IH eq_refl) as [Hw0 Hb0].
    simpl in H. apply event_button_flags in H. cbv zeta in H.
    destruct H as (Hw & _ & Hb1 & Hb2).
    rewrite Hw0, Z.eqb_refl in *. simpl in Hw.
    split; [| discriminate].
    destruct (FTR_BUTTON_LEFT =? - FTR_BUTTON_LEFT)%Z eqn:R.
    + rewrite Hw, (Hb2 eq_refl). rewrite andb_false_r. reflexivity.
    + rewrite Hw, (Hb1 eq_refl), Hb0. simpl. rewrite andb_true_r.
      destruct (hit_point_cases (userdata f) (IZR x) (IZR y)) as [E | E];
        rewrite E; reflexivity.
  - simpl in H. apply event_button_flags in H. cbv zeta in H.
    destruct H as (Hw & _ & _ & Hb2).
    rewrite Z.eqb_refl in *. specialize (Hb2 eq_refl).
    simpl negb in Hw. rewrite andb_false_r in Hw.
    rewrite Hw, Hb2.
    split; [reflexivity | intros _; split; reflexivity].
  - destruct IH as [IH1 IH2].
    assert (K : (dragging_window_point (userdata f') = true ->
                 dragging_window_point (userdata f) = true) /\
                (dragging_background (userdata f') = true ->
                 dragging_background (userdata f) = true)).
    { destruct ev as [k m x y | k m x y | b m x y]; simpl in H, Hp.
      - exact (event_key_primary f f' k m x y H).
      - apply orb_false_iff in Hp. destruct Hp as [P1 P2].
        apply event_button_flags in H. cbv zeta in H.
        destruct H as (Hw & _ & Hb1 & _).
        rewrite P1, P2 in *. specialize (Hb1 eq_refl).
        simpl in Hw, Hb1. rewrite orb_false_r, andb_true_r in Hw.
        rewrite orb_false_r in Hb1. rewrite Hw, Hb1. tauto.
      - destruct (event_motion_primary f f' b m x y H) as [Hw Hb].
        rewrite Hw, Hb. tauto. }
    destruct K as [Kw Kb].
    split.
    + destruct (dragging_window_point (userdata f')) eqn:W;
        destruct (dragging_background (userdata f')) eqn:B;
        try reflexivity.
      rewrite (Kw eq_refl), (Kb eq_refl) in IH1. discriminate.
    + intros D. destruct (IH2 D) as [Hw0 Hb0].
      destruct (dragging_window_point (userdata f')) eqn:W;
        [rewrite (Kw eq_refl) in Hw0; discriminate |].
      destruct (dragging_background (userdata f')) eqn:B;
        [rewrite (Kb eq_refl) in Hb0; discriminate |].
      split; reflexivity.
Qed.

(** ** Drawing segments *)

Lemma In_counter (cnt i : Z) : In i (counter cnt) <-> (0 <= i < cnt)%Z.
Proof.
  unfold counter. rewrite in_map_iff. split.
  - intros (j & <- & Hj). apply in_seq in Hj. lia.
  - intros H. exists (Z.to_nat i). split; [lia |]. apply in_seq. lia.
Qed.

Lemma length_counter (cnt : Z) : length (counter cnt) = Z.to_nat cnt.
Proof. unfold counter. rewrite length_map, length_seq. reflexivity. Qed.

Lemma fold_record_pixel {A : Type} (g h : A -> Z) (l : list A)
  (log : list (Z * Z)) :
  fold_left (fun log a => record_pixel (g a) (h a) log) l log =
    log ++ map (fun a => (g a, h a)) l.
Proof.
  revert log. induction l as [| a l IH]; intros log; simpl.
  - rewrite app_nil_r. reflexivity.
  - rewrite IH. unfold record_pixel. rewrite <- app_assoc. reflexivity.
Qed.

(** ** Drawing segments in a rounding arithmetic *)

Lemma eta_tiny : eta <= / 18446744073709551616.
Proof.
  unfold eta. pose proof (pow2_le (-150) (-64) ltac:(lia)) as H.
  rewrite (pow2_neg_num 64) in H.
  replace (2 ^ 64)%Z with 18446744073709551616%Z in H by reflexivity.
  exact H.
Qed.

(** The case distinction of [traverse_segment_fl] once the end points are
    in order and not too far apart for the divisor to be converted
    exactly. *)
Lemma traverse_segment_fl_ordered {E : Type} (rnd : R -> R) (fuel : nat)
  (px py qx qy : Z) (f : Z -> Z -> E -> E) (e : E) :
  single rnd ->
  (Z.abs (qx - px) <= 16777216)%Z -> (Z.abs (qy - py) <= 16777216)%Z ->
  (px + py <= qx + qy)%Z ->
  traverse_segment_fl rnd (S fuel) px py qx qy f e =
    if ((px =? qx) && (py =? qy))%Z then Some (f px py e)
    else if ((qy - py <? qx - px) || (qy - py <? px - qx))%Z then
      let slope := rnd (IZR (qy - py) / IZR (qx - px)) in
      Some (fold_left
              (fun e i =>
                 f (i + px)%Z
                   (lrint (rnd (rnd (IZR py) + rnd (rnd (IZR i) * slope))))
                   e)
              (counter (qx - px)) e)
    else
      let slope := rnd (IZR (qx - px) / IZR (qy - py)) in
      Some (fold_left
              (fun e j =>
                 f (lrint (rnd (rnd (IZR px) + rnd (rnd (IZR j) * slope))))
                   (j + py)%Z e)
              (counter (qy - py + 1)) e).
Proof.
  intros S Bx By Hord. cbn [traverse_segment_fl].
  destruct ((px =? qx) && (py =? qy))%Z eqn:Hc; [reflexivity |].
  rewrite (proj2 (Z.ltb_ge _ _) Hord).
  rewrite !(single_int rnd S) by assumption.
  destruct ((qy - py <? qx - px) || (qy - py <? px - qx))%Z eqn:Hh.
  - rewrite fdiv_fl_nonzero; [reflexivity |].
    apply not_0_IZR. apply orb_true_iff in Hh.
    destruct Hh as [Hh | Hh]; apply Z.ltb_lt in Hh; lia.
  - rewrite fdiv_fl_nonzero; [reflexivity |].
    apply not_0_IZR. apply orb_false_iff in Hh. destruct Hh as [H1 H2].
    apply Z.ltb_ge in H1, H2.
    apply andb_false_iff in Hc.
    destruct Hc as [Hc | Hc]; apply Z.eqb_neq in Hc; lia.
Qed.

Lemma along_segment (u0 i D d : R) (lo hi : R) :
  0 < D -> 0 <= i <= D ->
  lo <= u0 <= hi -> lo <= u0 + d <= hi ->
  lo <= u0 + i * (d / D) <= hi.
Proof.
  intros HD Hi H0 H1.
  set (s := d / D). assert (Es : s * D = d) by (unfold s; field; lra).
  destruct (Rle_lt_dec 0 s) as [Hs | Hs]; nra.
Qed.

(** A pixel of either walk: three roundings of numbers below [2^21] do not
    move the sum by half a pixel. *)
Lemma traverse_segment_fl_near (rnd : R -> R) (u0 d D j : Z) :
  single rnd ->
  (Z.abs u0 <= 1048576)%Z -> (Z.abs (u0 + d) <= 1048576)%Z ->
  (0 < D <= 2097152)%Z -> (Z.abs d <= D)%Z -> (0 <= j <= D)%Z ->
  Rabs (rnd (rnd (IZR u0) + rnd (rnd (IZR j) * rnd (IZR d / IZR D)))
        - (IZR u0 + IZR j * (IZR d / IZR D))) < 1 / 2.
Proof.
  intros S B0 B1 BD Bd Bj. pose proof S as [SE _]. unfold u in SE.
  pose proof eta_bounds as [E0 _]. pose proof eta_tiny as E1.
  pose proof FLT_MAX_ge as FM.
  rewrite !(single_int rnd S) by lia.
  assert (Dp : 0 < IZR D) by (apply IZR_lt; lia).
  assert (DB : IZR D <= 2097152) by (apply IZR_le; lia).
  assert (Ad : Rabs (IZR d) <= IZR D).
  { rewrite <- abs_IZR. apply IZR_le. exact Bd. }
  assert (J0 : 0 <= IZR j) by (apply IZR_le; lia).
  assert (J1 : IZR j <= IZR D) by (apply IZR_le; lia).
  assert (A0 : -1048576 <= IZR u0 <= 1048576).
  { split; [apply (IZR_le (-1048576)) | apply (IZR_le _ 1048576)]; lia. }
  assert (A1 : -1048576 <= IZR u0 + IZR d <= 1048576).
  { rewrite <- plus_IZR.
    split; [apply (IZR_le (-1048576)) | apply (IZR_le _ 1048576)]; lia. }
  set (dr := IZR d) in *. set (Dr := IZR D) in *. set (jr := IZR j) in *.
  pose proof (along_segment (IZR u0) jr Dr dr _ _ Dp (conj J0 J1) A0 A1)
    as Aj.
  set (a := IZR u0 + jr * (dr / Dr)) in *.
  assert (Q : Rabs (dr / Dr) * Dr = Rabs dr).
  { unfold Rdiv. rewrite Rabs_mult, Rabs_inv, (Rabs_pos_eq Dr) by lra.
    field. lra. }
  pose proof (Rabs_pos (dr / Dr)) as P1. pose proof (Rabs_pos dr) as P2.
  assert (Q1 : Rabs (dr / Dr) <= 1).
  { apply (Rmult_le_reg_r Dr); [exact Dp |]. rewrite Q. lra. }
  pose proof (SE (dr / Dr) ltac:(lra)) as R1.
  set (slope := rnd (dr / Dr)) in *.
  assert (M0 : Rabs (jr * (dr / Dr)) <= Rabs dr).
  { rewrite Rabs_mult, (Rabs_pos_eq jr) by lra. rewrite <- Q.
    rewrite (Rmult_comm jr). apply Rmult_le_compat_l; lra. }
  assert (M1 : Rabs (jr * slope - jr * (dr / Dr))
               <= / 16777216 * Rabs dr + Dr * eta).
  { replace (jr * slope - jr * (dr / Dr)) with ((slope - dr / Dr) * jr)
      by ring.
    rewrite Rabs_mult, (Rabs_pos_eq jr) by lra.
    apply Rle_trans with ((/ 16777216 * Rabs (dr / Dr) + eta) * Dr).
    - apply Rmult_le_compat; try lra. apply Rabs_pos.
    - rewrite Rmult_plus_distr_r, Rmult_assoc, Q. lra. }
  assert (DE : Dr * eta <= / 1024) by nra.
  assert (M2 : Rabs (jr * slope)
               <= Rabs (jr * (dr / Dr))
                  + Rabs (jr * slope - jr * (dr / Dr))).
  { replace (jr * slope)
      with (jr * (dr / Dr) + (jr * slope - jr * (dr / Dr))) at 1 by ring.
    apply Rabs_triang. }
  pose proof (SE (jr * slope) ltac:(lra)) as R2.
  set (t := rnd (jr * slope)) in *.
  assert (Aa : Rabs a <= 1048576) by (apply Rabs_le; lra).
  assert (M3 : Rabs (IZR u0 + t)
               <= Rabs a + Rabs (jr * slope - jr * (dr / Dr))
                  + Rabs (t - jr * slope)).
  { replace (IZR u0 + t)
      with (a + (jr * slope - jr * (dr / Dr)) + (t - jr * slope))
      by (unfold a; ring).
    eapply Rle_trans; [apply Rabs_triang |].
    apply Rplus_le_compat_r. apply Rabs_triang. }
  pose proof (SE (IZR u0 + t) ltac:(lra)) as R3.
  set (v := rnd (IZR u0 + t)) in *.
  assert (M4 : Rabs (v - a)
               <= Rabs (v - (IZR u0 + t)) + Rabs (t - jr * slope)
                  + Rabs (jr * slope - jr * (dr / Dr))).
  { replace (v - a)
      with ((v - (IZR u0 + t)) + (t - jr * slope)
            + (jr * slope - jr * (dr / Dr)))
      by (unfold a; ring).
    eapply Rle_trans; [apply Rabs_triang |].
    apply Rplus_le_compat_r. apply Rabs_triang. }
  lra.
Qed.

(** Rounding to an integer, of a real within half a pixel of an interval
    between two integers. *)
Lemma lrint_between_near (lo hi : Z) (v a : R) :
  IZR lo <= a <= IZR hi -> Rabs (v - a) < 1 / 2 -> (lo <= lrint v <= hi)%Z.
Proof.
  intros [Hlo Hhi] H. pose proof (lrint_near v) as N.
  apply Rabs_le_bounds in N.
  pose proof (Rle_abs (v - a)) as G1.
  pose proof (Rle_abs (- (v - a))) as G2. rewrite Rabs_Ropp in G2.
  split.
  - apply Z.lt_succ_r. apply lt_IZR. rewrite succ_IZR. lra.
  - apply Z.lt_succ_r. apply lt_IZR. rewrite succ_IZR. lra.
Qed.

(** The last pixel of the walk along y. *)
Lemma traverse_segment_fl_last (rnd : R -> R) (px qx D : Z) :
  single rnd ->
  (Z.abs px <= 1048576)%Z -> (Z.abs qx <= 1048576)%Z ->
  (0 < D <= 2097152)%Z -> (Z.abs (qx - px) <= D)%Z ->
  lrint (rnd (rnd (IZR px)
              + rnd (rnd (IZR D) * rnd (IZR (qx - px) / IZR D)))) = qx.
Proof.
  intros S Bp Bq BD Bd.
  pose proof (traverse_segment_fl_near rnd px (qx - px) D D S Bp
                ltac:(replace (px + (qx - px))%Z with qx by lia; exact Bq)
                BD Bd ltac:(lia)) as N.
  assert (Dp : 0 < IZR D) by (apply IZR_lt; lia).
  replace (IZR px + IZR D * (IZR (qx - px) / IZR D)) with (IZR qx) in N
    by (rewrite minus_IZR; field; lra).
  apply lrint_eq.
  pose proof (Rle_abs (rnd (rnd (IZR px)
                             + rnd (rnd (IZR D)
                                    * rnd (IZR (qx - px) / IZR D)))
                       - IZR qx)) as G1.
  pose proof (Rle_abs (- (rnd (rnd (IZR px)
                                + rnd (rnd (IZR D)
                                       * rnd (IZR (qx - px) / IZR D)))
                          - IZR qx))) as G2.
  rewrite Rabs_Ropp in G2. lra.
Qed.

(** C10, amended: in a rounding arithmetic and for end points with
    coordinates of magnitude at most 2^20, the traversal of a segment is
    through after at most one recursive call, taken exactly when
    qx+qy < px+py and with the end points swapped; coincident end points
    give one call of the plot callback; with the end points in order, the
    walk along x calls it qx-px times, at x = px .. qx-1, and never at the
    pixel (qx,qy), and the walk along y calls it qy-py+1 times, at
    y = py .. qy, first at (px,py) and last at (qx,qy). *)
Theorem traverse_segment_calls (rnd : R -> R) (px py qx qy : Z) :
  single rnd ->
  (Z.abs px <= 1048576)%Z -> (Z.abs py <= 1048576)%Z ->
  (Z.abs qx <= 1048576)%Z -> (Z.abs qy <= 1048576)%Z ->
  (forall (E : Type) (f : Z -> Z -> E -> E) (e : E),
      (exists e' : E, traverse_segment_fl rnd 2 px py qx qy f e = Some e') /\
      (traverse_segment_fl rnd 1 px py qx qy f e = None
       <-> (qx + qy < px + py)%Z) /\
      ((qx + qy < px + py)%Z ->
       traverse_segment_fl rnd 2 px py qx qy f e =
         traverse_segment_fl rnd 1 qx qy px py f e))
  /\ (px = qx -> py = qy ->
      traverse_segment_fl rnd 2 px py qx qy record_pixel [] = Some [(px, py)])
  /\ ((px + py <= qx + qy)%Z ->
      (qy - py < qx - px \/ qy - py < px - qx)%Z ->
      exists log : list (Z * Z),
        traverse_segment_fl rnd 2 px py qx qy record_pixel [] = Some log /\
        map fst log = map (fun i => (px + i)%Z) (counter (qx - px)) /\
        Z.of_nat (length log) = (qx - px)%Z /\
        ~ In (qx, qy) log)
  /\ ((px + py <= qx + qy)%Z ->
      ~ (px = qx /\ py = qy) ->
      ~ (qy - py < qx - px \/ qy - py < px - qx)%Z ->
      exists log : list (Z * Z),
        traverse_segment_fl rnd 2 px py qx qy record_pixel [] = Some log /\
        map snd log = map (fun j => (py + j)%Z) (counter (qy - py + 1)) /\
        Z.of_nat (length log) = (qy - py + 1)%Z /\
        hd_error log = Some (px, py) /\
        last log (qx, qy - 1)%Z = (qx, qy)).
Proof.
  intros Hr Bpx Bpy Bqx Bqy.
  assert (T : forall (E : Type) (f : Z -> Z -> E -> E) (e : E)
                     (fuel : nat) (ax ay bx by' : Z),
             (Z.abs (bx - ax) <= 16777216)%Z ->
             (Z.abs (by' - ay) <= 16777216)%Z ->
             (ax + ay <= bx + by')%Z ->
             exists e' : E,
               traverse_segment_fl rnd (S fuel) ax ay bx by' f e = Some e').
  { intros E f e fuel ax ay bx by' B1 B2 Hord.
    rewrite (traverse_segment_fl_ordered rnd) by assumption.
    destruct (_ && _); [eexists; reflexivity |].
    destruct (_ || _); eexists; reflexivity. }
  split; [| split; [| split]].
  - intros E f e.
    destruct (Z.lt_ge_cases (qx + qy) (px + py)) as [Hlt | Hge].
    + assert (Hne : ((px =? qx) && (py =? qy))%Z = false).
      { apply andb_false_iff.
        destruct (Z.eqb_spec px qx); [right | left; reflexivity].
        apply Z.eqb_neq. lia. }
      assert (S2 : traverse_segment_fl rnd 2 px py qx qy f e =
                   traverse_segment_fl rnd 1 qx qy px py f e).
      { cbn [traverse_segment_fl]. rewrite Hne.
        rewrite (proj2 (Z.ltb_lt _ _) Hlt). reflexivity. }
      split; [| split].
      * rewrite S2. apply T; lia.
      * split; [intros _; exact Hlt |]. intros _.
        cbn [traverse_segment_fl]. rewrite Hne.
        rewrite (proj2 (Z.ltb_lt _ _) Hlt). reflexivity.
      * intros _. exact S2.
    + split; [| split].
      * apply T; lia.
      * split; [| lia]. intros H.
        destruct (T E f e 0%nat px py qx qy ltac:(lia) ltac:(lia) Hge)
          as (e' & He').
        congruence.
      * lia.
  - intros -> ->. rewrite (traverse_segment_fl_ordered rnd) by (try lia; exact Hr).
    rewrite !Z.eqb_refl. reflexivity.
  - intros Hord Hh.
    rewrite (traverse_segment_fl_ordered rnd) by (try lia; exact Hr).
    assert (Hpos : (0 < qx - px)%Z) by lia.
    replace ((px =? qx) && (py =? qy))%Z with false
      by (symmetry; apply andb_false_iff; left; apply Z.eqb_neq; lia).
    replace ((qy - py <? qx - px) || (qy - py <? px - qx))%Z with true
      by (symmetry; apply orb_true_iff; left; apply Z.ltb_lt; lia).
    cbv zeta. eexists. split; [reflexivity |].
    rewrite (fold_record_pixel (fun i => (i + px)%Z)). simpl app.
    split; [| split].
    + rewrite map_map. apply map_ext. intros i. simpl. lia.
    + rewrite length_map, length_counter. lia.
    + intros Hin. apply in_map_iff in Hin. destruct Hin as (i & Hi & Hc).
      apply In_counter in Hc. injection Hi as Hi _. lia.
  - intros Hord Hne Hv.
    rewrite (traverse_segment_fl_ordered rnd) by (try lia; exact Hr).
    replace ((px =? qx) && (py =? qy))%Z with false
      by (symmetry; apply andb_false_iff;
          destruct (Z.eqb_spec px qx); [right; apply Z.eqb_neq; tauto
                                       | left; reflexivity]).
    replace ((qy - py <? qx - px) || (qy - py <? px - qx))%Z with false
      by (symmetry; apply orb_false_iff; split; apply Z.ltb_ge; lia).
    assert (Hpos : (0 < qy - py)%Z) by lia.
    cbv zeta. eexists. split; [reflexivity |].
    rewrite (fold_record_pixel
               (fun j => lrint (rnd (rnd (IZR px)
                                     + rnd (rnd (IZR j)
                                            * rnd (IZR (qx - px)
                                                   / IZR (qy - py))))))
               (fun j => (j + py)%Z)).
    simpl app.
    split; [| split; [| split]].
    + rewrite map_map. apply map_ext. intros j. simpl. lia.
    + rewrite length_map, length_counter. lia.
    + unfold counter.
      replace (Z.to_nat (qy - py + 1)) with (S (Z.to_nat (qy - py))) by lia.
      cbn [seq map hd_error Z.of_nat]. f_equal. f_equal.
      rewrite (single_int rnd Hr 0) by lia.
      rewrite Rmult_0_l, (single_int rnd Hr 0) by lia.
      rewrite Rplus_0_r, !(single_int rnd Hr px) by lia.
      apply lrint_IZR.
    + unfold counter.
      replace (Z.to_nat (qy - py + 1)) with (Z.to_nat (qy - py) + 1)%nat
        by lia.
      rewrite seq_app, !map_app. cbn [seq map Nat.add]. rewrite last_last.
      rewrite Z2Nat.id by lia. f_equal; [| lia].
      apply traverse_segment_fl_last; try assumption; lia.
Qed.

(** ** Sorting *)

Lemma compare_points_lexicographically_le (a b : point) :
  (compare_points_lexicographically a b <=? 0)%Z = true <-> lex_le a b.
Proof.
  unfold compare_points_lexicographically, lex_le, fgt, flt.
  destruct a as [a0 a1], b as [b0 b1]. simpl.
  destruct (Rgt_dec a0 b0), (Rlt_dec a0 b0), (Rgt_dec a1 b1),
    (Rlt_dec a1 b1); simpl; split; intros H;
    try reflexivity; try discriminate; try lra.
Qed.

Lemma lex_le_refl (a : point) : lex_le a a.
Proof. unfold lex_le. right. split; [reflexivity | lra]. Qed.

Lemma lex_le_trans (a b c : point) : lex_le a b -> lex_le b c -> lex_le a c.
Proof. unfold lex_le. intros [H | [H H']] [G | [G G']]; lra. Qed.

Lemma lex_le_total (a b : point) : lex_le a b \/ lex_le b a.
Proof.
  unfold lex_le.
  destruct (Rtotal_order (fst a) (fst b)) as [H | [H | H]];
    destruct (Rle_dec (snd a) (snd b)); lra.
Qed.

Lemma lex_le_antisym (a b : point) : lex_le a b -> lex_le b a -> a = b.
Proof.
  unfold lex_le. destruct a as [a0 a1], b as [b0 b1]. simpl.
  intros [H | [H H']] [G | [G G']]; try lra. f_equal; lra.
Qed.

Lemma qsort_insert_le (a b : point) (l : list point) :
  lex_le a b ->
  qsort_insert compare_points_lexicographically a (b :: l) = a :: b :: l.
Proof.
  intros H. simpl.
  rewrite (proj2 (compare_points_lexicographically_le a b) H). reflexivity.
Qed.

Lemma qsort_insert_Permutation {A : Type} (cmp : A -> A -> Z) (a : A)
  (l : list A) :
  Permutation (qsort_insert cmp a l) (a :: l).
Proof.
  induction l as [| b l IH]; simpl.
  - apply Permutation_refl.
  - destruct (cmp a b <=? 0)%Z.
    + apply Permutation_refl.
    + apply Permutation_trans with (b :: a :: l).
      * apply perm_skip. exact IH.
      * apply perm_swap.
Qed.

Lemma qsort_Permutation {A : Type} (cmp : A -> A -> Z) (l : list A) :
  Permutation (qsort l cmp) l.
Proof.
  induction l as [| a l IH]; simpl.
  - apply perm_nil.
  - apply Permutation_trans with (a :: qsort l cmp).
    + apply qsort_insert_Permutation.
    + apply perm_skip. exact IH.
Qed.

Lemma qsort_length {A : Type} (cmp : A -> A -> Z) (l : list A) :
  length (qsort l cmp) = length l.
Proof. apply Permutation_length. apply qsort_Permutation. Qed.

Lemma qsort_insert_sorted (a : point) (l : list point) :
  StronglySorted lex_le l ->
  StronglySorted lex_le (qsort_insert compare_points_lexicographically a l).
Proof.
  induction 1 as [| b l Hs IH Hb].
  - simpl. constructor; constructor.
  - destruct (lex_le_total a b) as [Hab | Hba].
    + rewrite qsort_insert_le by exact Hab.
      constructor; [constructor; assumption |].
      constructor; [exact Hab |].
      eapply Forall_impl; [| exact Hb].
      intros d Hd. exact (lex_le_trans a b d Hab Hd).
    + simpl. destruct (compare_points_lexicographically a b <=? 0)%Z eqn:E.
      * apply compare_points_lexicographically_le in E.
        constructor; [constructor; assumption |].
        constructor; [exact E |].
        eapply Forall_impl; [| exact Hb].
        intros d Hd. exact (lex_le_trans a b d E Hd).
      * constructor; [exact IH |].
        apply (Permutation_Forall
                 (Permutation_sym
                    (qsort_insert_Permutation
                       compare_points_lexicographically a l))).
        constructor; assumption.
Qed.

Lemma qsort_sorted (l : list point) :
  StronglySorted lex_le (qsort l compare_points_lexicographically).
Proof.
  induction l as [| a l IH]; simpl.
  - constructor.
  - apply qsort_insert_sorted. exact IH.
Qed.

(** An array has one ascending arrangement: whatever algorithm [qsort] runs,
    it leaves this one. *)
Lemma sorted_Permutation_unique (l l' : list point) :
  StronglySorted lex_le l -> StronglySorted lex_le l' ->
  Permutation l l' -> l = l'.
Proof.
  intros Hl. revert l'. induction Hl as [| a l Hs IH Ha]; intros l' Hl' Hp.
  - apply Permutation_nil in Hp. congruence.
  - destruct Hl' as [| a' l' Hs' Ha'].
    + apply Permutation_sym, Permutation_nil in Hp. discriminate.
    + assert (E : a = a').
      { apply lex_le_antisym.
        - assert (I : In a' (a :: l)).
          { apply (Permutation_in a' (Permutation_sym Hp)). left. reflexivity. }
          destruct I as [-> | I]; [apply lex_le_refl |].
          exact (proj1 (Forall_forall _ _) Ha a' I).
        - assert (I : In a (a' :: l')).
          { apply (Permutation_in a Hp). left. reflexivity. }
          destruct I as [-> | I]; [apply lex_le_refl |].
          exact (proj1 (Forall_forall _ _) Ha' a I). }
      subst a'. f_equal. apply IH; [exact Hs' |].
      exact (Permutation_cons_inv Hp).
Qed.

Lemma qsort_unique (l s : list point) :
  StronglySorted lex_le s -> Permutation s l ->
  qsort l compare_points_lexicographically = s.
Proof.
  intros Hs Hp. apply sorted_Permutation_unique.
  - apply qsort_sorted.
  - exact Hs.
  - apply Permutation_trans with l;
      [apply qsort_Permutation | apply Permutation_sym; exact Hp].
Qed.

(** ** Geometry of a chain of left turns *)

Lemma det_cross (a b c : point) : det a b c = cross (vsub b a) (vsub c a).
Proof. reflexivity. Qed.

Lemma cross_split_l (a b c w : point) :
  cross (vsub c a) w = cross (vsub c b) w + cross (vsub b a) w.
Proof. unfold cross, vsub. simpl. ring. Qed.

Lemma cross_split_r (u a b c : point) :
  cross u (vsub c a) = cross u (vsub c b) + cross u (vsub b a).
Proof. unfold cross, vsub. simpl. ring. Qed.

Lemma cross_self (u : point) : cross u u = 0.
Proof. unfold cross. ring. Qed.

(** Among vectors of one half plane, [0 < cross u v] orders by angle and is
    transitive. *)
Lemma lex_nonneg_trans (u v w : point) :
  lex_nonneg u -> lex_nonneg v -> lex_nonneg w ->
  0 < cross u v -> 0 < cross v w -> 0 < cross u w.
Proof.
  unfold lex_nonneg, cross.
  destruct u as [u0 u1], v as [v0 v1], w as [w0 w1]. simpl.
  intros Hu Hv Hw Huv Hvw.
  assert (I : v0 * (u0 * w1 - u1 * w0) =
              u0 * (v0 * w1 - v1 * w0) + w0 * (u0 * v1 - u1 * v0)) by ring.
  assert (Pv : 0 < v0).
  { destruct Hv as [Hv | [Hv Hv']]; [exact Hv |]. subst v0.
    destruct Hw as [Hw | [Hw Hw']]; nra. }
  assert (Pu : 0 < u0).
  { destruct Hu as [Hu | [Hu Hu']]; [exact Hu |]. subst u0. nra. }
  assert (Pw : 0 <= w0) by (destruct Hw as [Hw | [Hw _]]; lra).
  assert (P : 0 < v0 * (u0 * w1 - u1 * w0)).
  { rewrite I. apply Rplus_lt_le_0_compat.
    - apply Rmult_lt_0_compat; assumption.
    - apply Rmult_le_pos; lra. }
  nra.
Qed.

Lemma lex_nonpos_trans (u v w : point) :
  lex_nonpos u -> lex_nonpos v -> lex_nonpos w ->
  0 < cross u v -> 0 < cross v w -> 0 < cross u w.
Proof.
  intros Hu Hv Hw Huv Hvw.
  pose (ng := fun p : point => (- fst p, - snd p)).
  assert (N : forall p q : point, cross (ng p) (ng q) = cross p q).
  { intros p q. unfold cross, ng. simpl. ring. }
  assert (M : forall p : point, lex_nonpos p -> lex_nonneg (ng p)).
  { intros p. unfold lex_nonpos, lex_nonneg, ng. simpl.
    intros [H | [H H']]; lra. }
  rewrite <- N. apply lex_nonneg_trans with (ng v); auto; rewrite N; assumption.
Qed.

Lemma StronglySorted_app_r {A : Type} (R : A -> A -> Prop) (l1 l2 : list A) :
  StronglySorted R (l1 ++ l2) -> StronglySorted R l2.
Proof.
  induction l1 as [| a l1 IH]; simpl; intros H; [exact H |].
  inversion H; subst. apply IH. assumption.
Qed.

Section chain.

(** The half plane the steps of the chain lie in. *)
Variable side : point -> Prop.
Hypothesis side_trans : forall u v w : point,
  side u -> side v -> side w ->
  0 < cross u v -> 0 < cross v w -> 0 < cross u w.

Lemma chain_tail (p : point) (y : list point) : chain side (p :: y) -> chain side y.
Proof.
  intros [Hs Ht]. split.
  - inversion Hs; assumption.
  - destruct y as [| b [| a y]]; simpl in *; tauto.
Qed.

(** The step into the last point turns left of the way from any earlier
    point to the one before the last. *)
Lemma chain_last_step (c b : point) (y : list point) :
  chain side (c :: b :: y) ->
  forall a : point, In a y -> 0 < cross (vsub b a) (vsub c b).
Proof.
  revert c b. induction y as [| a1 y IH]; intros c b Hc a Ha.
  - destruct Ha.
  - assert (T : 0 < cross (vsub b a1) (vsub c b)).
    { destruct Hc as [_ [Ht _]]. rewrite det_cross in Ht.
      rewrite (cross_split_r _ a1 b c) in Ht.
      rewrite cross_self in Ht. lra. }
    destruct Ha as [-> | Ha]; [exact T |].
    rewrite (cross_split_l a a1 b).
    assert (G : 0 < cross (vsub a1 a) (vsub b a1)).
    { apply IH; [exact (chain_tail c _ Hc) | exact Ha]. }
    assert (U : 0 < cross (vsub a1 a) (vsub c b)).
    { destruct Hc as [Hs _].
      inversion Hs as [| ? ? Hs1 Hf1]; subst.
      inversion Hs1 as [| ? ? Hs2 Hf2]; subst.
      inversion Hs2 as [| ? ? Hs3 Hf3]; subst.
      apply side_trans with (vsub b a1).
      - exact (proj1 (Forall_forall _ _) Hf3 a Ha).
      - inversion Hf2; assumption.
      - inversion Hf1; assumption.
      - exact G.
      - exact T. }
    lra.
Qed.

(** Every point strictly inside the chain lies to the right of the line
    from its first point to its last. *)
Lemma chain_inner (c : point) (l1 l2 : list point) (b a : point) :
  chain side (c :: l1 ++ b :: l2) -> In a l2 ->
  0 < cross (vsub b a) (vsub c b).
Proof.
  revert c. induction l1 as [| c' l1 IH]; intros c Hc Ha.
  - exact (chain_last_step c b l2 Hc a Ha).
  - simpl in Hc.
    assert (G : 0 < cross (vsub b a) (vsub c' b)).
    { apply IH; [exact (chain_tail c _ Hc) | exact Ha]. }
    rewrite (cross_split_r _ b c' c).
    assert (Hb : In b (l1 ++ b :: l2)) by (apply in_elt).
    assert (T : 0 < cross (vsub c' b) (vsub c c')).
    { exact (chain_last_step c c' (l1 ++ b :: l2) Hc b Hb). }
    assert (U : 0 < cross (vsub b a) (vsub c c')).
    { destruct Hc as [Hs _].
      inversion Hs as [| ? ? Hs1 Hf1]; subst.
      inversion Hs1 as [| ? ? Hs2 Hf2]; subst.
      apply side_trans with (vsub c' b).
      - apply (StronglySorted_app_r _ (c' :: l1)) in Hs1.
        inversion Hs1 as [| ? ? _ Hf3]; subst.
        exact (proj1 (Forall_forall _ _) Hf3 a Ha).
      - exact (proj1 (Forall_forall _ _) Hf2 b Hb).
      - inversion Hf1; assumption.
      - exact G.
      - exact T. }
    lra.
Qed.

Lemma chain_inner_det (c : point) (l : list point) (b a : point) :
  chain side (c :: l ++ [a]) -> In b l -> det a c b < 0.
Proof.
  intros Hc Hb. apply in_split in Hb. destruct Hb as (l1 & l2 & ->).
  rewrite <- app_assoc in Hc. simpl in Hc.
  assert (G : 0 < cross (vsub b a) (vsub c b)).
  { apply (chain_inner c l1 (l2 ++ [a]) b a Hc).
    apply in_or_app. right. left. reflexivity. }
  replace (det a c b) with (- cross (vsub b a) (vsub c b))
    by (unfold det, cross, vsub; simpl; ring).
  lra.
Qed.

End chain.

(** ** Subsequences *)

Lemma subseq_refl {A : Type} (l : list A) : subseq l l.
Proof. induction l; constructor; assumption. Qed.

Lemma subseq_nil_l {A : Type} (l : list A) : subseq [] l.
Proof. induction l; constructor; assumption. Qed.


Lemma subseq_app {A : Type} (l1 l2 l1' l2' : list A) :
  subseq l1 l2 -> subseq l1' l2' -> subseq (l1 ++ l1') (l2 ++ l2').
Proof.
  intros H H'. induction H; simpl; try constructor; assumption.
Qed.



Lemma subseq_In {A : Type} (l1 l2 : list A) (a : A) :
  subseq l1 l2 -> In a l1 -> In a l2.
Proof.
  induction 1 as [| b l1 l2 H IH | b l1 l2 H IH]; simpl; intros Ha.
  - exact Ha.
  - right. apply IH. exact Ha.
  - destruct Ha as [Ha | Ha]; [left; exact Ha | right; apply IH; exact Ha].
Qed.

Lemma subseq_StronglySorted {A : Type} (R : A -> A -> Prop) (l1 l2 : list A) :
  subseq l1 l2 -> StronglySorted R l2 -> StronglySorted R l1.
Proof.
  induction 1 as [| a l1 l2 H IH | a l1 l2 H IH]; intros Hs.
  - exact Hs.
  - inversion Hs; subst. apply IH. assumption.
  - inversion Hs as [| ? ? Hs' Hf]; subst. constructor.
    + apply IH. exact Hs'.
    + apply Forall_forall. intros b Hb.
      apply (proj1 (Forall_forall _ _) Hf). exact (subseq_In _ _ b H Hb).
Qed.


Lemma StronglySorted_impl {A : Type} (R R' : A -> A -> Prop) (l : list A) :
  (forall a b : A, R a b -> R' a b) ->
  StronglySorted R l -> StronglySorted R' l.
Proof.
  intros HR. induction 1 as [| a l Hs IH Hf]; constructor.
  - exact IH.
  - eapply Forall_impl; [| exact Hf]. intros b. apply HR.
Qed.

Lemma StronglySorted_snoc {A : Type} (R : A -> A -> Prop) (l : list A) (a : A) :
  StronglySorted R l -> Forall (fun b => R b a) l ->
  StronglySorted R (l ++ [a]).
Proof.
  induction 1 as [| b l Hs IH Hf]; intros Ha; simpl.
  - constructor; constructor.
  - inversion Ha as [| ? ? Hba Ha']; subst. constructor.
    + apply IH. exact Ha'.
    + apply Forall_app. split; [exact Hf |]. constructor; [exact Hba |].
      constructor.
Qed.

Lemma StronglySorted_rev {A : Type} (R : A -> A -> Prop) (l : list A) :
  StronglySorted R l -> StronglySorted (fun a b => R b a) (rev l).
Proof.
  induction 1 as [| a l Hs IH Hf]; simpl.
  - constructor.
  - apply StronglySorted_snoc; [exact IH |].
    apply Forall_rev. exact Hf.
Qed.

(** ** The two passes of the hull computation *)

Lemma andrew_pop_unfold (k : nat) (b a : point) (y : list point) (p : point) :
  andrew_pop k (b :: a :: y) p =
    if (k <=? length (b :: a :: y))%nat && fle (det a b p) 0
    then andrew_pop k (a :: y) p
    else b :: a :: y.
Proof. reflexivity. Qed.

Lemma left_turns_tail (b : point) (y : list point) :
  left_turns (b :: y) -> left_turns y.
Proof. destruct y as [| a [| a' y]]; simpl; tauto. Qed.

Lemma fle_false_lt (a : R) : fle a 0 = false -> 0 < a.
Proof. unfold fle. destruct (Rle_dec a 0); [discriminate | lra]. Qed.




Lemma lex_le_nonneg (q p : point) : lex_le q p -> lex_nonneg (vsub p q).
Proof. unfold lex_le, lex_nonneg, vsub. simpl. intros [H | [H H']]; lra. Qed.

Lemma lex_le_nonpos (p q : point) : lex_le p q -> lex_nonpos (vsub p q).
Proof. unfold lex_le, lex_nonpos, vsub. simpl. intros [H | [H H']]; lra. Qed.


(** ** The hull computation *)

Lemma do_the_andrew_parkour_sorted_input (x : list point) (n : nat)
  (xs : list point) :
  StronglySorted lex_le xs -> Permutation xs (firstn n x) ->
  do_the_andrew_parkour x n =
    let lower := fold_left (andrew_step 2) xs [] in
    let hull := fold_left (andrew_step (S (length lower))) (tl (rev xs)) lower in
    (Z.of_nat (length hull), rev hull, xs ++ skipn n x).
Proof.
  intros Hs Hp. unfold do_the_andrew_parkour.
  rewrite (qsort_unique (firstn n x) xs Hs Hp). reflexivity.
Qed.



(** C3: for the three collinear points (0,0), (1,0), (2,0), in whatever
    order they are given, the hull is written as (0,0), (2,0), (0,0): its
    points are the two extreme ones, and (1,0) is not among them. *)
Theorem hull_of_collinear_points (x : list point) :
  Permutation x [(0, 0); (1, 0); (2, 0)] ->
  let y := snd (fst (do_the_andrew_parkour x 3)) in
  y = [(0, 0); (2, 0); (0, 0)] /\
  (forall p : point, In p y <-> p = (0, 0) \/ p = (2, 0)) /\
  ~ In (1, 0) y.
Proof.
  intros Hp y.
  assert (E : y = [(0, 0); (2, 0); (0, 0)]).
  { subst y.
    rewrite (do_the_andrew_parkour_sorted_input _ _ [(0, 0); (1, 0); (2, 0)]).
    - cbv zeta. simpl.
      rewrite (fle_true (det (0, 0) (1, 0) (2, 0)))
        by (unfold det; simpl; lra).
      simpl.
      rewrite (fle_true (det (2, 0) (1, 0) (0, 0)))
        by (unfold det; simpl; lra).
      reflexivity.
    - repeat constructor; unfold lex_le; simpl; lra.
    - rewrite firstn_all2.
      + apply Permutation_sym. exact Hp.
      + rewrite (Permutation_length Hp). simpl. lia. }
  rewrite E. split; [reflexivity |]. split.
  - intros p. simpl. split.
    + intros [H | [H | [H | []]]]; auto.
    + intros [H | H]; auto.
  - simpl. intros [H | [H | [H | []]]]; injection H; lra.
Qed.

Lemma hull_of_collinear_points_witness :
  Permutation [(2, 0); (0, 0); (1, 0)] [(0, 0); (1, 0); (2, 0)] /\
  snd (fst (do_the_andrew_parkour [(2, 0); (0, 0); (1, 0)] 3))
    = [(0, 0); (2, 0); (0, 0)].
Proof.
  assert (P : Permutation [(2, 0); (0, 0); (1, 0)] [(0, 0); (1, 0); (2, 0)]).
  { apply Permutation_trans with [(0, 0); (2, 0); (1, 0)].
    - apply perm_swap.
    - apply perm_skip. apply perm_swap. }
  split; [exact P |].
  exact (proj1 (hull_of_collinear_points [(2, 0); (0, 0); (1, 0)] P)).
Defined.

Lemma compute_red_points_convex_hull_y (e : viewer_state.t) :
  y (compute_red_points_convex_hull e) =
    qsort (firstn (Z.to_nat (n e)) (y e)) compare_points_lexicographically
    ++ skipn (Z.to_nat (n e)) (y e).
Proof. reflexivity. Qed.

Lemma firstn_qsort_app (k : nat) (l : list point) :
  firstn k (qsort (firstn k l) compare_points_lexicographically ++ skipn k l)
    = qsort (firstn k l) compare_points_lexicographically /\
  skipn k (qsort (firstn k l) compare_points_lexicographically ++ skipn k l)
    = skipn k l.
Proof.
  pose proof (qsort_length compare_points_lexicographically (firstn k l)) as L.
  rewrite length_firstn in L.
  set (q := qsort (firstn k l) compare_points_lexicographically) in *.
  clearbody q.
  rewrite firstn_app, skipn_app.
  rewrite (firstn_all2 (n := k) q) by lia.
  rewrite (skipn_all2 (n := k) q) by lia.
  destruct (Nat.le_ge_cases k (length l)) as [H | H].
  - replace (k - length q)%nat with 0%nat by lia.
    simpl. rewrite app_nil_r. split; reflexivity.
  - rewrite (skipn_all2 (n := k) l) by lia.
    rewrite firstn_nil, skipn_nil, app_nil_r. split; reflexivity.
Qed.

(** C5, as stated, fails: an array that is not in ascending order is not
    what it was after the hull computation. *)
Lemma hull_input_counterexample :
  let e := set_y [(1, 0); (0, 0)] (userdata (main_pkatz_init [(1, 0); (0, 0)])) in
  y e = [(1, 0); (0, 0)] /\
  y (compute_red_points_convex_hull e) = [(0, 0); (1, 0)] /\
  y (compute_red_points_convex_hull e) <> y e.
Proof.
  cbv zeta.
  assert (E : y (compute_red_points_convex_hull
                   (set_y [(1, 0); (0, 0)]
                      (userdata (main_pkatz_init [(1, 0); (0, 0)]))))
              = [(0, 0); (1, 0)]).
  { rewrite compute_red_points_convex_hull_y.
    change (qsort [(1, 0); (0, 0)] compare_points_lexicographically ++ []
            = [(0, 0); (1, 0)]).
    rewrite (qsort_unique _ [(0, 0); (1, 0)]).
    - reflexivity.
    - repeat constructor. unfold lex_le. simpl. lra.
    - apply perm_swap. }
  split; [reflexivity |]. split; [exact E |].
  rewrite E. simpl. intros H. injection H. lra.
Qed.

(** C5, amended: the hull computation sorts the array of inverted points
    in place.  After it the array holds the same points; its first n points
    are in ascending lexicographic order and the rest is untouched; the
    order is the one before the call exactly when that was ascending
    already. *)
Theorem compute_red_points_convex_hull_sorts_input (e : viewer_state.t) :
  let e' := compute_red_points_convex_hull e in
  let k := Z.to_nat (n e) in
  Permutation (y e') (y e) /\
  StronglySorted lex_le (firstn k (y e')) /\
  skipn k (y e') = skipn k (y e) /\
  (y e' = y e <-> StronglySorted lex_le (firstn k (y e))).
Proof.
  cbv zeta. rewrite compute_red_points_convex_hull_y.
  destruct (firstn_qsort_app (Z.to_nat (n e)) (y e)) as [F S].
  rewrite F, S.
  split; [| split; [| split]].
  - rewrite <- (firstn_skipn (Z.to_nat (n e)) (y e)) at 3.
    apply Permutation_app_tail. apply qsort_Permutation.
  - apply qsort_sorted.
  - reflexivity.
  - split.
    + intros H. rewrite <- H. rewrite F. apply qsort_sorted.
    + intros H. rewrite (qsort_unique _ _ H (Permutation_refl _)).
      apply firstn_skipn.
Qed.

(** ** The hull computation, whatever the tests answer *)

Lemma andrew_pop_by_det (k : nat) (y : list point) (p : point) :
  andrew_pop_by (fun a b p => fle (det a b p) 0) k y p = andrew_pop k y p.
Proof.
  induction y as [| b y IH]; [reflexivity |].
  destruct y as [| a y]; [reflexivity |].
  change (andrew_pop_by (fun a b p => fle (det a b p) 0) k (b :: a :: y) p)
    with (if (k <=? length (b :: a :: y))%nat && fle (det a b p) 0
          then andrew_pop_by (fun a b p => fle (det a b p) 0) k (a :: y) p
          else b :: a :: y).
  change (andrew_pop k (b :: a :: y) p)
    with (if (k <=? length (b :: a :: y))%nat && fle (det a b p) 0
          then andrew_pop k (a :: y) p else b :: a :: y).
  rewrite IH. reflexivity.
Qed.

Lemma fold_andrew_step_by_det (k : nat) (xs y : list point) :
  fold_left (andrew_step_by (fun a b p => fle (det a b p) 0) k) xs y
  = fold_left (andrew_step k) xs y.
Proof.
  revert y. induction xs as [| p xs IH]; intros y; [reflexivity |].
  cbn [fold_left]. unfold andrew_step_by at 2, andrew_step at 2.
  rewrite andrew_pop_by_det. apply IH.
Qed.

Lemma do_the_andrew_parkour_by_det (x : list point) (n : nat) :
  do_the_andrew_parkour_by (fun a b p => fle (det a b p) 0) x n
  = do_the_andrew_parkour x n.
Proof.
  unfold do_the_andrew_parkour_by, do_the_andrew_parkour. cbv zeta.
  rewrite !fold_andrew_step_by_det. reflexivity.
Qed.




(** ** The rounded [det] on grid points *)

Lemma Zabs_mul_le (a b A B : Z) :
  (Z.abs a <= A)%Z -> (Z.abs b <= B)%Z -> (Z.abs (a * b) <= A * B)%Z.
Proof.
  intros Ha Hb. rewrite Z.abs_mul.
  apply Z.mul_le_mono_nonneg; try assumption; apply Z.abs_nonneg.
Qed.

Lemma det_fl_grid (rnd : R -> R) (a b c : point) :
  single rnd -> grid_point a -> grid_point b -> grid_point c ->
  det_fl rnd a b c = det a b c.
Proof.
  intros S (a0 & a1 & -> & A0 & A1) (b0 & b1 & -> & B0 & B1)
    (c0 & c1 & -> & C0 & C1).
  unfold det_fl, det. cbn [fst snd].
  rewrite <- !minus_IZR.
  assert (D1 : (Z.abs (b0 - a0) <= 2048)%Z) by lia.
  assert (D2 : (Z.abs (b1 - a1) <= 2048)%Z) by lia.
  assert (D3 : (Z.abs (c0 - a0) <= 2048)%Z) by lia.
  assert (D4 : (Z.abs (c1 - a1) <= 2048)%Z) by lia.
  rewrite !(single_int rnd S) by lia.
  rewrite <- !mult_IZR.
  pose proof (Zabs_mul_le _ _ _ _ D1 D4) as M1.
  pose proof (Zabs_mul_le _ _ _ _ D2 D3) as M2.
  set (m1 := ((b0 - a0) * (c1 - a1))%Z) in *.
  set (m2 := ((b1 - a1) * (c0 - a0))%Z) in *.
  clearbody m1 m2. clear - S M1 M2.
  rewrite !(single_int rnd S) by lia.
  rewrite <- !minus_IZR.
  rewrite !(single_int rnd S) by lia.
  reflexivity.
Qed.

Lemma andrew_pop_by_ext (t1 t2 : point -> point -> point -> bool)
  (k : nat) (y : list point) (p : point) :
  (forall a b : point, In a y -> In b y -> t1 a b p = t2 a b p) ->
  andrew_pop_by t1 k y p = andrew_pop_by t2 k y p.
Proof.
  induction y as [| b y IH]; intros H; [reflexivity |].
  destruct y as [| a y]; [reflexivity |].
  change (andrew_pop_by t1 k (b :: a :: y) p)
    with (if (k <=? length (b :: a :: y))%nat && t1 a b p
          then andrew_pop_by t1 k (a :: y) p else b :: a :: y).
  change (andrew_pop_by t2 k (b :: a :: y) p)
    with (if (k <=? length (b :: a :: y))%nat && t2 a b p
          then andrew_pop_by t2 k (a :: y) p else b :: a :: y).
  rewrite (H a b) by (simpl; tauto).
  rewrite IH; [reflexivity |].
  intros a' b' Ha Hb. apply H; right; assumption.
Qed.

Lemma andrew_pop_by_incl (turn : point -> point -> point -> bool)
  (k : nat) (y : list point) (p q : point) :
  In q (andrew_pop_by turn k y p) -> In q y.
Proof.
  induction y as [| b y IH]; [simpl; tauto |].
  destruct y as [| a y]; [simpl; tauto |].
  change (andrew_pop_by turn k (b :: a :: y) p)
    with (if (k <=? length (b :: a :: y))%nat && turn a b p
          then andrew_pop_by turn k (a :: y) p else b :: a :: y).
  destruct (_ && _); [| tauto]. intros H. right. apply IH. exact H.
Qed.

Lemma fold_andrew_step_by_ext (t1 t2 : point -> point -> point -> bool)
  (P : point -> Prop) (k : nat) (xs y : list point) :
  (forall a b p : point, P a -> P b -> P p -> t1 a b p = t2 a b p) ->
  Forall P xs -> Forall P y ->
  fold_left (andrew_step_by t1 k) xs y = fold_left (andrew_step_by t2 k) xs y
  /\ Forall P (fold_left (andrew_step_by t2 k) xs y).
Proof.
  intros T. revert y. induction xs as [| p xs IH]; intros y Hx Hy.
  - simpl. split; [reflexivity | exact Hy].
  - apply Forall_cons_iff in Hx. destruct Hx as [Hp Hx].
    rewrite Forall_forall in Hy.
    cbn [fold_left].
    assert (E : andrew_step_by t1 k y p = andrew_step_by t2 k y p).
    { unfold andrew_step_by. f_equal. apply andrew_pop_by_ext.
      intros a b Ha Hb. apply T; auto. }
    rewrite E. apply IH; [exact Hx |].
    unfold andrew_step_by. constructor; [exact Hp |].
    apply Forall_forall. intros q Hq. apply Hy.
    apply andrew_pop_by_incl in Hq. exact Hq.
Qed.

Lemma do_the_andrew_parkour_by_ext (t1 t2 : point -> point -> point -> bool)
  (P : point -> Prop) (x : list point) (n : nat) :
  (forall a b p : point, P a -> P b -> P p -> t1 a b p = t2 a b p) ->
  Forall P (firstn n x) ->
  do_the_andrew_parkour_by t1 x n = do_the_andrew_parkour_by t2 x n.
Proof.
  intros T H. unfold do_the_andrew_parkour_by. cbv zeta.
  set (xs := qsort (firstn n x) compare_points_lexicographically).
  assert (Hxs : Forall P xs).
  { apply Forall_forall. intros q Hq. rewrite Forall_forall in H. apply H.
    apply (Permutation_in q
             (qsort_Permutation compare_points_lexicographically _)).
    exact Hq. }
  destruct (fold_andrew_step_by_ext t1 t2 P 2 xs [] T Hxs (Forall_nil P))
    as [E1 F1].
  rewrite E1.
  set (lower := fold_left (andrew_step_by t2 2) xs []) in *.
  assert (Ht : Forall P (tl (rev xs))).
  { apply Forall_forall. intros q Hq. rewrite Forall_forall in Hxs.
    apply Hxs. apply in_rev. destruct (rev xs); [destruct Hq |].
    right. exact Hq. }
  destruct (fold_andrew_step_by_ext t1 t2 P (S (length lower))
              (tl (rev xs)) lower T Ht F1) as [E2 _].
  rewrite E2. reflexivity.
Qed.

(** On grid points the program computes the hull of exact arithmetic. *)
Lemma do_the_andrew_parkour_fl_grid (rnd : R -> R) (x : list point)
  (n : nat) :
  single rnd -> Forall grid_point (firstn n x) ->
  do_the_andrew_parkour_fl rnd x n = do_the_andrew_parkour x n.
Proof.
  intros S H. rewrite <- do_the_andrew_parkour_by_det.
  unfold do_the_andrew_parkour_fl.
  apply (do_the_andrew_parkour_by_ext _ _ grid_point); [| exact H].
  intros a b p Ha Hb Hp. rewrite (det_fl_grid rnd a b p S Ha Hb Hp).
  reflexivity.
Qed.

(** ** Sessions in which two drags are on at once *)

Lemma hit_point_on_center (f0 : FTR.t) :
  hit_point (userdata (center_view f0)) (IZR 100) (IZR 100) = 0%Z.
Proof.
  unfold hit_point, map_view_to_window. simpl.
  replace (0 + 1 * 100 - 100) with 0 by lra.
  rewrite (proj2 (hypot_zero 0 0) (conj eq_refl eq_refl)).
  rewrite flt_true; [reflexivity |]. unfold DISK_RADIUS. lra.
Qed.

(** The secondary button pressed on the handle, then the primary button
    pressed anywhere, without a key in between: dragging_image_point is
    still set when the second press sets a flag of its own. *)
Lemma two_presses_two_drags (f0 : FTR.t) (x y : Z) :
  FTR_BUTTON_LEFT <> FTR_BUTTON_RIGHT -> FTR_BUTTON_LEFT <> 0%Z ->
  exists f1 f2 : FTR.t,
    event_button (center_view f0) FTR_BUTTON_RIGHT 0 100 100 = Some f1 /\
    event_button f1 FTR_BUTTON_LEFT 0 x y = Some f2 /\
    reachable f2 /\
    drag_count (userdata f2) = 2%Z.
Proof.
  intros HLR HL0.
  assert (R0 : reachable (center_view f0)) by apply reachable_init.
  destruct (reachable_progress _ (Button FTR_BUTTON_RIGHT 0 100 100) R0)
    as (f1 & H1 & R1).
  destruct (reachable_progress _ (Button FTR_BUTTON_LEFT 0 x y) R1)
    as (f2 & H2 & R2).
  exists f1, f2. split; [exact H1 |]. split; [exact H2 |].
  split; [exact R2 |].
  change (event_button (center_view f0) FTR_BUTTON_RIGHT 0 100 100 = Some f1)
    in H1.
  change (event_button f1 FTR_BUTTON_LEFT 0 x y = Some f2) in H2.
  apply event_button_flags in H1. cbv zeta in H1.
  rewrite hit_point_on_center in H1.
  rewrite Z.eqb_refl in H1.
  rewrite (proj2 (Z.eqb_neq FTR_BUTTON_RIGHT FTR_BUTTON_LEFT))
    in H1 by congruence.
  simpl in H1. destruct H1 as (W1 & I1 & B1a & B1b).
  assert (B1 : dragging_background (userdata f1) = false).
  { destruct (FTR_BUTTON_RIGHT =? - FTR_BUTTON_LEFT)%Z; auto. }
  apply event_button_flags in H2. cbv zeta in H2.
  rewrite Z.eqb_refl in H2.
  rewrite (proj2 (Z.eqb_neq FTR_BUTTON_LEFT (- FTR_BUTTON_LEFT)))
    in H2 by lia.
  rewrite W1, I1, B1 in H2. simpl in H2.
  destruct H2 as (W2 & I2 & B2 & _). specialize (B2 eq_refl).
  unfold drag_count. rewrite W2, I2, B2.
  destruct (hit_point_cases (userdata f1) (IZR x) (IZR y)) as [E | E];
    rewrite E; reflexivity.
Qed.

(** ** The hull contains the points *)

Lemma fle_true_le (a : R) : fle a 0 = true -> a <= 0.
Proof. unfold fle. destruct (Rle_dec a 0); [lra | discriminate]. Qed.

Lemma edges_snoc (l : list point) (a b : point) :
  edges (l ++ [a; b]) = edges (l ++ [a]) ++ [(a, b)].
Proof.
  unfold edges. induction l as [| c l IH]; [reflexivity |].
  destruct l as [| d l]; [reflexivity |].
  simpl in *. f_equal. exact IH.
Qed.

Lemma edges_rev (h : list point) (e : point * point) :
  In e (edges (rev h)) <-> In e (stack_edges h).
Proof.
  induction h as [| c h IH]; [simpl; tauto |].
  destruct h as [| b h]; [simpl; tauto |].
  change (rev (c :: b :: h)) with ((rev h ++ [b]) ++ [c]).
  rewrite <- app_assoc. simpl app at 2. rewrite edges_snoc.
  change (rev h ++ [b]) with (rev (b :: h)).
  rewrite in_app_iff, IH. simpl. tauto.
Qed.

Lemma stack_edges_app (l1 l2 : list point) (c : point) :
  stack_edges (l1 ++ c :: l2) = stack_edges (l1 ++ [c]) ++ stack_edges (c :: l2).
Proof.
  induction l1 as [| b l1 IH]; [reflexivity |].
  destruct l1 as [| a l1].
  - reflexivity.
  - change (stack_edges ((b :: a :: l1) ++ c :: l2))
      with ((a, b) :: stack_edges ((a :: l1) ++ c :: l2)).
    rewrite IH. reflexivity.
Qed.

Lemma stack_edges_suffix (l1 l2 : list point) (e : point * point) :
  In e (stack_edges l2) -> In e (stack_edges (l1 ++ l2)).
Proof.
  intros H. destruct l2 as [| c l2]; [destruct H |].
  rewrite stack_edges_app. apply in_or_app. right. exact H.
Qed.

Lemma stack_edges_In (y : list point) (a b : point) :
  In (a, b) (stack_edges y) ->
  exists l1 l2 : list point, y = l1 ++ b :: a :: l2.
Proof.
  induction y as [| c y IH]; [intros [] |].
  destruct y as [| d y]; [intros [] |].
  intros [H | H].
  - injection H as -> ->. exists [], y. reflexivity.
  - destruct (IH H) as (l1 & l2 & E). exists (c :: l1), l2.
    rewrite E. reflexivity.
Qed.

Lemma det_cross_step (a b p : point) :
  det a b p = cross (vsub b a) (vsub p b).
Proof.
  change (@eq R (det a b p) (cross (vsub b a) (vsub p b))).
  unfold det, cross, vsub. simpl. ring.
Qed.

Lemma det_cross_back (b p q : point) :
  det b p q = cross (vsub b q) (vsub p b).
Proof.
  change (@eq R (det b p q) (cross (vsub b q) (vsub p b))).
  unfold det, cross, vsub. simpl. ring.
Qed.

Lemma cross_det_apex (a b q : point) :
  cross (vsub b q) (vsub b a) = det a b q.
Proof. unfold det, cross, vsub. simpl. ring. Qed.

Lemma det_same (b p : point) : det b p p = 0.
Proof. change (@eq R (det b p p) 0). unfold det. simpl. ring. Qed.

(** The inner loop again, with a property [Phi] of the points it has not
    removed: [Phi] holds of what the loop leaves if each removal keeps it. *)
Lemma andrew_pop_above_ind (t : point) (base' : list point) (p : point)
  (Phi : list point -> Prop) (U : list point) :
  Phi U ->
  (forall (b : point) (U' : list point),
      (exists U2 : list point, U = U2 ++ b :: U') ->
      Phi (b :: U') -> det (hd t (U' ++ [t])) b p <= 0 -> Phi U') ->
  exists U1 U2 : list point,
    U = U2 ++ U1 /\
    andrew_pop (S (length (t :: base'))) (U ++ t :: base') p
      = U1 ++ t :: base' /\
    Phi U1 /\
    (left_turns (U ++ [t]) -> left_turns (p :: U1 ++ [t])).
Proof.
  induction U as [| b U IH]; intros HPhi Hstep.
  - exists [], []. split; [reflexivity |]. split; [| split; [exact HPhi |]].
    + simpl app. destruct base' as [| a base']; [reflexivity |].
      rewrite andrew_pop_unfold.
      replace (S (length (t :: a :: base')) <=? length (t :: a :: base'))%nat
        with false by (symmetry; apply Nat.leb_gt; lia).
      reflexivity.
    + intros _. exact I.
  - assert (Hk : (S (length (t :: base')) <=?
                  length ((b :: U) ++ t :: base'))%nat = true).
    { apply Nat.leb_le. rewrite length_app. simpl. lia. }
    assert (Hhd : exists (a : point) (r1 r2 : list point),
               U ++ t :: base' = a :: r1 /\ U ++ [t] = a :: r2 /\
               hd t (U ++ [t]) = a).
    { destruct U as [| a U].
      - exists t, base', []. repeat split.
      - exists a, (U ++ t :: base'), (U ++ [t]). repeat split. }
    destruct Hhd as (a & r1 & r2 & E1 & E2 & E3).
    change ((b :: U) ++ t :: base') with (b :: (U ++ t :: base')) in *.
    rewrite E1. rewrite andrew_pop_unfold. rewrite <- E1. rewrite Hk.
    simpl andb.
    destruct (fle (det a b p) 0) eqn:Hd.
    + assert (HPhi' : Phi U).
      { apply (Hstep b U); [exists []; reflexivity | exact HPhi |].
        rewrite E3. exact (fle_true_le _ Hd). }
      destruct (IH HPhi') as (U1 & U2 & HU & Hpop & HP1 & Hturn).
      { intros b' U' (U3 & E) Hb' Hdet.
        apply (Hstep b' U'); [| exact Hb' | exact Hdet].
        exists (b :: U3). rewrite E. reflexivity. }
      exists U1, (b :: U2). split; [rewrite HU; reflexivity |].
      split; [exact Hpop |]. split; [exact HP1 |].
      intros Ht. apply Hturn. exact (left_turns_tail b _ Ht).
    + exists (b :: U), []. split; [reflexivity |]. split; [reflexivity |].
      split; [exact HPhi |].
      intros Ht. change ((b :: U) ++ [t]) with (b :: (U ++ [t])) in *.
      rewrite E2 in *.
      change (0 < det a b p /\ left_turns (b :: a :: r2)).
      split; [exact (fle_false_lt _ Hd) | exact Ht].
Qed.

Lemma point_eq_dec (a b : point) : a = b \/ a <> b.
Proof.
  destruct a as [a0 a1], b as [b0 b1].
  destruct (Req_dec_T a0 b0) as [-> | H0];
    [destruct (Req_dec_T a1 b1) as [-> | H1] |].
  - left. reflexivity.
  - right. intros E. injection E. exact H1.
  - right. intros E. injection E. intros _. exact H0.
Qed.

(** Among vectors of one half plane, [0 <= cross u v] is transitive across
    a vector that is not zero. *)
Lemma lex_nonneg_weak (t u v : point) :
  lex_nonneg t -> lex_nonneg u -> lex_nonneg v ->
  fst u <> 0 \/ snd u <> 0 ->
  0 <= cross t u -> 0 <= cross u v -> 0 <= cross t v.
Proof.
  unfold lex_nonneg, cross.
  destruct t as [t0 t1], u as [u0 u1], v as [v0 v1]. simpl.
  intros Ht Hu Hv Hnz Htu Huv.
  assert (I : u0 * (t0 * v1 - t1 * v0) =
              t0 * (u0 * v1 - u1 * v0) + v0 * (t0 * u1 - t1 * u0)) by ring.
  assert (Pt : 0 <= t0) by (destruct Ht as [H | [H _]]; lra).
  assert (Pv : 0 <= v0) by (destruct Hv as [H | [H _]]; lra).
  destruct Hu as [Hu | [Hu Hu']].
  - assert (P : 0 <= u0 * (t0 * v1 - t1 * v0)).
    { rewrite I. apply Rplus_le_le_0_compat; apply Rmult_le_pos; lra. }
    nra.
  - subst u0. assert (Pu : 0 < u1) by (destruct Hnz; lra).
    assert (Zv : v0 = 0) by nra. subst v0.
    assert (Pv1 : 0 <= v1) by (destruct Hv as [H | [_ H]]; lra).
    nra.
Qed.

Lemma lex_nonpos_weak (t u v : point) :
  lex_nonpos t -> lex_nonpos u -> lex_nonpos v ->
  fst u <> 0 \/ snd u <> 0 ->
  0 <= cross t u -> 0 <= cross u v -> 0 <= cross t v.
Proof.
  intros Ht Hu Hv Hnz Htu Huv.
  pose (ng := fun p : point => (- fst p, - snd p)).
  assert (N : forall p q : point, cross (ng p) (ng q) = cross p q).
  { intros p q. unfold cross, ng. simpl. ring. }
  assert (M : forall p : point, lex_nonpos p -> lex_nonneg (ng p)).
  { intros p. unfold lex_nonpos, lex_nonneg, ng. simpl.
    intros [H | [H H']]; lra. }
  rewrite <- N. apply lex_nonneg_weak with (ng u); auto.
  - unfold ng. simpl. destruct Hnz; [left | right]; lra.
  - rewrite N. exact Htu.
  - rewrite N. exact Huv.
Qed.

Lemma lex_nonneg_total (a b : point) :
  lex_nonneg (vsub a b) \/ lex_nonneg (vsub b a).
Proof.
  unfold lex_nonneg, vsub. simpl.
  destruct (Rtotal_order (fst a) (fst b)) as [H | [H | H]];
    destruct (Rle_dec (snd a) (snd b)); lra.
Qed.

Lemma lex_nonpos_total (a b : point) :
  lex_nonpos (vsub a b) \/ lex_nonpos (vsub b a).
Proof.
  unfold lex_nonpos, vsub. simpl.
  destruct (Rtotal_order (fst a) (fst b)) as [H | [H | H]];
    destruct (Rle_dec (snd a) (snd b)); lra.
Qed.

Lemma lex_nonneg_antisym (a b : point) :
  lex_nonneg (vsub a b) -> lex_nonneg (vsub b a) -> a = b.
Proof.
  unfold lex_nonneg, vsub. destruct a as [a0 a1], b as [b0 b1]. simpl.
  intros [H | [H H']] [G | [G G']]; try lra. f_equal; lra.
Qed.

Lemma lex_nonpos_antisym (a b : point) :
  lex_nonpos (vsub a b) -> lex_nonpos (vsub b a) -> a = b.
Proof.
  unfold lex_nonpos, vsub. destruct a as [a0 a1], b as [b0 b1]. simpl.
  intros [H | [H H']] [G | [G G']]; try lra. f_equal; lra.
Qed.

Section pass.

Variable side : point -> Prop.
Hypothesis side_trans : forall u v w : point,
  side u -> side v -> side w ->
  0 < cross u v -> 0 < cross v w -> 0 < cross u w.
Hypothesis side_weak : forall t u v : point,
  side t -> side u -> side v -> fst u <> 0 \/ snd u <> 0 ->
  0 <= cross t u -> 0 <= cross u v -> 0 <= cross t v.
Hypothesis side_total : forall a b : point,
  side (vsub a b) \/ side (vsub b a).
Hypothesis side_antisym : forall a b : point,
  side (vsub a b) -> side (vsub b a) -> a = b.

Lemma side_refl (a : point) : side (vsub a a).
Proof. destruct (side_total a a); assumption. Qed.

Lemma vsub_nonzero (a b : point) :
  a <> b -> fst (vsub b a) <> 0 \/ snd (vsub b a) <> 0.
Proof.
  intros H. destruct a as [a0 a1], b as [b0 b1]. unfold vsub. simpl.
  destruct (Req_dec_T a0 b0) as [E0 | E0]; [| left; lra].
  destruct (Req_dec_T a1 b1) as [E1 | E1]; [| right; lra].
  subst. contradiction H. reflexivity.
Qed.

Lemma cross_pos_nonzero (u v : point) :
  0 < cross u v -> fst u <> 0 \/ snd u <> 0.
Proof.
  unfold cross. intros H.
  destruct (Req_dec_T (fst u) 0) as [E0 | E0]; [| left; exact E0].
  destruct (Req_dec_T (snd u) 0) as [E1 | E1]; [| right; exact E1].
  rewrite E0, E1 in H. lra.
Qed.

(** One iteration of a pass keeps [pass_inv]. *)
Lemma pass_step (t : point) (base' : list point) (p : point)
  (U P : list point) :
  pass_inv side t (U ++ [t]) P ->
  (forall q : point, In q P -> side (vsub p q)) ->
  exists U1 : list point,
    andrew_step (S (length (t :: base'))) (U ++ t :: base') p
      = p :: U1 ++ t :: base' /\
    pass_inv side t (p :: U1 ++ [t]) (p :: P).
Proof.
  intros (Hc & He & Htop & Hbot & Hin) Hp.
  pose (Phi := fun U' : list point =>
                 forall q : point,
                   In q P -> side (vsub q (hd t (U' ++ [t]))) ->
                   0 <= det (hd t (U' ++ [t])) p q).
  assert (Det0 : forall a : point, det a p a = 0).
  { intros a. change (@eq R (det a p a) 0). unfold det. simpl. ring. }
  assert (HPhi : Phi U).
  { intros q Hq Hs.
    rewrite (side_antisym q (hd t (U ++ [t])) Hs (Htop q Hq)).
    rewrite Det0. lra. }
  destruct (andrew_pop_above_ind t base' p Phi U HPhi)
    as (U1 & U2 & HU & Hpop & HP1 & Hturn).
  { intros b U' (U3 & E) Hb Hdet q Hq Hs.
    set (a := hd t (U' ++ [t])) in *.
    assert (Eab : In (a, b) (stack_edges (U ++ [t]))).
    { rewrite E. rewrite <- app_assoc. apply stack_edges_suffix.
      subst a. destruct U' as [| a' U']; simpl; left; reflexivity. }
    assert (Sab : side (vsub b a)).
    { destruct (stack_edges_In _ _ _ Eab) as (l1 & l2 & E').
      destruct Hc as [Hs' _]. rewrite E' in Hs'.
      apply StronglySorted_app_r in Hs'.
      inversion Hs' as [| ? ? _ Hf]; subst.
      inversion Hf; assumption. }
    destruct (point_eq_dec a b) as [Eq | Ne].
    - rewrite Eq. apply Hb; [exact Hq |]. simpl hd. rewrite <- Eq. exact Hs.
    - assert (Ia : In a P).
      { apply Hin. destruct (stack_edges_In _ _ _ Eab) as (l1 & l2 & E').
        rewrite E'. apply in_or_app. right. right. left. reflexivity. }
      assert (G : 0 <= cross (vsub p a) (vsub q a)).
      { apply side_weak with (vsub b a).
        - apply Hp. exact Ia.
        - exact Sab.
        - exact Hs.
        - apply vsub_nonzero. exact Ne.
        - replace (cross (vsub p a) (vsub b a)) with (- det a b p)
            by (unfold det, cross, vsub; simpl; ring).
          lra.
        - replace (cross (vsub b a) (vsub q a)) with (det a b q)
            by reflexivity.
          apply He; assumption. }
      replace (det a p q) with (cross (vsub p a) (vsub q a)) by reflexivity.
      exact G. }
  exists U1. unfold andrew_step. rewrite Hpop. split; [reflexivity |].
  destruct Hc as [Hs Ht].
  assert (Hs1 : StronglySorted (fun a b => side (vsub a b)) (U1 ++ [t])).
  { rewrite HU in Hs. rewrite <- app_assoc in Hs.
    exact (StronglySorted_app_r _ _ _ Hs). }
  assert (Hin1 : forall a : point, In a (U1 ++ [t]) -> In a P).
  { intros a Ha. apply Hin. rewrite HU, <- app_assoc.
    apply in_or_app. right. exact Ha. }
  assert (Hc1 : chain side (p :: U1 ++ [t])).
  { split; [| exact (Hturn Ht)].
    constructor; [exact Hs1 |].
    apply Forall_forall. intros a Ha. apply Hp. apply Hin1. exact Ha. }
  split; [exact Hc1 |]. split; [| split; [| split]].
  - (* the sides *)
    assert (Old : forall q a b : point,
               In (a, b) (stack_edges (U1 ++ [t])) ->
               In q P -> 0 <= det a b q).
    { intros q a b Hab' Hq'. apply He; [exact Hq' |].
      rewrite HU, <- app_assoc. apply stack_edges_suffix. exact Hab'. }
    assert (Oldp : forall a b : point,
               In (a, b) (stack_edges (U1 ++ [t])) -> 0 <= det a b p).
    { intros a b Hab'. destruct (stack_edges_In _ _ _ Hab') as (l1 & l2 & E').
      rewrite E' in Hc1.
      pose proof (chain_inner side side_trans p l1 (a :: l2) b a Hc1
                    (or_introl eq_refl)) as G.
      rewrite det_cross_step. lra. }
    assert (Hstop : forall b' a' rest,
               U1 ++ [t] = b' :: a' :: rest -> 0 < det a' b' p).
    { intros b' a' rest E'. destruct Hc1 as [_ Ht1]. rewrite E' in Ht1.
      exact (proj1 Ht1). }
    assert (New : forall q : point,
               In q P -> 0 <= det (hd t (U1 ++ [t])) p q).
    { intros q Hq'.
      destruct (side_total q (hd t (U1 ++ [t]))) as [Hge | Hle].
      - apply HP1; assumption.
      - destruct (U1 ++ [t]) as [| b' [| a' rest]] eqn:EU.
        + destruct U1; discriminate.
        + (* the chain is the point t alone *)
          assert (Et : b' = t).
          { destruct U1 as [| ? [| ? ?]]; simpl in EU; try discriminate.
            injection EU as ->. reflexivity. }
          subst b'. simpl hd in *.
          rewrite (side_antisym q t (Hbot q Hq') Hle). rewrite Det0. lra.
        + simpl hd in *.
          pose proof (Hstop b' a' rest eq_refl) as Hd.
          assert (Sab : side (vsub b' a')).
          { inversion Hs1 as [| ? ? _ Hf]; subst.
            inversion Hf; assumption. }
          assert (Hq2 : 0 <= det a' b' q).
          { apply Old; [| exact Hq']. simpl. left. reflexivity. }
          assert (G : 0 <= cross (vsub b' q) (vsub p b')).
          { apply side_weak with (vsub b' a').
            - exact Hle.
            - exact Sab.
            - apply Hp. apply Hin1. left. reflexivity.
            - apply cross_pos_nonzero with (vsub p b').
              rewrite <- det_cross_step. exact Hd.
            - rewrite cross_det_apex. exact Hq2.
            - rewrite <- det_cross_step. lra. }
          rewrite det_cross_back. exact G. }
    intros q a b Hq Hab.
    destruct (U1 ++ [t]) as [| b' rest] eqn:EU; [destruct U1; discriminate |].
    change (stack_edges (p :: b' :: rest))
      with ((b', p) :: stack_edges (b' :: rest)) in Hab.
    simpl hd in New.
    destruct Hab as [Hab | Hab].
    + injection Hab as <- <-.
      destruct Hq as [<- | Hq].
      * rewrite det_same. lra.
      * apply New. exact Hq.
    + destruct Hq as [<- | Hq]; [apply Oldp | apply Old]; assumption.
  - intros q [<- | Hq]; simpl hd; [apply side_refl | apply Hp; exact Hq].
  - intros q [<- | Hq]; [| apply Hbot; exact Hq].
    apply Hp. apply Hin1. apply in_or_app. right. left. reflexivity.
  - intros a [<- | Ha]; [left; reflexivity | right; apply Hin1; exact Ha].
Qed.

Lemma pass_inv_start (t : point) : pass_inv side t [t] [t].
Proof.
  split; [split; [repeat constructor | exact I] |].
  split; [intros q a b _ [] |]. split; [| split].
  - intros q [<- | []]. apply side_refl.
  - intros q [<- | []]. apply side_refl.
  - intros a Ha. exact Ha.
Qed.

(** A pass over the points [ps], each farther to the [side] than the one
    before, keeps [pass_inv]. *)
Lemma pass_fold (t : point) (base' : list point) (ps : list point) :
  forall U P : list point,
    pass_inv side t (U ++ [t]) P ->
    StronglySorted (fun a b => side (vsub b a)) ps ->
    (forall p q : point, In p ps -> In q P -> side (vsub p q)) ->
    exists U' : list point,
      fold_left (andrew_step (S (length (t :: base')))) ps (U ++ t :: base')
        = U' ++ t :: base' /\
      pass_inv side t (U' ++ [t]) (rev ps ++ P).
Proof.
  induction ps as [| p ps IH]; intros U P HI Hs Hp.
  - exists U. split; [reflexivity | exact HI].
  - destruct (pass_step t base' p U P HI) as (U1 & E & HI1).
    { intros q Hq. apply Hp; [left; reflexivity | exact Hq]. }
    cbn [fold_left]. rewrite E.
    inversion Hs as [| ? ? Hs' Hf]; subst.
    destruct (IH (p :: U1) (p :: P) HI1 Hs') as (U' & E' & HI').
    { intros p' q Hp' [<- | Hq].
      - exact (proj1 (Forall_forall _ _) Hf p' Hp').
      - apply Hp; [right; exact Hp' | exact Hq]. }
    exists U'. split; [exact E' |].
    simpl rev. rewrite <- app_assoc. exact HI'.
Qed.

(** The same, with the last point of the pass on top. *)
Lemma pass_fold_last (t : point) (base' : list point) (ps : list point)
  (p : point) :
  StronglySorted (fun a b => side (vsub b a)) (ps ++ [p]) ->
  (forall q : point, In q (ps ++ [p]) -> side (vsub q t)) ->
  exists V : list point,
    fold_left (andrew_step (S (length (t :: base')))) (ps ++ [p]) (t :: base')
      = p :: V ++ t :: base' /\
    pass_inv side t (p :: V ++ [t]) (p :: rev ps ++ [t]).
Proof.
  intros Hs Ht.
  assert (Hs1 : StronglySorted (fun a b => side (vsub b a)) ps).
  { apply (subseq_StronglySorted _ ps (ps ++ [p])); [| exact Hs].
    rewrite <- (app_nil_r ps) at 1.
    apply subseq_app; [apply subseq_refl | apply subseq_nil_l]. }
  destruct (pass_fold t base' ps [] [t] (pass_inv_start t) Hs1)
    as (U' & E & HI).
  { intros q q' Hq [<- | []]. apply Ht. apply in_or_app. left. exact Hq. }
  destruct (pass_step t base' p U' (rev ps ++ [t]) HI) as (V & E' & HI').
  { intros q Hq. apply in_app_or in Hq. destruct Hq as [Hq | [<- | []]].
    - apply in_rev in Hq. apply in_split in Hq.
      destruct Hq as (l1 & l2 & ->).
      rewrite <- app_assoc in Hs. apply StronglySorted_app_r in Hs.
      inversion Hs as [| ? ? _ Hf]; subst.
      apply (proj1 (Forall_forall _ _) Hf). apply in_or_app. right.
      left. reflexivity.
    - apply Ht. apply in_or_app. right. left. reflexivity. }
  exists V. rewrite fold_left_app. simpl app in E. rewrite E.
  cbn [fold_left]. split; [exact E' | exact HI'].
Qed.

End pass.

(** The hull of two or more points in ascending order:
    the lower chain from [x0] to [xl], then the upper chain back to [x0]. *)
Lemma andrew_hull_shape (x0 xl : point) (mid : list point) :
  StronglySorted lex_le (x0 :: mid ++ [xl]) ->
  exists V W : list point,
    fold_left (andrew_step 2) (x0 :: mid ++ [xl]) [] = xl :: V ++ [x0] /\
    fold_left (andrew_step (S (length (xl :: V ++ [x0]))))
      (tl (rev (x0 :: mid ++ [xl]))) (xl :: V ++ [x0])
      = x0 :: W ++ xl :: V ++ [x0] /\
    pass_inv lex_nonneg x0 (xl :: V ++ [x0]) (xl :: rev mid ++ [x0]) /\
    pass_inv lex_nonpos xl (x0 :: W ++ [xl]) (x0 :: mid ++ [xl]).
Proof.
  intros Hs.
  assert (Hs' : StronglySorted lex_le (mid ++ [xl]) /\
                Forall (lex_le x0) (mid ++ [xl])).
  { inversion Hs; subst. split; assumption. }
  destruct Hs' as [Hs1 Hf1].
  destruct (pass_fold_last lex_nonneg lex_nonneg_trans lex_nonneg_weak
              lex_nonneg_total lex_nonneg_antisym x0 [] mid xl)
    as (V & EV & IV).
  { apply StronglySorted_impl with (R := lex_le); [| exact Hs1].
    intros a b. apply lex_le_nonneg. }
  { intros q Hq. apply lex_le_nonneg.
    exact (proj1 (Forall_forall _ _) Hf1 q Hq). }
  assert (Srev : StronglySorted (fun p q => lex_le q p)
                   (xl :: rev mid ++ [x0])).
  { apply StronglySorted_rev in Hs. simpl in Hs.
    rewrite rev_app_distr in Hs. simpl in Hs. exact Hs. }
  destruct (pass_fold_last lex_nonpos lex_nonpos_trans lex_nonpos_weak
              lex_nonpos_total lex_nonpos_antisym xl (V ++ [x0]) (rev mid) x0)
    as (W & EW & IW).
  { inversion Srev as [| ? ? Hs2 _]; subst.
    apply StronglySorted_impl with (R := fun p q => lex_le q p);
      [| exact Hs2].
    intros a b. apply lex_le_nonpos. }
  { intros q Hq. apply lex_le_nonpos.
    inversion Srev as [| ? ? _ Hf2]; subst.
    exact (proj1 (Forall_forall _ _) Hf2 q Hq). }
  exists V, W.
  assert (L0 : fold_left (andrew_step 2) (x0 :: mid ++ [xl]) [] =
               fold_left (andrew_step (S (length [x0]))) (mid ++ [xl]) [x0])
    by reflexivity.
  rewrite L0, EV. split; [reflexivity |].
  assert (R0 : tl (rev (x0 :: mid ++ [xl])) = rev mid ++ [x0]).
  { simpl. rewrite rev_app_distr. reflexivity. }
  rewrite R0. simpl app in EW. split; [exact EW |].
  split; [exact IV |]. rewrite rev_involutive in IW. exact IW.
Qed.

(** The three shapes of the result of [do_the_andrew_parkour]. *)
Lemma do_the_andrew_parkour_cases (x : list point) (n : nat) :
  let xs := qsort (firstn n x) compare_points_lexicographically in
  let y := snd (fst (do_the_andrew_parkour x n)) in
  (xs = [] /\ y = []) \/
  (exists x0 : point, xs = [x0] /\ y = [x0]) \/
  (exists (x0 xl : point) (mid V W : list point),
      xs = x0 :: mid ++ [xl] /\
      y = x0 :: rev V ++ xl :: rev W ++ [x0] /\
      pass_inv lex_nonneg x0 (xl :: V ++ [x0]) (xl :: rev mid ++ [x0]) /\
      pass_inv lex_nonpos xl (x0 :: W ++ [xl]) (x0 :: mid ++ [xl])).
Proof.
  cbv zeta. unfold do_the_andrew_parkour. cbv zeta. simpl fst. simpl snd.
  pose proof (qsort_sorted (firstn n x)) as Hs.
  destruct (qsort (firstn n x) compare_points_lexicographically)
    as [| x0 rest] eqn:E.
  - left. split; reflexivity.
  - right.
    destruct (exists_last (l := x0 :: rest)) as (front & xl & E');
      [discriminate |].
    destruct front as [| x0' mid].
    + simpl in E'. injection E' as -> ->. left. exists xl.
      split; reflexivity.
    + simpl in E'. injection E' as <- ->. right.
      destruct (andrew_hull_shape x0 xl mid Hs) as (V & W & EL & EH & IV & IW).
      exists x0, xl, mid, V, W. split; [reflexivity |].
      rewrite EL, EH. split; [| split; assumption].
      simpl rev. rewrite !rev_app_distr. simpl. rewrite !rev_app_distr.
      simpl. rewrite <- !app_assoc. reflexivity.
Qed.

Lemma In_qsort (x : list point) (p : point) :
  In p (qsort x compare_points_lexicographically) <-> In p x.
Proof.
  split; apply Permutation_in;
    [| apply Permutation_sym]; apply qsort_Permutation.
Qed.

Lemma hull_In (x : list point) (n : nat) (p : point) :
  In p (snd (fst (do_the_andrew_parkour x n))) -> In p (firstn n x).
Proof.
  intros Hp. apply In_qsort.
  destruct (do_the_andrew_parkour_cases x n)
    as [[E Ey] | [(x0 & E & Ey) | (x0 & xl & mid & V & W & E & Ey & IV & IW)]];
    rewrite Ey in Hp; rewrite E.
  - destruct Hp.
  - exact Hp.
  - destruct IV as (_ & _ & _ & _ & InV). destruct IW as (_ & _ & _ & _ & InW).
    assert (HV : forall a, In a (rev V) -> In a (x0 :: mid ++ [xl])).
    { intros a Ha. apply in_rev in Ha.
      assert (I1 : In a (xl :: V ++ [x0]))
        by (right; apply in_or_app; left; exact Ha).
      apply InV in I1. destruct I1 as [<- | I1].
      - right. apply in_or_app. right. left. reflexivity.
      - apply in_app_or in I1. destruct I1 as [I1 | [<- | []]].
        + right. apply in_or_app. left. apply in_rev. exact I1.
        + left. reflexivity. }
    assert (HW : forall a, In a (rev W) -> In a (x0 :: mid ++ [xl])).
    { intros a Ha. apply in_rev in Ha. apply InW.
      right. apply in_or_app. left. exact Ha. }
    destruct Hp as [<- | Hp]; [left; reflexivity |].
    apply in_app_or in Hp. destruct Hp as [Hp | [<- | Hp]].
    + apply HV. exact Hp.
    + right. apply in_or_app. right. left. reflexivity.
    + apply in_app_or in Hp. destruct Hp as [Hp | [<- | []]].
      * apply HW. exact Hp.
      * left. reflexivity.
Qed.

(** X1: every point that [do_the_andrew_parkour] writes to the hull is
    one of the first [n] points of its input. *)
Theorem hull_points_are_input_points (x : list point) (n : nat) (p : point) :
  In p (snd (fst (do_the_andrew_parkour x n))) -> In p (firstn n x).
Proof. exact (hull_In x n p). Qed.

Lemma hull_stack_rev (x0 xl : point) (V W : list point) :
  x0 :: rev V ++ xl :: rev W ++ [x0] = rev ((x0 :: W) ++ xl :: V ++ [x0]).
Proof.
  simpl rev. rewrite !rev_app_distr. simpl. rewrite !rev_app_distr.
  simpl. rewrite <- !app_assoc. reflexivity.
Qed.

Lemma In_ends (x0 xl q : point) (mid : list point) :
  In q (x0 :: mid ++ [xl]) <-> In q (xl :: rev mid ++ [x0]).
Proof.
  simpl. rewrite !in_app_iff, <- in_rev. simpl. tauto.
Qed.

(** In exact arithmetic every one of the first [n] input points is on or to
    the left of every side of the hull. *)
Lemma hull_contains_input_exact (x : list point) (n : nat) (a b q : point) :
  In (a, b) (edges (snd (fst (do_the_andrew_parkour x n)))) ->
  In q (firstn n x) ->
  0 <= det a b q.
Proof.
  intros He Hq. apply In_qsort in Hq.
  destruct (do_the_andrew_parkour_cases x n)
    as [[E Ey] | [(x0 & E & Ey) | (x0 & xl & mid & V & W & E & Ey & IV & IW)]];
    rewrite Ey in He; rewrite E in Hq.
  - destruct He.
  - destruct He.
  - rewrite hull_stack_rev in He. apply edges_rev in He.
    rewrite stack_edges_app in He. apply in_app_or in He.
    destruct IV as (_ & CV & _). destruct IW as (_ & CW & _).
    destruct He as [He | He].
    + exact (CW q a b Hq He).
    + apply In_ends in Hq. exact (CV q a b Hq He).
Qed.

Lemma left_turns_glue (l1 l2 : list point) (b : point) :
  left_turns (l1 ++ [b]) -> left_turns (b :: l2) ->
  (forall (l1' : list point) (c a : point) (l2' : list point),
      l1 = l1' ++ [c] -> l2 = a :: l2' -> 0 < det a b c) ->
  left_turns (l1 ++ b :: l2).
Proof.
  induction l1 as [| c l1 IH]; intros H1 H2 HJ; [exact H2 |].
  assert (HJ' : forall (l1' : list point) (c0 a : point) (l2' : list point),
             l1 = l1' ++ [c0] -> l2 = a :: l2' -> 0 < det a b c0).
  { intros l1' c0 a l2' -> ->. apply (HJ (c :: l1') c0 a l2'); reflexivity. }
  pose proof (IH (left_turns_tail _ _ H1) H2 HJ') as G.
  destruct l1 as [| c' l1].
  - destruct l2 as [| a l2]; [exact I |].
    split; [| exact H2]. apply (HJ [] c a l2); reflexivity.
  - destruct l1 as [| d l1].
    + simpl in H1 |- *. split; [tauto | exact G].
    + simpl in H1 |- *. split; [tauto | exact G].
Qed.

Lemma convex_path_snoc (l : list point) (a b c : point) :
  convex_path (l ++ [a; b]) -> 0 < det a b c ->
  convex_path (l ++ [a; b; c]).
Proof.
  intros H Hd. induction l as [| d l IH]; [simpl; tauto |].
  destruct l as [| e l].
  - simpl in H |- *. tauto.
  - destruct l as [| f l].
    + simpl in H, IH |- *. tauto.
    + change (0 < det d e f /\ convex_path ((e :: f :: l) ++ [a; b])) in H.
      change (0 < det d e f /\ convex_path ((e :: f :: l) ++ [a; b; c])).
      split; [tauto | apply IH; tauto].
Qed.

Lemma left_turns_convex_path (h : list point) :
  left_turns h -> convex_path (rev h).
Proof.
  induction h as [| c h IH]; [intros; exact I |].
  intros H. pose proof (IH (left_turns_tail _ _ H)) as G.
  destruct h as [| b [| a h]]; [exact I | exact I |].
  change (rev (c :: b :: a :: h)) with (((rev h ++ [a]) ++ [b]) ++ [c]).
  change (rev (b :: a :: h)) with ((rev h ++ [a]) ++ [b]) in G.
  rewrite <- !app_assoc in *. simpl app in *.
  apply convex_path_snoc; [exact G |]. destruct H as [H _]. exact H.
Qed.

Lemma det_swap (a b c : point) : det b a c = - det a b c.
Proof.
  change (@eq R (det b a c) (- det a b c)). unfold det. simpl. ring.
Qed.

Lemma det_cycle (a b c : point) : det b c a = det a b c.
Proof.
  change (@eq R (det b c a) (det a b c)). unfold det. simpl. ring.
Qed.

Lemma det_cross_apex (a b c : point) :
  det a b c = cross (vsub b c) (vsub b a).
Proof.
  change (@eq R (det a b c) (cross (vsub b c) (vsub b a))).
  unfold det, cross, vsub. simpl. ring.
Qed.

(** Where a chain on one [side] meets the chain that comes back, the turn is
    a left turn as well. *)
Lemma junction_turn (side : point -> Prop)
    (side_trans : forall u v w : point, side u -> side v -> side w ->
                    0 < cross u v -> 0 < cross v w -> 0 < cross u w)
    (x0 xl v w : point) :
  side (vsub xl x0) -> side (vsub xl v) -> side (vsub xl w) ->
  det x0 xl v < 0 -> det xl x0 w < 0 -> 0 < det v xl w.
Proof.
  intros S0 Sv Sw Hv Hw. rewrite det_cross_apex.
  apply (side_trans (vsub xl w) (vsub xl x0) (vsub xl v) Sw S0 Sv).
  - rewrite <- det_cross_apex. rewrite det_swap in Hw. lra.
  - rewrite <- det_cross_apex. rewrite <- (det_cycle x0 xl v) in Hv.
    rewrite det_swap in Hv. lra.
Qed.

Lemma do_the_andrew_parkour_r (x : list point) (n : nat) :
  fst (fst (do_the_andrew_parkour x n))
    = Z.of_nat (length (snd (fst (do_the_andrew_parkour x n)))).
Proof.
  unfold do_the_andrew_parkour. cbv zeta. simpl fst. simpl snd.
  rewrite length_rev. reflexivity.
Qed.

Lemma last_of_cons (x0 c : point) (W l : list point) :
  x0 :: W = l ++ [c] -> (W = [] /\ c = x0) \/ In c W.
Proof.
  destruct l as [| d l]; simpl; intros H; injection H as -> ->.
  - left. split; reflexivity.
  - right. apply in_or_app. right. left. reflexivity.
Qed.

Lemma first_of_snoc (x0 a : point) (V l : list point) :
  V ++ [x0] = a :: l -> (V = [] /\ a = x0) \/ In a V.
Proof.
  destruct V as [| v V]; simpl; intros H; injection H as H1 H2; subst.
  - left. split; reflexivity.
  - right. left. reflexivity.
Qed.

(** In exact arithmetic a hull of four or more entries turns strictly to
    the left at every one of its corners, the first point included. *)
Lemma hull_turns_left_exact (x : list point) (n : nat) :
  (4 <= fst (fst (do_the_andrew_parkour x n)))%Z ->
  convex_path (snd (fst (do_the_andrew_parkour x n))
                 ++ firstn 1 (tl (snd (fst (do_the_andrew_parkour x n))))).
Proof.
  intros Hr. rewrite do_the_andrew_parkour_r in Hr.
  destruct (do_the_andrew_parkour_cases x n)
    as [[E Ey] | [(x0 & E & Ey) | (x0 & xl & mid & V & W & E & Ey & IV & IW)]];
    rewrite Ey in Hr |- *; [simpl in Hr; lia | simpl in Hr; lia |].
  clear E Ey.
  assert (Hlen : (1 <= length V + length W)%nat).
  { simpl in Hr. rewrite !length_app in Hr. simpl in Hr.
    rewrite !length_app in Hr. simpl in Hr. rewrite !length_rev in Hr. lia. }
  clear Hr.
  destruct IV as (CV & _ & SV & _ & MV). destruct IW as (CW & _ & SW & _ & MW).
  simpl hd in SV, SW.
  assert (FV : forall v : point, In v V -> det x0 xl v < 0).
  { intros v Hv.
    exact (chain_inner_det lex_nonneg lex_nonneg_trans xl V v x0 CV Hv). }
  assert (FW : forall w : point, In w W -> det xl x0 w < 0).
  { intros w Hw.
    exact (chain_inner_det lex_nonpos lex_nonpos_trans x0 W w xl CW Hw). }
  assert (PV : forall v : point, In v V -> In v (xl :: rev mid ++ [x0])).
  { intros v Hv. apply MV. right. apply in_or_app. left. exact Hv. }
  assert (PW : forall w : point, In w W -> In w (x0 :: mid ++ [xl])).
  { intros w Hw. apply MW. right. apply in_or_app. left. exact Hw. }
  assert (P0 : In x0 (xl :: rev mid ++ [x0])).
  { right. apply in_or_app. right. left. reflexivity. }
  assert (Pl : In xl (x0 :: mid ++ [xl])).
  { right. apply in_or_app. right. left. reflexivity. }
  assert (J1 : forall v w : point, In v V -> In w W -> 0 < det v xl w).
  { intros v w Hv Hw.
    apply (junction_turn lex_nonneg lex_nonneg_trans x0 xl v w).
    - apply SV, P0.
    - apply SV, PV, Hv.
    - apply SV, (proj1 (In_ends x0 xl w mid)), PW, Hw.
    - apply FV, Hv.
    - apply FW, Hw. }
  assert (J2 : forall v w : point, In v V -> In w W -> 0 < det w x0 v).
  { intros v w Hv Hw.
    apply (junction_turn lex_nonpos lex_nonpos_trans xl x0 w v).
    - apply SW, Pl.
    - apply SW, PW, Hw.
    - apply SW, (proj2 (In_ends x0 xl v mid)), PV, Hv.
    - apply FW, Hw.
    - apply FV, Hv. }
  assert (K1 : forall v : point, In v V -> 0 < det v xl x0 /\ 0 < det xl x0 v).
  { intros v Hv. pose proof (FV v Hv) as G.
    rewrite (det_cycle x0 v xl), (det_cycle xl x0 v), (det_swap x0 xl v).
    lra. }
  assert (K2 : forall w : point, In w W -> 0 < det x0 xl w /\ 0 < det w x0 xl).
  { intros w Hw. pose proof (FW w Hw) as G.
    rewrite (det_cycle xl w x0), (det_cycle x0 xl w), (det_swap xl x0 w).
    lra. }
  assert (T : left_turns ((x0 :: W) ++ xl :: V ++ [x0])).
  { apply left_turns_glue.
    - exact (proj2 CW).
    - exact (proj2 CV).
    - intros l1' c a l2' E1 E2.
      apply last_of_cons in E1. apply first_of_snoc in E2.
      destruct E1 as [[-> ->] | Hc], E2 as [[-> ->] | Ha].
      + simpl in Hlen. lia.
      + apply K1, Ha.
      + apply K2, Hc.
      + apply J1; assumption. }
  apply left_turns_convex_path in T. rewrite <- hull_stack_rev in T.
  assert (Vc : forall v RV, rev V = v :: RV -> In v V).
  { intros v RV EV. apply in_rev. rewrite EV. left. reflexivity. }
  destruct W as [| w W'].
  - destruct (rev V) as [| v RV] eqn:EV.
    + apply (f_equal (@length point)) in EV. rewrite length_rev in EV.
      simpl in EV, Hlen. lia.
    + change (convex_path (((x0 :: v :: RV) ++ [xl; x0]) ++ [v])).
      change (convex_path ((x0 :: v :: RV) ++ [xl; x0])) in T.
      rewrite <- app_assoc.
      apply convex_path_snoc; [exact T |].
      apply K1. exact (Vc v RV eq_refl).
  - assert (Hw : In w (w :: W')) by (left; reflexivity).
    assert (Ey : forall RV : list point,
               x0 :: RV ++ xl :: rev (w :: W') ++ [x0]
               = (x0 :: RV ++ xl :: rev W') ++ [w; x0]).
    { intros RV. simpl. rewrite <- !app_assoc. reflexivity. }
    rewrite Ey in T |- *.
    destruct (rev V) as [| v RV] eqn:EV.
    + simpl tl. simpl firstn.
      rewrite <- app_assoc. apply convex_path_snoc; [exact T |].
      apply K2. exact Hw.
    + simpl tl. simpl firstn.
      rewrite <- app_assoc. apply convex_path_snoc; [exact T |].
      apply J2; [exact (Vc v RV eq_refl) | exact Hw].
Qed.

Lemma In_sorted_ends (x0 xl q : point) (mid : list point) :
  StronglySorted lex_le (x0 :: mid ++ [xl]) ->
  In q (x0 :: mid ++ [xl]) -> lex_le x0 q /\ lex_le q xl.
Proof.
  intros Hs Hq. split.
  - destruct Hq as [<- | Hq]; [apply lex_le_refl |].
    inversion Hs as [| ? ? _ Hf]; subst.
    exact (proj1 (Forall_forall _ _) Hf q Hq).
  - apply StronglySorted_rev in Hs. simpl in Hs.
    rewrite rev_app_distr in Hs. simpl in Hs.
    apply (proj1 (In_ends x0 xl q mid)) in Hq.
    destruct Hq as [<- | Hq]; [apply lex_le_refl |].
    inversion Hs as [| ? ? _ Hf]; subst.
    exact (proj1 (Forall_forall _ _) Hf q Hq).
Qed.

(** X4: with two or more points to go through, the hull starts at the
    lexicographically smallest of them, passes through the largest, and ends
    where it started: its first and its last entry are the same point, and
    the count that is returned is 3 or more. *)
Theorem hull_through_extremes (x : list point) (n : nat) :
  (2 <= length (firstn n x))%nat ->
  (3 <= fst (fst (do_the_andrew_parkour x n)))%Z /\
  exists (x0 xl : point) (A B : list point),
    snd (fst (do_the_andrew_parkour x n)) = x0 :: A ++ xl :: B ++ [x0] /\
    In x0 (firstn n x) /\ In xl (firstn n x) /\
    forall q : point, In q (firstn n x) -> lex_le x0 q /\ lex_le q xl.
Proof.
  intros Hn. rewrite do_the_andrew_parkour_r.
  pose proof (qsort_sorted (firstn n x)) as Hs.
  pose proof (qsort_length compare_points_lexicographically (firstn n x)) as Hl.
  destruct (do_the_andrew_parkour_cases x n)
    as [[E Ey] | [(x0 & E & Ey) | (x0 & xl & mid & V & W & E & Ey & _ & _)]];
    rewrite E in Hs, Hl; [simpl in Hl; lia | simpl in Hl; lia |].
  split.
  { rewrite Ey. simpl length. rewrite !length_app. simpl length.
    rewrite !length_app. simpl length. lia. }
  exists x0, xl, (rev V), (rev W). split; [exact Ey |].
  assert (I0 : In x0 (firstn n x)).
  { apply In_qsort. rewrite E. left. reflexivity. }
  assert (Il : In xl (firstn n x)).
  { apply In_qsort. rewrite E. right. apply in_or_app. right. left.
    reflexivity. }
  split; [exact I0 |]. split; [exact Il |].
  intros q Hq. apply In_qsort in Hq. rewrite E in Hq.
  exact (In_sorted_ends x0 xl q mid Hs Hq).
Qed.

(** The hull of the triangle (0,0), (2,0), (1,1). *)
Lemma triangle_hull :
  do_the_andrew_parkour [(0, 0); (2, 0); (1, 1)] 3
    = (4%Z, [(0, 0); (2, 0); (1, 1); (0, 0)], [(0, 0); (1, 1); (2, 0)]).
Proof.
  rewrite (do_the_andrew_parkour_sorted_input _ _ [(0, 0); (1, 1); (2, 0)]).
  - cbv zeta. simpl.
    rewrite (fle_true (det (0, 0) (1, 1) (2, 0)))
      by (unfold det; simpl; lra).
    simpl.
    rewrite (fle_false (det (2, 0) (1, 1) (0, 0)))
      by (unfold det; simpl; lra).
    reflexivity.
  - repeat constructor; unfold lex_le; simpl; lra.
  - simpl. apply perm_skip. apply perm_swap.
Qed.

Lemma hull_points_are_input_points_witness :
  In (1, 1) (snd (fst (do_the_andrew_parkour [(0, 0); (2, 0); (1, 1)] 3))) /\
  In (1, 1) (firstn 3 [(0, 0); (2, 0); (1, 1)]).
Proof.
  assert (H : In (1, 1)
                (snd (fst (do_the_andrew_parkour [(0, 0); (2, 0); (1, 1)] 3)))).
  { rewrite triangle_hull. simpl. tauto. }
  split; [exact H |].
  exact (hull_points_are_input_points [(0, 0); (2, 0); (1, 1)] 3 (1, 1) H).
Defined.

Lemma hull_through_extremes_witness :
  (2 <= length (firstn 3 [(0, 0); (2, 0); (1, 1)]))%nat /\
  Z.le 3 (fst (fst (do_the_andrew_parkour [(0, 0); (2, 0); (1, 1)] 3))) /\
  exists (x0 xl : point) (A B : list point),
    snd (fst (do_the_andrew_parkour [(0, 0); (2, 0); (1, 1)] 3))
      = x0 :: A ++ xl :: B ++ [x0] /\
    In x0 (firstn 3 [(0, 0); (2, 0); (1, 1)]) /\
    In xl (firstn 3 [(0, 0); (2, 0); (1, 1)]) /\
    forall q : point, In q (firstn 3 [(0, 0); (2, 0); (1, 1)]) ->
      lex_le x0 q /\ lex_le q xl.
Proof.
  assert (H : (2 <= length (firstn 3 [(0, 0); (2, 0); (1, 1)]))%nat)
    by (simpl; lia).
  split; [exact H |].
  exact (hull_through_extremes [(0, 0); (2, 0); (1, 1)] 3 H).
Defined.

(** ** What every handler keeps *)

Lemma when_ind_cond {A : Type} (P : A -> Prop) (b : bool) (g : A -> A)
    (a : A) :
  P a -> (forall a', b = true -> P a' -> P (g a')) -> P (when b g a).
Proof. intros Ha Hg. unfold when. destruct b; auto. Qed.

Lemma when_div_ind {A : Type} (P : A -> Prop) (b : bool)
    (g : A -> option A) (a a' : A) :
  when_div b g a = Some a' -> P a ->
  (forall a1 a2, b = true -> P a1 -> g a1 = Some a2 -> P a2) -> P a'.
Proof.
  unfold when_div. destruct b; intros H Ha Hg.
  - exact (Hg a a' eq_refl Ha H).
  - injection H as <-. exact Ha.
Qed.

Lemma RADIUS_FACTOR_pos : 0 < RADIUS_FACTOR.
Proof. unfold RADIUS_FACTOR. lra. Qed.

Lemma inv_ZOOM_FACTOR_pos : 0 < 1 / ZOOM_FACTOR.
Proof. unfold ZOOM_FACTOR. lra. Qed.

Lemma inv_RADIUS_FACTOR_pos : 0 < 1 / RADIUS_FACTOR.
Proof. unfold RADIUS_FACTOR. lra. Qed.

Lemma digit_range (k : Z) :
  ((chr "0" <=? k) && (k <=? chr "9"))%Z = true ->
  (0 <= k - chr "0" <= 9)%Z.
Proof.
  intros H. apply andb_prop in H. destruct H as [H1 H2].
  apply Z.leb_le in H1, H2. vm_compute chr in *. lia.
Qed.

Section handlers.

(** A property of the viewer state that the reset and every action
    keep. *)
Variable P : viewer_state.t -> Prop.
Hypothesis P_center : forall f : FTR.t,
  P (userdata f) -> P (userdata (center_view f)).
Hypothesis P_offset : forall (e : viewer_state.t) (dx dy : float),
  P e -> P (change_view_offset e dx dy).
Hypothesis P_zoom : forall (e e' : viewer_state.t) (x y : Z) (fac : float),
  0 < fac -> P e -> change_view_scale e x y fac = Some e' -> P e'.
Hypothesis P_radius : forall (e : viewer_state.t) (x y : Z) (fac : float),
  0 < fac -> P e -> P (change_radius e x y fac).
Hypothesis P_c : forall (e : viewer_state.t) (v : point),
  P e -> P (set_c v e).
Hypothesis P_flags : forall (e : viewer_state.t) (v : bool),
  P e ->
  P (set_dragging_window_point v e) /\ P (set_dragging_image_point v e) /\
  P (set_dragging_background v e) /\ P (set_tile_plane v e) /\
  P (set_show_horizon v e) /\ P (set_show_grid_points v e) /\
  P (set_show_debug v e).
Hypothesis P_dragged : forall (e : viewer_state.t) (v : Z),
  v = 0%Z \/ v = (-1)%Z -> P e -> P (set_dragged_point v e).
Hypothesis P_handle : forall (e : viewer_state.t) (v : Z * Z),
  P e -> P (set_drag_handle v e).
Hypothesis P_order : forall (e : viewer_state.t) (v : Z),
  (0 <= v <= 9)%Z -> P e -> P (set_interpolation_order v e).

Lemma P_drag_point (e e' : viewer_state.t) (x y : Z) :
  P e -> drag_point_in_window_domain e x y = Some e' -> P e'.
Proof.
  unfold drag_point_in_window_domain. intros HP H.
  destruct (map_window_to_view e (IZR x, IZR y)) as [q |]; [| discriminate].
  simpl in H. injection H as <-. apply P_c. exact HP.
Qed.

Lemma event_key_keeps (f f' : FTR.t) (k m x y : Z) :
  P (userdata f) -> event_key f k m x y = Some f' -> P (userdata f').
Proof.
  intros HP H. unfold event_key in H.
  destruct (k =? chr "q")%Z; [injection H as <-; exact HP |].
  cbv zeta in H.
  match type of H with
  | context [when_div (k =? chr "+")%Z _ ?e] => set (e8 := e) in H
  end.
  assert (H8 : P e8).
  { subst e8.
    repeat (apply when_ind; [| intros a' Ha'; apply P_offset; exact Ha']).
    unfold when. destruct (k =? chr "c")%Z; [apply P_center |]; exact HP. }
  destruct (when_div (k =? chr "+")%Z _ e8) as [e9 |] eqn:E9;
    [| discriminate].
  assert (H9 : P e9).
  { apply (when_div_ind P _ _ _ _ E9 H8). intros a1 a2 _ Ha1 Ea.
    exact (P_zoom a1 a2 _ _ _ ZOOM_FACTOR_pos Ha1 Ea). }
  simpl bind in H.
  destruct (when_div (k =? chr "-")%Z _ e9) as [e10 |] eqn:E10;
    [| discriminate].
  assert (H10 : P e10).
  { apply (when_div_ind P _ _ _ _ E10 H9). intros a1 a2 _ Ha1 Ea.
    exact (P_zoom a1 a2 _ _ _ inv_ZOOM_FACTOR_pos Ha1 Ea). }
  simpl bind in H. injection H as <-.
  cbn [userdata set_userdata set_changed].
  apply P_flags. apply P_flags.
  apply when_ind; [| intros a' Ha'; apply P_flags; exact Ha'].
  apply when_ind; [| intros a' Ha'; apply P_flags; exact Ha'].
  apply when_ind_cond;
    [| intros a' Hb Ha'; apply P_order; [apply digit_range; exact Hb
                                        | exact Ha']].
  apply when_ind; [| intros a' Ha'; apply P_flags; exact Ha'].
  apply when_ind; [| intros a' Ha'; apply P_flags; exact Ha'].
  exact H10.
Qed.

Lemma event_button_keeps (f f' : FTR.t) (k m x y : Z) :
  P (userdata f) -> event_button f k m x y = Some f' -> P (userdata f').
Proof.
  intros HP H. unfold event_button in H. cbv zeta in H.
  set (p := hit_point (userdata f) (IZR x) (IZR y)) in H.
  assert (Hp : p = 0%Z \/ p = (-1)%Z) by apply hit_point_cases.
  match type of H with
  | context [when_div (_ && (k =? - FTR_BUTTON_LEFT)%Z) _ ?e] =>
      set (e1 := e) in H
  end.
  assert (H1 : P e1).
  { subst e1. apply when_ind; [exact HP |]. intros a' Ha'.
    apply P_flags. apply P_dragged; assumption. }
  destruct (when_div _ _ e1) as [e2 |] eqn:E2; [| discriminate].
  assert (H2 : P e2).
  { apply (when_div_ind P _ _ _ _ E2 H1). intros a1 a2 _ Ha1 Ea.
    destruct (drag_point_in_window_domain a1 x y) as [a3 |] eqn:E3;
      [| discriminate].
    simpl in Ea. injection Ea as <-.
    apply P_dragged; [right; reflexivity |]. apply P_flags.
    exact (P_drag_point a1 a3 x y Ha1 E3). }
  simpl bind in H.
  match type of H with
  | context [when_div (k =? FTR_BUTTON_DOWN)%Z _ ?e] => set (e5 := e) in H
  end.
  assert (H5 : P e5).
  { subst e5.
    apply when_ind; [| intros a' Ha'; apply P_flags, P_offset; exact Ha'].
    apply when_ind; [| intros a' Ha'; apply P_flags, P_handle; exact Ha'].
    apply when_ind; [exact H2 |]. intros a' Ha'.
    apply P_flags. apply P_dragged; assumption. }
  destruct (when_div (k =? FTR_BUTTON_DOWN)%Z _ e5) as [e6 |] eqn:E6;
    [| discriminate].
  assert (H6 : P e6).
  { apply (when_div_ind P _ _ _ _ E6 H5). intros a1 a2 _ Ha1 Ea.
    destruct (hit_point a1 (IZR x) (IZR y) <? 0)%Z.
    - exact (P_zoom a1 a2 _ _ _ ZOOM_FACTOR_pos Ha1 Ea).
    - injection Ea as <-. apply P_radius; [apply RADIUS_FACTOR_pos | exact Ha1]. }
  simpl bind in H.
  destruct (when_div (k =? FTR_BUTTON_UP)%Z _ e6) as [e7 |] eqn:E7;
    [| discriminate].
  assert (H7 : P e7).
  { apply (when_div_ind P _ _ _ _ E7 H6). intros a1 a2 _ Ha1 Ea.
    destruct (hit_point a1 (IZR x) (IZR y) <? 0)%Z.
    - exact (P_zoom a1 a2 _ _ _ inv_ZOOM_FACTOR_pos Ha1 Ea).
    - injection Ea as <-.
      apply P_radius; [apply inv_RADIUS_FACTOR_pos | exact Ha1]. }
  simpl bind in H. injection H as <-. exact H7.
Qed.

Lemma event_motion_keeps (f f' : FTR.t) (b m x y : Z) :
  P (userdata f) -> event_motion f b m x y = Some f' -> P (userdata f').
Proof.
  intros HP H. unfold event_motion in H.
  destruct (when_div _ _ f) as [f1 |] eqn:E1; [| discriminate].
  assert (H1 : P (userdata f1)).
  { apply (when_div_ind (fun f => P (userdata f)) _ _ _ _ E1 HP).
    intros a1 a2 _ Ha1 Ea.
    destruct (drag_point_in_window_domain (userdata a1) x y) as [a3 |] eqn:E3;
      [| discriminate].
    simpl in Ea. injection Ea as <-.
    exact (P_drag_point (userdata a1) a3 x y Ha1 E3). }
  simpl bind in H. injection H as <-.
  apply (when_ind (fun f => P (userdata f))); [exact H1 |].
  intros a' Ha'. cbn [userdata set_userdata set_changed].
  apply P_handle, P_offset. exact Ha'.
Qed.

Lemma handle_keeps (f f' : FTR.t) (ev : event) :
  P (userdata f) -> handle f ev = Some f' -> P (userdata f').
Proof.
  destruct ev as [k m x y | k m x y | b m x y]; simpl.
  - apply event_key_keeps.
  - apply event_button_keeps.
  - apply event_motion_keeps.
Qed.

End handlers.

Lemma change_view_scale_fields (e e' : viewer_state.t) (x y : Z)
    (fac : float) :
  change_view_scale e x y fac = Some e' ->
  point_data e' = point_data e /\ r e' = r e /\ c e' = c e /\
  dragged_point e' = dragged_point e /\
  interpolation_order e' = interpolation_order e /\
  drag_handle e' = drag_handle e.
Proof.
  unfold change_view_scale. intros H.
  destruct (map_window_to_view e (IZR x, IZR y)) as [q |]; [| discriminate].
  simpl in H. injection H as <-. repeat split.
Qed.

Lemma session_inv_keeps (f f' : FTR.t) (ev : event) :
  session_inv (userdata f) -> handle f ev = Some f' ->
  session_inv (userdata f').
Proof.
  apply handle_keeps; unfold session_inv.
  - intros f0 _. simpl. repeat split; try lra; try lia.
  - intros e dx dy H. exact H.
  - intros e e' x y fac Hf (Hs & Hr & Hd & Ho) H.
    destruct (change_view_scale_fields e e' x y fac H)
      as (_ & Er & _ & Ed & Eo & _).
    destruct (change_view_scale_Some e e' x y fac H) as (_ & Es & _).
    rewrite Es, Er, Ed, Eo. repeat split; try tauto; try lia.
    apply Rmult_lt_0_compat; assumption.
  - intros e x y fac Hf (Hs & Hr & Hd & Ho). simpl.
    repeat split; try tauto; try lia. apply Rmult_lt_0_compat; assumption.
  - intros e v H. exact H.
  - intros e v H. simpl. tauto.
  - intros e v Hv (Hs & Hr & Hd & Ho). simpl. tauto.
  - intros e v H. exact H.
  - intros e v Hv (Hs & Hr & Hd & Ho). simpl. tauto.
Qed.

(** X12: in every state of a session the scale and the radius of inversion
    are positive, [dragged_point] is 0 or -1 and the interpolation order is
    a digit; and whatever event comes next, its handler runs through: no
    handler ever divides by a zero scale. *)
Theorem session_invariants (f : FTR.t) :
  reachable f ->
  session_inv (userdata f) /\
  forall ev : event, exists f' : FTR.t,
    handle f ev = Some f' /\ session_inv (userdata f').
Proof.
  intros Hf.
  assert (HI : session_inv (userdata f)).
  { induction Hf as [f0 | f f' ev _ IH H].
    - unfold session_inv. simpl. repeat split; try lra; try lia.
    - exact (session_inv_keeps f f' ev IH H). }
  split; [exact HI |]. intros ev.
  destruct (handle_returns f ev) as (f' & H & _).
  { destruct HI as (Hs & _). lra. }
  exists f'. split; [exact H |]. exact (session_inv_keeps f f' ev HI H).
Qed.

Lemma handle_window_size (f f' : FTR.t) (ev : event) :
  handle f ev = Some f' -> w f' = w f /\ h f' = h f.
Proof.
  destruct ev as [k m x y | k m x y | b m x y]; simpl; intros H.
  - unfold event_key in H.
    destruct (k =? chr "q")%Z; [injection H as <-; split; reflexivity |].
    cbv zeta in H.
    destruct (when_div (k =? chr "+")%Z _ _) as [e9 |]; [| discriminate].
    simpl bind in H.
    destruct (when_div (k =? chr "-")%Z _ _) as [e10 |]; [| discriminate].
    simpl bind in H. injection H as <-.
    unfold when. destruct (k =? chr "c")%Z; split; reflexivity.
  - unfold event_button in H. cbv zeta in H.
    destruct (when_div _ _ _) as [e2 |]; [| discriminate].
    simpl bind in H.
    destruct (when_div (k =? FTR_BUTTON_DOWN)%Z _ _) as [e6 |];
      [| discriminate].
    simpl bind in H.
    destruct (when_div (k =? FTR_BUTTON_UP)%Z _ _) as [e7 |];
      [| discriminate].
    simpl bind in H. injection H as <-. split; reflexivity.
  - unfold event_motion in H.
    destruct (when_div _ _ f) as [f1 |] eqn:E1; [| discriminate].
    simpl bind in H. injection H as <-.
    assert (H1 : w f1 = w f /\ h f1 = h f).
    { apply (when_div_ind (fun g => w g = w f /\ h g = h f) _ _ _ _ E1);
        [split; reflexivity |].
      intros a1 a2 _ Ha1 Ea.
      destruct (drag_point_in_window_domain (userdata a1) x y);
        [| discriminate].
      simpl in Ea. injection Ea as <-. exact Ha1. }
    apply (when_ind (fun g => w g = w f /\ h g = h f)); [exact H1 |].
    intros a' Ha'. exact Ha'.
Qed.

(** X13: no handler touches the point data or the size of the window: the
    points, their number, the inverted points, the hull and its count are
    after a key, button or motion event what they were before it. *)
Theorem handlers_keep_point_data (f f' : FTR.t) (ev : event) :
  handle f ev = Some f' ->
  point_data (userdata f') = point_data (userdata f) /\
  w f' = w f /\ h f' = h f.
Proof.
  intros H. split; [| exact (handle_window_size f f' ev H)].
  revert H.
  apply (handle_keeps (fun e => point_data e = point_data (userdata f)));
    try reflexivity.
  - intros f0 H0. exact H0.
  - intros e dx dy H0. exact H0.
  - intros e e' x y fac _ H0 H.
    destruct (change_view_scale_fields e e' x y fac H) as (E & _).
    rewrite E. exact H0.
  - intros e x y fac _ H0. exact H0.
  - intros e v H0. exact H0.
  - intros e v H0. repeat split; exact H0.
  - intros e v _ H0. exact H0.
  - intros e v H0. exact H0.
  - intros e v _ H0. exact H0.
Qed.

(** ** The pixels of a segment *)

Lemma Int_part_bounds (a : R) : IZR (Int_part a) <= a < IZR (Int_part a) + 1.
Proof. destruct (base_Int_part a) as [H1 H2]. lra. Qed.

(** ** Pixels *)

Lemma store_Some (a : list Z) (i v : Z) :
  (0 <= i < Z.of_nat (length a))%Z ->
  exists a' : list Z,
    store a i v = Some a' /\
    length a' = length a /\
    load a' i = v /\
    forall j : Z, j <> i -> load a' j = load a j.
Proof.
  intros Hi. unfold store.
  rewrite (proj2 (Z.leb_le 0 i)) by lia.
  rewrite (proj2 (Z.ltb_lt i _)) by lia. simpl andb.
  eexists. split; [reflexivity |].
  assert (Hn : (Z.to_nat i < length a)%nat) by lia.
  assert (Lf : length (firstn (Z.to_nat i) a) = Z.to_nat i).
  { rewrite length_firstn. lia. }
  split; [| split].
  - rewrite length_app, Lf.
    change (length (v :: skipn (S (Z.to_nat i)) a))
      with (S (length (skipn (S (Z.to_nat i)) a))).
    rewrite length_skipn. lia.
  - unfold load. rewrite (proj2 (Z.leb_le 0 i)) by lia.
    rewrite app_nth2 by lia. rewrite Lf, Nat.sub_diag. reflexivity.
  - intros j Hj. unfold load.
    destruct (0 <=? j)%Z eqn:Ej; [| reflexivity].
    apply Z.leb_le in Ej.
    destruct (Nat.lt_ge_cases (Z.to_nat j) (Z.to_nat i)) as [L | L].
    + rewrite app_nth1 by lia. rewrite nth_firstn.
      rewrite (proj2 (Nat.ltb_lt _ _) L). reflexivity.
    + assert (L' : (Z.to_nat i < Z.to_nat j)%nat) by lia.
      rewrite app_nth2 by lia. rewrite Lf.
      destruct (Z.to_nat j - Z.to_nat i)%nat as [| d] eqn:Ed; [lia |].
      cbn [nth]. rewrite nth_skipn. f_equal. lia.
Qed.

Lemma store3_Some (a : list Z) (i : Z) (color : Z * Z * Z) :
  (0 <= i)%Z -> (i + 2 < Z.of_nat (length a))%Z ->
  exists a' : list Z,
    store3 a i color = Some a' /\
    length a' = length a /\
    (load a' i, load a' (i + 1), load a' (i + 2)) = color /\
    forall j : Z, (j < i \/ i + 2 < j)%Z -> load a' j = load a j.
Proof.
  intros H0 H2. destruct color as [[c0 c1] c2]. unfold store3.
  destruct (store_Some a (i + 0) c0) as (a0 & E0 & L0 & V0 & F0); [lia |].
  rewrite E0. cbn [bind].
  destruct (store_Some a0 (i + 1) c1) as (a1 & E1 & L1 & V1 & F1); [lia |].
  rewrite E1. cbn [bind].
  destruct (store_Some a1 (i + 2) c2) as (a2 & E2 & L2 & V2 & F2); [lia |].
  rewrite E2. exists a2. split; [reflexivity |].
  split; [congruence |]. split.
  - rewrite V2. rewrite (F2 (i + 1)%Z) by lia. rewrite V1.
    rewrite (F2 i) by lia. rewrite (F1 i) by lia.
    replace i with (i + 0)%Z at 1 by lia. rewrite V0. reflexivity.
  - intros j Hj. rewrite F2, F1, F0 by lia. reflexivity.
Qed.

Lemma insideP_true (f : canvas.t) (x y : Z) :
  insideP f x y = true <->
  (0 <= x < canvas.w f)%Z /\ (0 <= y < canvas.h f)%Z.
Proof.
  unfold insideP. rewrite !andb_true_iff, !Z.leb_le, !Z.ltb_lt. lia.
Qed.

Lemma pixel_index (wd ht x y : Z) :
  (0 <= x < wd)%Z -> (0 <= y < ht)%Z ->
  (0 <= 3 * (wd * y + x))%Z /\ (3 * (wd * y + x) + 2 < 3 * wd * ht)%Z.
Proof. intros Hx Hy. split; nia. Qed.

Lemma pixel_index_apart (wd x y x' y' : Z) :
  (0 <= x < wd)%Z -> (0 <= x' < wd)%Z -> (x', y') <> (x, y) ->
  (3 * (wd * y' + x') + 2 < 3 * (wd * y + x))%Z \/
  (3 * (wd * y + x) + 2 < 3 * (wd * y' + x'))%Z.
Proof.
  intros Hx Hx' Hne.
  destruct (Z.lt_trichotomy y' y) as [L | [E | L]].
  - left. nia.
  - subst y'. destruct (Z.lt_trichotomy x' x) as [L | [E | L]].
    + left. lia.
    + subst x'. contradiction Hne. reflexivity.
    + right. lia.
  - right. nia.
Qed.

(** What one call of a plot function does. *)
Lemma plot_pixel_spec (color : Z * Z * Z) (x y : Z) (f : canvas.t) :
  canvas_ok f ->
  exists f' : canvas.t,
    plot_pixel color x y f = Some f' /\
    canvas.w f' = canvas.w f /\ canvas.h f' = canvas.h f /\
    length (canvas.rgb f') = length (canvas.rgb f) /\
    (insideP f x y = true -> pixel f' x y = color) /\
    (insideP f x y = false -> f' = f) /\
    (forall x' y' : Z,
        insideP f x' y' = true -> (x', y') <> (x, y) ->
        pixel f' x' y' = pixel f x' y') /\
    (forall j : Z,
        (3 * canvas.w f * canvas.h f <= j)%Z ->
        load (canvas.rgb f') j = load (canvas.rgb f) j).
Proof.
  intros Hok. unfold plot_pixel.
  destruct (insideP f x y) eqn:Hin.
  - apply insideP_true in Hin. destruct Hin as [Hx Hy].
    destruct (pixel_index (canvas.w f) (canvas.h f) x y Hx Hy) as [I0 I2].
    cbv zeta.
    destruct (store3_Some (canvas.rgb f) (3 * (canvas.w f * y + x)) color)
      as (a' & E & L & V & F); [exact I0 | unfold canvas_ok in Hok; lia |].
    rewrite E. cbn [bind]. eexists. split; [reflexivity |].
    split; [reflexivity |]. split; [reflexivity |]. split; [exact L |].
    split; [intros _; exact V |]. split; [intros D; discriminate |].
    split.
    + intros x' y' Hin' Hne. apply insideP_true in Hin'.
      destruct Hin' as [Hx' Hy'].
      unfold pixel. cbn [canvas.rgb canvas.w canvas.set_rgb].
      destruct (pixel_index_apart (canvas.w f) x y x' y' Hx Hx' Hne);
        rewrite !F by lia; reflexivity.
    + intros j Hj. cbn [canvas.rgb canvas.set_rgb]. apply F. lia.
  - exists f. repeat split; try reflexivity. intros D. discriminate.
Qed.

(** X20: a plot function never writes outside of the buffer when the
    buffer has room for the window.  A pixel inside the window gets the
    colour, the pixels beside it keep theirs; for a pixel outside the
    window nothing is written at all; the size of the window, the length
    of the buffer and the bytes behind the last row are never touched. *)
Theorem plot_pixel_in_bounds (color : Z * Z * Z) (x y : Z) (f : canvas.t) :
  canvas_ok f ->
  exists f' : canvas.t,
    plot_pixel color x y f = Some f' /\
    canvas.w f' = canvas.w f /\ canvas.h f' = canvas.h f /\
    length (canvas.rgb f') = length (canvas.rgb f) /\
    (insideP f x y = true -> pixel f' x y = color) /\
    (insideP f x y = false -> f' = f) /\
    (forall x' y' : Z,
        insideP f x' y' = true -> (x', y') <> (x, y) ->
        pixel f' x' y' = pixel f x' y') /\
    (forall j : Z,
        (3 * canvas.w f * canvas.h f <= j)%Z ->
        load (canvas.rgb f') j = load (canvas.rgb f) j).
Proof. exact (plot_pixel_spec color x y f). Qed.

(** ** Segments on the window *)

Lemma plot_all_map {E A : Type} (f : Z -> Z -> E -> E) (g h : A -> Z)
    (l : list A) (e : E) :
  plot_all f (map (fun a => (g a, h a)) l) e
    = fold_left (fun e a => f (g a) (h a) e) l e.
Proof.
  unfold plot_all. revert e. induction l as [| a l IH]; intros e;
    [reflexivity |].
  simpl. apply IH.
Qed.

Lemma pixel_eq_dec (a b : Z * Z) : a = b \/ a <> b.
Proof.
  destruct a as [a0 a1], b as [b0 b1].
  destruct (Z.eq_dec a0 b0) as [-> | H0];
    [| right; intros E; injection E as E0 E1; contradiction].
  destruct (Z.eq_dec a1 b1) as [-> | H1];
    [left; reflexivity | right; intros E; injection E as E1; contradiction].
Qed.

Lemma In_pixel_dec (a : Z * Z) (log : list (Z * Z)) : In a log \/ ~ In a log.
Proof.
  induction log as [| b log IH]; [right; intros [] |].
  destruct (pixel_eq_dec b a) as [-> | H]; [left; left; reflexivity |].
  destruct IH as [IH | IH]; [left; right; exact IH |].
  right. intros [E | E]; contradiction.
Qed.

Lemma insideP_same (f f' : canvas.t) (x y : Z) :
  canvas.w f' = canvas.w f -> canvas.h f' = canvas.h f ->
  insideP f' x y = insideP f x y.
Proof. intros Hw Hh. unfold insideP. rewrite Hw, Hh. reflexivity. Qed.

(** Pixels plotted one after the other on a window with room for them:
    those of the list get the colour, the others keep theirs. *)
Lemma plot_all_spec (color : Z * Z * Z) (log : list (Z * Z)) (f : canvas.t) :
  canvas_ok f ->
  exists f' : canvas.t,
    plot_all (callback (plot_pixel color)) log (Some f) = Some f' /\
    canvas.w f' = canvas.w f /\ canvas.h f' = canvas.h f /\
    length (canvas.rgb f') = length (canvas.rgb f) /\
    (forall x y : Z,
        insideP f x y = true -> In (x, y) log -> pixel f' x y = color) /\
    (forall x y : Z,
        insideP f x y = true -> ~ In (x, y) log ->
        pixel f' x y = pixel f x y) /\
    (forall j : Z,
        (3 * canvas.w f * canvas.h f <= j)%Z ->
        load (canvas.rgb f') j = load (canvas.rgb f) j).
Proof.
  revert f. induction log as [| [px py] log IH]; intros f Hok.
  - exists f. split; [reflexivity |]. repeat split; try reflexivity.
    intros x y _ [].
  - destruct (plot_pixel_spec color px py f Hok)
      as (f1 & E1 & W1 & H1 & L1 & In1 & Out1 & Fr1 & By1).
    assert (Hok1 : canvas_ok f1).
    { unfold canvas_ok in *. rewrite W1, H1, L1. exact Hok. }
    destruct (IH f1 Hok1) as (f' & E & W & H & L & In' & Out' & By').
    exists f'. split.
    { unfold plot_all in *. cbn [fold_left fst snd].
      unfold callback at 2. cbn [bind]. rewrite E1. exact E. }
    split; [congruence |]. split; [congruence |]. split; [congruence |].
    split; [| split].
    + intros x y Hin HI.
      assert (Hin1 : insideP f1 x y = true).
      { rewrite (insideP_same f f1 x y W1 H1). exact Hin. }
      destruct (In_pixel_dec (x, y) log) as [Hl | Hl].
      * exact (In' x y Hin1 Hl).
      * destruct HI as [E0 | HI]; [| contradiction].
        injection E0 as -> ->.
        rewrite (Out' x y Hin1 Hl). exact (In1 Hin).
    + intros x y Hin HI.
      assert (Hin1 : insideP f1 x y = true).
      { rewrite (insideP_same f f1 x y W1 H1). exact Hin. }
      rewrite (Out' x y Hin1); [| intros Hl; apply HI; right; exact Hl].
      apply (Fr1 x y Hin). intros E0. apply HI. left. symmetry. exact E0.
    + intros j Hj. rewrite By' by (rewrite W1, H1; exact Hj).
      exact (By1 j Hj).
Qed.

(** ** Segments in a rounding arithmetic *)

Lemma ftoi_IZR (z : Z) : ftoi (IZR z) = z.
Proof.
  unfold ftoi. unfold fle. destruct (Rle_dec 0 (IZR z)) as [G | G].
  - symmetry. apply Int_part_spec. lra.
  - rewrite <- opp_IZR.
    replace (Int_part (IZR (- z))) with (- z)%Z; [lia |].
    apply Int_part_spec. lra.
Qed.

Lemma traverse_segment_fl_log {E : Type} (rnd : R -> R) (fuel : nat)
    (px py qx qy : Z) (f : Z -> Z -> E -> E) (e : E) :
  traverse_segment_fl rnd fuel px py qx qy f e =
    match traverse_segment_fl rnd fuel px py qx qy record_pixel [] with
    | Some log => Some (plot_all f log e)
    | None => None
    end.
Proof.
  revert px py qx qy. induction fuel as [| fuel IH]; intros px py qx qy;
    [reflexivity |].
  cbn [traverse_segment_fl].
  destruct ((px =? qx) && (py =? qy))%Z; [reflexivity |].
  destruct (qx + qy <? px + py)%Z; [apply IH |].
  destruct ((qy - py <? qx - px) || (qy - py <? px - qx))%Z.
  - destruct (fdiv_fl rnd (rnd (IZR (qy - py))) (rnd (IZR (qx - px))))
      as [slope |]; [| reflexivity].
    cbn [bind]. rewrite fold_record_pixel. simpl app.
    rewrite plot_all_map. reflexivity.
  - destruct (fdiv_fl rnd (rnd (IZR (qx - px))) (rnd (IZR (qy - py))))
      as [slope |]; [| reflexivity].
    cbn [bind]. rewrite fold_record_pixel. simpl app.
    rewrite plot_all_map. reflexivity.
Qed.

Lemma traverse_segment_fl_box_ordered (rnd : R -> R) (px py qx qy : Z) :
  single rnd ->
  (Z.abs px <= 1048576)%Z -> (Z.abs py <= 1048576)%Z ->
  (Z.abs qx <= 1048576)%Z -> (Z.abs qy <= 1048576)%Z ->
  (px + py <= qx + qy)%Z ->
  exists log : list (Z * Z),
    traverse_segment_fl rnd 2 px py qx qy record_pixel [] = Some log /\
    forall x y : Z, In (x, y) log ->
      (Z.min px qx <= x <= Z.max px qx)%Z /\
      (Z.min py qy <= y <= Z.max py qy)%Z.
Proof.
  intros Hr Bpx Bpy Bqx Bqy Hord.
  rewrite (traverse_segment_fl_ordered rnd 1 px py qx qy _ _ Hr)
    by (try lia; exact Hord).
  destruct ((px =? qx) && (py =? qy))%Z eqn:Hc.
  - eexists. split; [reflexivity |]. intros x y [H | []].
    injection H as <- <-. lia.
  - destruct ((qy - py <? qx - px) || (qy - py <? px - qx))%Z eqn:Hh.
    + cbv zeta. rewrite fold_record_pixel. eexists. split; [reflexivity |].
      intros x y H. simpl app in H. apply in_map_iff in H.
      destruct H as (i & E & Hi). injection E as <- <-.
      apply In_counter in Hi.
      apply orb_true_iff in Hh.
      assert (HD : (qy - py < qx - px)%Z).
      { destruct Hh as [Hh | Hh]; apply Z.ltb_lt in Hh; lia. }
      split; [lia |].
      assert (Dp : 0 < IZR (qx - px)) by (apply IZR_lt; lia).
      apply (lrint_between_near _ _ _
               (IZR py + IZR i * (IZR (qy - py) / IZR (qx - px)))).
      * apply along_segment.
        -- exact Dp.
        -- split; apply IZR_le; lia.
        -- split; apply IZR_le; lia.
        -- rewrite <- plus_IZR. split; apply IZR_le; lia.
      * apply traverse_segment_fl_near; try assumption; lia.
    + cbv zeta. rewrite fold_record_pixel. eexists. split; [reflexivity |].
      intros x y H. simpl app in H. apply in_map_iff in H.
      destruct H as (j & E & Hj). injection E as <- <-.
      apply In_counter in Hj.
      apply orb_false_iff in Hh. destruct Hh as [H1 H2].
      apply Z.ltb_ge in H1, H2.
      apply andb_false_iff in Hc.
      assert (HD : (0 < qy - py)%Z).
      { destruct Hc as [Hc | Hc]; apply Z.eqb_neq in Hc; lia. }
      split; [| lia].
      assert (Dp : 0 < IZR (qy - py)) by (apply IZR_lt; lia).
      apply (lrint_between_near _ _ _
               (IZR px + IZR j * (IZR (qx - px) / IZR (qy - py)))).
      * apply along_segment.
        -- exact Dp.
        -- split; apply IZR_le; lia.
        -- split; apply IZR_le; lia.
        -- rewrite <- plus_IZR. split; apply IZR_le; lia.
      * apply traverse_segment_fl_near; try assumption; lia.
Qed.

Lemma traverse_segment_fl_box (rnd : R -> R) (px py qx qy : Z) :
  single rnd ->
  (Z.abs px <= 1048576)%Z -> (Z.abs py <= 1048576)%Z ->
  (Z.abs qx <= 1048576)%Z -> (Z.abs qy <= 1048576)%Z ->
  exists log : list (Z * Z),
    traverse_segment_fl rnd 2 px py qx qy record_pixel [] = Some log /\
    forall x y : Z, In (x, y) log ->
      (Z.min px qx <= x <= Z.max px qx)%Z /\
      (Z.min py qy <= y <= Z.max py qy)%Z.
Proof.
  intros Hr Bpx Bpy Bqx Bqy.
  destruct (Z_lt_le_dec (qx + qy) (px + py)) as [H | H].
  - destruct (traverse_segment_fl_box_ordered rnd qx qy px py Hr)
      as (log & E & B); try assumption; [lia |].
    assert (S2 : traverse_segment_fl rnd 2 px py qx qy record_pixel [] =
                 traverse_segment_fl rnd 1 qx qy px py record_pixel []).
    { cbn [traverse_segment_fl].
      destruct ((px =? qx) && (py =? qy))%Z eqn:Hc.
      - apply andb_true_iff in Hc. destruct Hc as [H1 H2].
        apply Z.eqb_eq in H1, H2. lia.
      - rewrite (proj2 (Z.ltb_lt _ _) H). reflexivity. }
    assert (S1 : traverse_segment_fl rnd 2 qx qy px py record_pixel [] =
                 traverse_segment_fl rnd 1 qx qy px py record_pixel []).
    { rewrite (traverse_segment_fl_ordered rnd 1),
        (traverse_segment_fl_ordered rnd 0) by (try lia; exact Hr).
      reflexivity. }
    exists log. split; [rewrite S2, <- S1; exact E |].
    intros x y Hxy. specialize (B x y Hxy). lia.
  - exact (traverse_segment_fl_box_ordered rnd px py qx qy Hr Bpx Bpy Bqx Bqy
             H).
Qed.

(** X19: in a rounding arithmetic and for end points with coordinates of
    magnitude at most 2^20, every pixel a segment is drawn with lies in the
    bounding box of its two end points, whatever the callback does with
    it. *)
Theorem traverse_segment_in_box {E : Type} (rnd : R -> R) (px py qx qy : Z)
    (f : Z -> Z -> E -> E) (e : E) :
  single rnd ->
  (Z.abs px <= 1048576)%Z -> (Z.abs py <= 1048576)%Z ->
  (Z.abs qx <= 1048576)%Z -> (Z.abs qy <= 1048576)%Z ->
  exists log : list (Z * Z),
    traverse_segment_fl rnd 2 px py qx qy f e = Some (plot_all f log e) /\
    forall x y : Z, In (x, y) log ->
      (Z.min px qx <= x <= Z.max px qx)%Z /\
      (Z.min py qy <= y <= Z.max py qy)%Z.
Proof.
  intros Hr Bpx Bpy Bqx Bqy.
  destruct (traverse_segment_fl_box rnd px py qx qy Hr Bpx Bpy Bqx Bqy)
    as (log & E0 & B).
  exists log. split; [| exact B].
  rewrite traverse_segment_fl_log, E0. reflexivity.
Qed.

(** X21: in a rounding arithmetic, a segment drawn on a window whose buffer
    has room for it, between end points with coordinates of magnitude at
    most 2^20, never writes outside of the buffer.  The pixels of the
    window outside the bounding box of the end points keep their colour,
    and so do the size of the window, the length of the buffer and the
    bytes behind the last row. *)
Theorem plot_segment_in_bounds (rnd : R -> R) (color : Z * Z * Z)
    (f : canvas.t) (x0 y0 xf yf : float) :
  single rnd -> canvas_ok f ->
  (Z.abs (ftoi x0) <= 1048576)%Z -> (Z.abs (ftoi y0) <= 1048576)%Z ->
  (Z.abs (ftoi xf) <= 1048576)%Z -> (Z.abs (ftoi yf) <= 1048576)%Z ->
  exists f' : canvas.t,
    plot_segment_fl rnd (plot_pixel color) f x0 y0 xf yf = Some f' /\
    canvas.w f' = canvas.w f /\ canvas.h f' = canvas.h f /\
    length (canvas.rgb f') = length (canvas.rgb f) /\
    (forall x y : Z,
        insideP f x y = true ->
        ~ ((Z.min (ftoi x0) (ftoi xf) <= x <= Z.max (ftoi x0) (ftoi xf))%Z /\
           (Z.min (ftoi y0) (ftoi yf) <= y <= Z.max (ftoi y0) (ftoi yf))%Z) ->
        pixel f' x y = pixel f x y) /\
    (forall j : Z,
        (3 * canvas.w f * canvas.h f <= j)%Z ->
        load (canvas.rgb f') j = load (canvas.rgb f) j).
Proof.
  intros Hr Hok B0 B1 B2 B3. unfold plot_segment_fl.
  rewrite traverse_segment_fl_log.
  destruct (traverse_segment_fl_box rnd (ftoi x0) (ftoi y0) (ftoi xf)
              (ftoi yf) Hr B0 B1 B2 B3) as (log & E & B).
  rewrite E. cbn [bind].
  destruct (plot_all_spec color log f Hok)
    as (f' & E' & W & H & L & _ & Out & By).
  exists f'. split; [exact E' |]. split; [exact W |]. split; [exact H |].
  split; [exact L |]. split; [| exact By].
  intros x y Hin Hbox. apply (Out x y Hin).
  intros Hl. apply Hbox. exact (B x y Hl).
Qed.

(** ** Circles *)

Lemma ftoi_nonneg (a : R) :
  0 <= a -> (0 <= ftoi a)%Z /\ IZR (ftoi a) <= a < IZR (ftoi a) + 1.
Proof.
  intros H. unfold ftoi. rewrite fle_true by exact H.
  pose proof (Int_part_bounds a) as B. split; [| exact B].
  apply Z.lt_succ_r. apply lt_IZR. rewrite succ_IZR. lra.
Qed.

Lemma ftoi_nonpos (a : R) : a <= 0 -> (ftoi a <= 0)%Z.
Proof.
  intros H. unfold ftoi. unfold fle.
  destruct (Rle_dec 0 a) as [G | G].
  - assert (E : a = 0) by lra. subst a.
    pose proof (Int_part_bounds 0) as B. apply le_IZR. lra.
  - pose proof (Int_part_bounds (- a)) as B.
    assert (L : (0 <= Int_part (- a))%Z).
    { apply Z.lt_succ_r. apply lt_IZR. rewrite succ_IZR. lra. }
    lia.
Qed.

(** The integer square root that the conversion to [int] leaves of
    [sqrt]. *)
Lemma ftoi_sqrt (N : Z) :
  (0 <= N)%Z ->
  let s := ftoi (sqrt (IZR N)) in
  (0 <= s)%Z /\ (s * s <= N)%Z /\ (N < (s + 1) * (s + 1))%Z.
Proof.
  intros HN s.
  assert (HN' : 0 <= IZR N) by (apply IZR_le; exact HN).
  destruct (ftoi_nonneg (sqrt (IZR N)) (sqrt_pos _)) as (Hs & B1 & B2).
  fold s in Hs, B1, B2.
  pose proof (sqrt_sqrt (IZR N) HN') as Q.
  assert (Hs' : 0 <= IZR s) by (apply IZR_le; exact Hs).
  split; [exact Hs |]. split.
  - apply le_IZR. rewrite mult_IZR. nra.
  - apply lt_IZR. rewrite mult_IZR, plus_IZR. nra.
Qed.

Lemma circle_half_width (r : Z) :
  let h := ftoi (IZR r / sqrt 2) in
  (0 <= h)%Z -> (2 * (h * h) <= r * r)%Z.
Proof.
  intros h Hh.
  assert (Q2 : sqrt 2 * sqrt 2 = 2) by (apply sqrt_sqrt; lra).
  assert (Qp : 0 < sqrt 2) by (apply sqrt_lt_R0; lra).
  destruct (Z_lt_le_dec r 0) as [Hr | Hr].
  - assert (Hn : IZR r / sqrt 2 <= 0).
    { apply IZR_lt in Hr. unfold Rdiv.
      pose proof (Rinv_0_lt_compat _ Qp) as Ip. nra. }
    pose proof (ftoi_nonpos _ Hn) as G. fold h in G.
    assert (E : h = 0%Z) by lia. rewrite E. nia.
  - assert (Hp : 0 <= IZR r / sqrt 2).
    { apply IZR_le in Hr. unfold Rdiv.
      pose proof (Rinv_0_lt_compat _ Qp) as Ip. nra. }
    destruct (ftoi_nonneg _ Hp) as (_ & B1 & _). fold h in B1.
    assert (B : IZR h * sqrt 2 <= IZR r).
    { apply (Rmult_le_compat_r (sqrt 2)) in B1; [| lra].
      unfold Rdiv in B1. rewrite Rmult_assoc, Rinv_l in B1 by lra. lra. }
    apply le_IZR. rewrite !mult_IZR.
    apply IZR_le in Hh, Hr.
    assert (G : (IZR h * sqrt 2) * (IZR h * sqrt 2) <= IZR r * IZR r).
    { apply Rmult_le_compat; nra. }
    nra.
Qed.

Lemma plot_all_app {E : Type} (f : Z -> Z -> E -> E) (l1 l2 : list (Z * Z))
    (e : E) :
  plot_all f (l1 ++ l2) e = plot_all f l2 (plot_all f l1 e).
Proof. unfold plot_all. apply fold_left_app. Qed.

Lemma traverse_circle_fold {E : Type} (cx cy r : Z) (f : Z -> Z -> E -> E)
    (l : list Z) (e : E) :
  (forall i : Z, In i l -> (0 <= r * r - i * i)%Z) ->
  fold_left
    (fun e i =>
       e <- e ;;
       if (r * r - i * i <? 0)%Z then None
       else
         let s := ftoi (sqrt (IZR (r * r - i * i))) in
         let e := f (cx + i)%Z (cy + s)%Z e in
         let e := f (cx + i)%Z (cy - s)%Z e in
         let e := f (cx + s)%Z (cy + i)%Z e in
         let e := f (cx - s)%Z (cy + i)%Z e in
         Some e) l (Some e)
    = Some (plot_all f (flat_map (circle_pixels cx cy r) l) e).
Proof.
  revert e. induction l as [| i l IH]; intros e Hl; [reflexivity |].
  cbn [fold_left bind flat_map].
  rewrite (proj2 (Z.ltb_ge _ _) (Hl i (or_introl eq_refl))).
  cbv zeta. rewrite plot_all_app.
  rewrite IH by (intros k Hk; apply Hl; right; exact Hk).
  reflexivity.
Qed.

Lemma traverse_circle_spec {E : Type} (cx cy r : Z)
    (f : Z -> Z -> E -> E) (e : E) :
  exists log : list (Z * Z),
    traverse_circle cx cy r f e = Some (plot_all f log e) /\
    Z.of_nat (length log)
      = Z.max 0 (4 * (2 * ftoi (IZR r / sqrt 2) + 1)) /\
    forall x y : Z, In (x, y) log ->
      ((x - cx) * (x - cx) + (y - cy) * (y - cy) <= r * r)%Z /\
      (r * r < (Z.abs (x - cx) + 1) * (Z.abs (x - cx) + 1)
               + (Z.abs (y - cy) + 1) * (Z.abs (y - cy) + 1))%Z.
Proof.
  unfold traverse_circle. cbv zeta.
  set (h := ftoi (IZR r / sqrt 2)).
  set (range := map (fun k => (k - h)%Z) (counter (2 * h + 1))).
  assert (Hrange : forall i : Z, In i range -> (- h <= i <= h)%Z).
  { intros i Hi. unfold range in Hi. apply in_map_iff in Hi.
    destruct Hi as (k & <- & Hk). apply In_counter in Hk. lia. }
  assert (HN : forall i : Z, In i range -> (0 <= r * r - i * i)%Z).
  { intros i Hi. specialize (Hrange i Hi).
    assert (Hh : (0 <= h)%Z) by lia.
    pose proof (circle_half_width r Hh) as G. fold h in G. nia. }
  exists (flat_map (circle_pixels cx cy r) range).
  split; [apply traverse_circle_fold; exact HN |]. split.
  - assert (L : forall l : list Z,
               length (flat_map (circle_pixels cx cy r) l)
               = (4 * length l)%nat).
    { induction l as [| a l IHl]; [reflexivity |].
      cbn [flat_map]. rewrite length_app, IHl. simpl length. lia. }
    rewrite L. unfold range. rewrite length_map, length_counter. lia.
  - intros x y Hxy. apply in_flat_map in Hxy.
    destruct Hxy as (i & Hi & Hxy).
    destruct (ftoi_sqrt (r * r - i * i) (HN i Hi)) as (S0 & S1 & S2).
    unfold circle_pixels in Hxy. cbv zeta in Hxy.
    set (s := ftoi (sqrt (IZR (r * r - i * i)))) in *.
    destruct Hxy as [E0 | [E0 | [E0 | [E0 | []]]]];
      injection E0 as <- <-; split; nia.
Qed.

(** *** Circles in double precision *)

(** No square of an integer is twice another one, zero apart: the square
    root of 2 is irrational. *)
Lemma sqrt2_irrational (r k : Z) : (r * r = 2 * (k * k))%Z -> r = 0%Z.
Proof.
  assert (G : forall (fuel : nat) (r k : Z),
             (Z.abs r < Z.of_nat fuel)%Z -> (r * r = 2 * (k * k))%Z ->
             r = 0%Z).
  { intros fuel. induction fuel as [| fuel IH]; intros r' k' B H; [lia |].
    destruct (Z.eq_dec r' 0) as [E | E]; [exact E | exfalso].
    destruct (Z.Even_or_Odd r') as [[a Ha] | [a Ha]]; [| subst r'; lia].
    destruct (Z.Even_or_Odd k') as [[b Hb] | [b Hb]]; [| subst r' k'; lia].
    assert (Q : a = 0%Z).
    { apply (IH a b); [lia | subst r' k'; lia]. }
    lia. }
  apply (G (S (Z.abs_nat r))). lia.
Qed.

Lemma ftoi_in (a : R) (k : Z) :
  (0 <= k)%Z -> IZR k <= a < IZR k + 1 -> ftoi a = k.
Proof.
  intros Hk H. assert (0 <= IZR k) by (apply IZR_le; exact Hk).
  unfold ftoi. rewrite fle_true by lra.
  symmetry. apply Int_part_spec. lra.
Qed.

Lemma ftoi_in_neg (a : R) (k : Z) :
  (k <= 0)%Z -> IZR k - 1 < a <= IZR k -> ftoi a = k.
Proof.
  intros Hk H. assert (IZR k <= 0) by (apply IZR_le; exact Hk).
  unfold ftoi, fle. destruct (Rle_dec 0 a) as [G | G].
  - assert (a = 0) by lra. assert (IZR k = 0) by lra.
    assert (k = 0%Z) by (apply eq_IZR; assumption). subst.
    symmetry. apply Int_part_spec. lra.
  - assert (E : Int_part (- a) = (- k)%Z).
    { symmetry. apply Int_part_spec. rewrite opp_IZR. lra. }
    rewrite E. lia.
Qed.

Lemma sqrt2_bounds : sqrt 2 * sqrt 2 = 2 /\ 7 / 5 < sqrt 2 < 3 / 2.
Proof.
  assert (Q : sqrt 2 * sqrt 2 = 2) by (apply sqrt_sqrt; lra).
  assert (P : 0 < sqrt 2) by (apply sqrt_lt_R0; lra).
  split; [exact Q |]. split; nra.
Qed.

Lemma eta64_tiny : 0 < eta64 <= / 18446744073709551616.
Proof.
  unfold eta64. split; [apply pow2_pos |].
  pose proof (pow2_le (-1075) (-64) ltac:(lia)) as H.
  replace (powerRZ 2 (-64)) with (/ 18446744073709551616) in H
    by (rewrite pow2_neg_num; reflexivity).
  exact H.
Qed.

Lemma DBL_MAX_ge : 1048576 <= DBL_MAX.
Proof.
  unfold DBL_MAX. pose proof (pow2_le 20 971 ltac:(lia)) as H.
  replace (powerRZ 2 20) with 1048576 in H by (simpl; lra). lra.
Qed.

(** The quotient [r / sqrt 2] keeps off the integers. *)
Lemma half_width_gap (r : Z) :
  (0 < r <= 46340)%Z ->
  let k := ftoi (IZR r / sqrt 2) in
  (0 <= k)%Z /\
  IZR k + / 262144 <= IZR r / sqrt 2 <= IZR k + 1 - / 262144.
Proof.
  intros Hr k.
  destruct sqrt2_bounds as (Q & W1 & W2).
  assert (R1 : 0 < IZR r <= 46340).
  { split; [apply IZR_lt | apply IZR_le]; lia. }
  set (t := IZR r / sqrt 2) in *.
  assert (T : t * sqrt 2 = IZR r) by (unfold t; field; lra).
  assert (T0 : 0 < t) by (apply Rdiv_lt_0_compat; lra).
  assert (T2 : 2 * (t * t) = IZR r * IZR r).
  { rewrite <- T. rewrite <- Q at 1. ring. }
  destruct (ftoi_nonneg t (Rlt_le _ _ T0)) as (K0 & K1 & K2). fold k in K0, K1, K2.
  assert (K0' : 0 <= IZR k) by (apply IZR_le; exact K0).
  assert (Tb : t <= 33100) by nra.
  assert (I1 : (2 * (k * k) + 1 <= r * r)%Z).
  { assert (L : (2 * (k * k) <= r * r)%Z).
    { apply le_IZR. rewrite !mult_IZR. nra. }
    assert (N : (r * r <> 2 * (k * k))%Z).
    { intros N. pose proof (sqrt2_irrational r k N). lia. }
    lia. }
  assert (I2 : (r * r + 1 <= 2 * ((k + 1) * (k + 1)))%Z).
  { assert (L : (r * r <= 2 * ((k + 1) * (k + 1)))%Z).
    { apply le_IZR. rewrite !mult_IZR, plus_IZR. nra. }
    assert (N : (r * r <> 2 * ((k + 1) * (k + 1)))%Z).
    { intros N. pose proof (sqrt2_irrational r (k + 1) N). lia. }
    lia. }
  apply IZR_le in I1, I2.
  rewrite !plus_IZR, !mult_IZR in I1. rewrite !plus_IZR, !mult_IZR, !plus_IZR in I2.
  split; [exact K0 |]. split.
  - assert (G : (t - IZR k) * (t + IZR k) >= 1 / 2) by nra.
    assert (G' : (t - IZR k) * (66200 - (t + IZR k)) >= 0) by nra.
    nra.
  - assert (G : (IZR k + 1 - t) * (IZR k + 1 + t) >= 1 / 2) by nra.
    assert (G' : (IZR k + 1 - t) * (66201 - (IZR k + 1 + t)) >= 0) by nra.
    nra.
Qed.

Lemma u64_eq : u64 = / 9007199254740992.
Proof. reflexivity. Qed.

(** The quotient as the program computes it is near the exact one. *)
Lemma half_width_error (rnd : R -> R) (r : Z) :
  double rnd -> (Z.abs r <= 46340)%Z ->
  Rabs (rnd (rnd (IZR r) / rnd (sqrt 2)) - IZR r / sqrt 2) <= / 524288.
Proof.
  intros [DE DI] Hr.
  destruct sqrt2_bounds as (Q & W1 & W2).
  destruct eta64_tiny as (E0 & E1). pose proof DBL_MAX_ge as MX.
  rewrite u64_eq in DE.
  rewrite (DI r) by lia.
  assert (R1 : Rabs (IZR r) <= 46340).
  { rewrite <- abs_IZR. apply IZR_le. exact Hr. }
  assert (Aw : Rabs (sqrt 2) = sqrt 2) by (apply Rabs_pos_eq; lra).
  assert (D1 : Rabs (rnd (sqrt 2) - sqrt 2) <= / 9007199254740992 * sqrt 2 + eta64).
  { rewrite <- Aw at 3. apply DE. rewrite Aw. lra. }
  apply Rabs_le_bounds in D1.
  set (w := sqrt 2) in *. set (w' := rnd w) in *.
  assert (W' : 139 / 100 < w' < 151 / 100) by lra.
  assert (I' : 0 < / w' < 100 / 139).
  { split; [apply Rinv_0_lt_compat; lra |].
    rewrite <- (Rinv_inv (100 / 139)). apply Rinv_lt_contravar; [| lra].
    apply Rmult_lt_0_compat; lra. }
  assert (I : 0 < / w < 5 / 7).
  { split; [apply Rinv_0_lt_compat; lra |].
    rewrite <- (Rinv_inv (5 / 7)). apply Rinv_lt_contravar; [| lra].
    apply Rmult_lt_0_compat; lra. }
  assert (X : IZR r / w' - IZR r / w = IZR r * ((w - w') * (/ w * / w'))).
  { field. lra. }
  assert (X1 : Rabs ((w - w') * (/ w * / w')) <= / 1125899906842624).
  { rewrite Rabs_mult, (Rabs_pos_eq (/ w * / w')) by nra.
    assert (Rabs (w - w') <= / 2251799813685248).
    { apply Rabs_le. lra. }
    assert (/ w * / w' <= 1) by nra.
    pose proof (Rabs_pos (w - w')).
    apply Rle_trans with (Rabs (w - w') * 1); [| lra].
    apply Rmult_le_compat_l; assumption. }
  assert (X2 : Rabs (IZR r / w' - IZR r / w) <= 46340 * / 1125899906842624).
  { rewrite X, Rabs_mult.
    apply Rmult_le_compat; [apply Rabs_pos | apply Rabs_pos | lra | lra]. }
  assert (X3 : Rabs (IZR r / w') <= 46340).
  { unfold Rdiv. rewrite Rabs_mult, (Rabs_pos_eq (/ w')) by lra.
    pose proof (Rabs_pos (IZR r)).
    apply Rle_trans with (Rabs (IZR r) * 1); [| lra].
    apply Rmult_le_compat_l; lra. }
  assert (D2 : Rabs (rnd (IZR r / w') - IZR r / w')
               <= / 9007199254740992 * Rabs (IZR r / w') + eta64).
  { apply DE. lra. }
  set (x := IZR r / w') in *. set (t := IZR r / w) in *.
  replace (rnd x - t) with ((rnd x - x) + (x - t)) by ring.
  pose proof (Rabs_triang (rnd x - x) (x - t)). lra.
Qed.

Lemma half_width_fl (rnd : R -> R) (r : Z) :
  double rnd -> (Z.abs r <= 46340)%Z ->
  ftoi (rnd (rnd (IZR r) / rnd (sqrt 2))) = ftoi (IZR r / sqrt 2).
Proof.
  intros D Hr. pose proof (half_width_error rnd r D Hr) as He.
  apply Rabs_le_bounds in He.
  destruct (Z.lt_trichotomy r 0) as [L | [L | L]].
  - destruct (half_width_gap (- r) ltac:(lia)) as (K0 & K1 & K2).
    set (k := ftoi (IZR (- r) / sqrt 2)) in *.
    assert (O : IZR (- r) / sqrt 2 = - (IZR r / sqrt 2)).
    { rewrite opp_IZR. unfold Rdiv. ring. }
    rewrite O in K1, K2.
    transitivity (- k)%Z; [| symmetry];
      apply ftoi_in_neg; try lia; rewrite opp_IZR; lra.
  - subst r. destruct D as [DE DI]. rewrite (DI 0%Z) by lia.
    unfold Rdiv. rewrite !Rmult_0_l. rewrite (DI 0%Z) by lia. reflexivity.
  - destruct (half_width_gap r ltac:(lia)) as (K0 & K1 & K2).
    set (k := ftoi (IZR r / sqrt 2)) in *.
    apply ftoi_in; [exact K0 | lra].
Qed.

(** The square root as the program computes it has the integer part of
    the exact one. *)
Lemma ftoi_sqrt_fl (rnd : R -> R) (N : Z) :
  double rnd -> (0 <= N <= 2147483647)%Z ->
  ftoi (rnd (sqrt (rnd (IZR N)))) = ftoi (sqrt (IZR N)).
Proof.
  intros [DE DI] HN. rewrite (DI N) by lia.
  destruct (ftoi_sqrt N ltac:(lia)) as (S0 & S1 & S2).
  set (s := ftoi (sqrt (IZR N))) in *.
  assert (Sb : (s <= 46340)%Z) by nia.
  destruct (Z.eq_dec N (s * s)) as [E | E].
  - assert (Q : sqrt (IZR N) = IZR s).
    { rewrite E, mult_IZR. apply sqrt_square. apply IZR_le. exact S0. }
    rewrite Q, (DI s) by lia. apply ftoi_in; [exact S0 | lra].
  - destruct eta64_tiny as (E0 & E1). pose proof DBL_MAX_ge as MX.
    rewrite u64_eq in DE.
    assert (N0 : 0 <= IZR N) by (apply IZR_le; lia).
    pose proof (sqrt_sqrt (IZR N) N0) as Q.
    pose proof (sqrt_pos (IZR N)) as P.
    set (y := sqrt (IZR N)) in *.
    assert (I1 : (s * s + 1 <= N)%Z) by lia.
    assert (I2 : (N + 1 <= (s + 1) * (s + 1))%Z) by lia.
    apply IZR_le in I1, I2, S0, Sb.
    rewrite plus_IZR, mult_IZR in I1. rewrite !plus_IZR, mult_IZR, plus_IZR in I2.
    assert (Y : IZR s <= y < IZR s + 1) by nra.
    assert (G1 : IZR s + / 131072 <= y).
    { assert (G : (y - IZR s) * (y + IZR s) >= 1) by nra.
      assert (G' : (y - IZR s) * (92682 - (y + IZR s)) >= 0) by nra.
      nra. }
    assert (G2 : y <= IZR s + 1 - / 131072).
    { assert (G : (IZR s + 1 - y) * (IZR s + 1 + y) >= 1) by nra.
      assert (G' : (IZR s + 1 - y) * (92683 - (IZR s + 1 + y)) >= 0) by nra.
      nra. }
    assert (Ay : Rabs y = y) by (apply Rabs_pos_eq; lra).
    assert (D1 : Rabs (rnd y - y) <= / 9007199254740992 * y + eta64).
    { rewrite <- Ay at 3. apply DE. rewrite Ay. lra. }
    apply Rabs_le_bounds in D1.
    apply ftoi_in; [apply le_IZR; exact S0 | lra].
Qed.

Lemma fold_left_ext {A B : Type} (g g' : A -> B -> A) (l : list B) (a : A) :
  (forall a b, g a b = g' a b) -> fold_left g l a = fold_left g' l a.
Proof.
  intros H. revert a. induction l as [| b l IH]; intros a; [reflexivity |].
  cbn [fold_left]. rewrite H. apply IH.
Qed.

Lemma traverse_circle_fl_exact {E : Type} (rnd : R -> R) (cx cy r : Z)
    (f : Z -> Z -> E -> E) (e : E) :
  double rnd -> (Z.abs r <= 46340)%Z ->
  traverse_circle_fl rnd cx cy r f e = traverse_circle cx cy r f e.
Proof.
  intros D Hr. unfold traverse_circle_fl, traverse_circle. cbv zeta.
  rewrite (half_width_fl rnd r D Hr).
  apply fold_left_ext. intros a i. destruct a as [a |]; [| reflexivity].
  cbn [bind]. destruct (r * r - i * i <? 0)%Z eqn:Hn; [reflexivity |].
  apply Z.ltb_ge in Hn.
  rewrite (ftoi_sqrt_fl rnd (r * r - i * i) D ltac:(nia)). reflexivity.
Qed.

(** X22: for a centre with coordinates of magnitude at most 2^30 and a
    radius of magnitude at most 46340, the largest whose square is an
    [int], and with the quotient and the square roots computed in double
    precision, [traverse_circle] never takes the square root of a negative
    number.  With [h] the integer part of [r / sqrt 2] it calls the
    callback [4 (2 h + 1)] times (not at all when [h] is negative), each
    time on a pixel whose coordinates are [int]s, that is inside the circle
    or on it, and so near to it that the pixel one step further out in both
    directions is outside. *)
Theorem traverse_circle_pixels {E : Type} (rnd : R -> R) (cx cy r : Z)
    (f : Z -> Z -> E -> E) (e : E) :
  double rnd ->
  (Z.abs r <= 46340)%Z ->
  (Z.abs cx <= 1073741824)%Z -> (Z.abs cy <= 1073741824)%Z ->
  exists log : list (Z * Z),
    traverse_circle_fl rnd cx cy r f e = Some (plot_all f log e) /\
    Z.of_nat (length log)
      = Z.max 0 (4 * (2 * ftoi (IZR r / sqrt 2) + 1)) /\
    forall x y : Z, In (x, y) log ->
      (Z.abs x <= 2147483647)%Z /\ (Z.abs y <= 2147483647)%Z /\
      ((x - cx) * (x - cx) + (y - cy) * (y - cy) <= r * r)%Z /\
      (r * r < (Z.abs (x - cx) + 1) * (Z.abs (x - cx) + 1)
               + (Z.abs (y - cy) + 1) * (Z.abs (y - cy) + 1))%Z.
Proof.
  intros D Hr Hx Hy.
  rewrite (traverse_circle_fl_exact rnd cx cy r f e D Hr).
  destruct (traverse_circle_spec cx cy r f e) as (log & E1 & E2 & E3).
  exists log. split; [exact E1 |]. split; [exact E2 |].
  intros x y Hin. destruct (E3 x y Hin) as (C1 & C2).
  assert (Rr : (r * r <= 46340 * 46340)%Z).
  { rewrite <- (Z.abs_square r). apply Z.mul_le_mono_nonneg; lia. }
  assert (Bx : (Z.abs (x - cx) <= 46340)%Z).
  { apply Z.square_le_simpl_nonneg; [lia |]. rewrite Z.abs_square.
    pose proof (Z.square_nonneg (y - cy)). lia. }
  assert (By : (Z.abs (y - cy) <= 46340)%Z).
  { apply Z.square_le_simpl_nonneg; [lia |]. rewrite Z.abs_square.
    pose proof (Z.square_nonneg (x - cx)). lia. }
  split; [lia |]. split; [lia |]. split; [exact C1 | exact C2].
Qed.

(** ** The order of the points *)

(** X26: the hull does not depend on the order in which the points are
    given: two arrays whose first points are the same up to their order
    give the same count and the same hull. *)
Theorem hull_order_independent (x x' : list point) (n n' : nat) :
  Permutation (firstn n x) (firstn n' x') ->
  fst (do_the_andrew_parkour x n) = fst (do_the_andrew_parkour x' n').
Proof.
  intros Hp.
  assert (E : qsort (firstn n x) compare_points_lexicographically
              = qsort (firstn n' x') compare_points_lexicographically).
  { apply qsort_unique; [apply qsort_sorted |].
    apply Permutation_trans with (firstn n' x');
      [apply qsort_Permutation | apply Permutation_sym; exact Hp]. }
  unfold do_the_andrew_parkour. cbv zeta. rewrite E. reflexivity.
Qed.

(** ** The hull has no point twice *)

Lemma left_turns_suffix (l1 l2 : list point) :
  left_turns (l1 ++ l2) -> left_turns l2.
Proof.
  induction l1 as [| a l1 IH]; [intros H; exact H |].
  intros H. apply IH. exact (left_turns_tail a (l1 ++ l2) H).
Qed.

Lemma det_same_l (a c : point) : det a a c = 0.
Proof. change (@eq R (det a a c) 0). unfold det. simpl. ring. Qed.

(** In a list of three or more points that turns left at each inner one,
    two points in a row are different. *)
Lemma left_turns_neighbours (L l1 l2 : list point) (b a : point) :
  left_turns L -> (3 <= length L)%nat -> L = l1 ++ b :: a :: l2 -> b <> a.
Proof.
  intros HT HL -> E. subst b.
  destruct l2 as [| a' l2].
  - destruct (exists_last (l := l1)) as (l1' & c & ->).
    { intros ->. simpl in HL. lia. }
    rewrite <- app_assoc in HT. apply left_turns_suffix in HT.
    simpl in HT. destruct HT as [HT _]. rewrite det_same_l in HT. lra.
  - apply left_turns_suffix in HT. simpl in HT. destruct HT as [HT _].
    rewrite det_same in HT. lra.
Qed.

Lemma sorted_NoDup (side : point -> Prop)
    (side_antisym : forall a b : point,
                      side (vsub a b) -> side (vsub b a) -> a = b)
    (L : list point) :
  StronglySorted (fun p q => side (vsub p q)) L ->
  (forall (l1 l2 : list point) (b a : point),
      L = l1 ++ b :: a :: l2 -> b <> a) ->
  NoDup L.
Proof.
  induction L as [| p L IH]; intros Hs Hn; [constructor |].
  inversion Hs as [| ? ? Hs' Hf]; subst.
  constructor.
  - intros Hp. apply in_split in Hp. destruct Hp as (l1 & l2 & ->).
    destruct l1 as [| q l1].
    + exact (Hn [] l2 p p eq_refl eq_refl).
    + assert (R1 : side (vsub p q)).
      { exact (proj1 (Forall_forall _ _) Hf q (or_introl eq_refl)). }
      assert (R2 : side (vsub q p)).
      { inversion Hs' as [| ? ? _ Hf']; subst.
        apply (proj1 (Forall_forall _ _) Hf').
        apply in_or_app. right. left. reflexivity. }
      pose proof (side_antisym p q R1 R2) as Epq. subst q.
      exact (Hn [] (l1 ++ p :: l2) p p eq_refl eq_refl).
  - apply IH; [exact Hs' |]. intros l1 l2 b a E.
    apply (Hn (p :: l1) l2 b a). rewrite E. reflexivity.
Qed.

Lemma chain_NoDup (side : point -> Prop)
    (side_antisym : forall a b : point,
                      side (vsub a b) -> side (vsub b a) -> a = b)
    (t b : point) (V : list point) :
  chain side (t :: V ++ [b]) -> t <> b -> NoDup (t :: V ++ [b]).
Proof.
  intros [Hs Ht] Htb. apply (sorted_NoDup side side_antisym); [exact Hs |].
  intros l1 l2 p q E.
  destruct V as [| v V].
  - destruct l1 as [| ? [| ? l1]]; simpl in E.
    + injection E as <- <- _. exact Htb.
    + injection E as _ E. discriminate.
    + injection E as _ E. destruct l1; discriminate.
  - apply (left_turns_neighbours _ l1 l2 p q Ht); [| exact E].
    simpl. rewrite length_app. simpl. lia.
Qed.

(** In exact arithmetic the hull of points that are not all the same names
    no point twice, apart from the first. *)
Lemma hull_no_repeats_exact (x : list point) (n : nat) :
  (exists p q : point,
      In p (firstn n x) /\ In q (firstn n x) /\ p <> q) ->
  NoDup (removelast (snd (fst (do_the_andrew_parkour x n)))).
Proof.
  intros (p & q & Hp & Hq & Hpq).
  apply In_qsort in Hp, Hq.
  pose proof (qsort_sorted (firstn n x)) as Hs.
  destruct (do_the_andrew_parkour_cases x n)
    as [[E Ey] | [(x0 & E & Ey) | (x0 & xl & mid & V & W & E & Ey & IV & IW)]];
    rewrite E in Hp, Hq, Hs.
  - destruct Hp.
  - destruct Hp as [<- | []], Hq as [<- | []]. contradiction Hpq. reflexivity.
  - rewrite Ey.
    assert (H0l : x0 <> xl).
    { intros <-. apply Hpq.
      destruct (In_sorted_ends x0 x0 p mid Hs Hp) as [A1 A2].
      destruct (In_sorted_ends x0 x0 q mid Hs Hq) as [B1 B2].
      rewrite <- (lex_le_antisym _ _ A1 A2).
      exact (lex_le_antisym _ _ B1 B2). }
    destruct IV as (CV & _). destruct IW as (CW & _).
    pose proof (chain_NoDup lex_nonneg lex_nonneg_antisym xl x0 V CV
                  (fun E0 => H0l (eq_sym E0))) as NV.
    pose proof (chain_NoDup lex_nonpos lex_nonpos_antisym x0 xl W CW H0l)
      as NW.
    assert (FV : forall v : point, In v V -> det x0 xl v < 0).
    { intros v Hv.
      exact (chain_inner_det lex_nonneg lex_nonneg_trans xl V v x0 CV Hv). }
    assert (FW : forall w : point, In w W -> 0 < det x0 xl w).
    { intros w Hw.
      pose proof (chain_inner_det lex_nonpos lex_nonpos_trans x0 W w xl CW Hw)
        as G.
      rewrite (det_swap x0 xl w) in G. lra. }
    apply NoDup_cons_iff in NV. destruct NV as [NV1 NV].
    apply NoDup_cons_iff in NW. destruct NW as [NW1 NW].
    assert (NV2 : NoDup V /\ ~ In x0 V).
    { split.
      - exact (NoDup_app_remove_r _ _ NV).
      - intros Hin. apply NoDup_remove_2 in NV. rewrite app_nil_r in NV.
        contradiction. }
    assert (NW2 : NoDup W /\ ~ In xl W).
    { split.
      - exact (NoDup_app_remove_r _ _ NW).
      - intros Hin. apply NoDup_remove_2 in NW. rewrite app_nil_r in NW.
        contradiction. }
    destruct NV2 as [NVd NV0]. destruct NW2 as [NWd NWl].
    assert (NVl : ~ In xl V).
    { intros Hin. apply NV1. apply in_or_app. left. exact Hin. }
    assert (NW0 : ~ In x0 W).
    { intros Hin. apply NW1. apply in_or_app. left. exact Hin. }
    replace (x0 :: rev V ++ xl :: rev W ++ [x0])
      with ((x0 :: rev V ++ xl :: rev W) ++ [x0])
      by (simpl; rewrite <- app_assoc; reflexivity).
    rewrite removelast_last.
    apply NoDup_cons_iff. split.
    + intros Hin. apply in_app_or in Hin.
      destruct Hin as [Hin | [Hin | Hin]].
      * apply NV0. apply in_rev. exact Hin.
      * apply H0l. symmetry. exact Hin.
      * apply NW0. apply in_rev. exact Hin.
    + apply NoDup_app.
      * apply NoDup_rev. exact NVd.
      * apply NoDup_cons_iff. split.
        -- intros Hin. apply NWl. apply in_rev. exact Hin.
        -- apply NoDup_rev. exact NWd.
      * intros a Ha [<- | Hb].
        -- apply NVl. apply in_rev. exact Ha.
        -- apply in_rev in Ha, Hb.
           pose proof (FV a Ha). pose proof (FW a Hb). lra.
Qed.

(** ** The hull of grid points, as the program computes it *)

Lemma triangle_grid : Forall grid_point (firstn 3 [(0, 0); (2, 0); (1, 1)]).
Proof.
  cbn [firstn]. repeat constructor.
  - exists 0%Z, 0%Z. split; [reflexivity | lia].
  - exists 2%Z, 0%Z. split; [reflexivity | lia].
  - exists 1%Z, 1%Z. split; [reflexivity | lia].
Qed.

Lemma in_edges (y : list point) (a b : point) :
  In (a, b) (edges y) -> In a y /\ In b y.
Proof.
  unfold edges. intros H. split.
  - exact (in_combine_l _ _ _ _ H).
  - apply in_combine_r in H. destruct y; [destruct H | right; exact H].
Qed.

(** X2: for grid points, on which the rounded [det] is the exact one, the
    hull that [do_the_andrew_parkour] writes contains the input: every one
    of the first [n] input points is on or to the left of every side. *)
Theorem hull_contains_input (rnd : R -> R) (x : list point) (n : nat)
  (a b q : point) :
  single rnd -> Forall grid_point (firstn n x) ->
  In (a, b) (edges (snd (fst (do_the_andrew_parkour_fl rnd x n)))) ->
  In q (firstn n x) ->
  0 <= det a b q /\ 0 <= det_fl rnd a b q.
Proof.
  intros S G He Hq.
  rewrite (do_the_andrew_parkour_fl_grid rnd x n S G) in He.
  pose proof (hull_contains_input_exact x n a b q He Hq) as D.
  split; [exact D |].
  rewrite det_fl_grid; [exact D | exact S | | |].
  - apply (proj1 (Forall_forall _ _) G). apply (hull_In x n).
    exact (proj1 (in_edges _ _ _ He)).
  - apply (proj1 (Forall_forall _ _) G). apply (hull_In x n).
    exact (proj2 (in_edges _ _ _ He)).
  - apply (proj1 (Forall_forall _ _) G). exact Hq.
Qed.

Lemma hull_contains_input_witness :
  In ((2, 0), (1, 1))
    (edges (snd (fst (do_the_andrew_parkour_fl binary32
                        [(0, 0); (2, 0); (1, 1)] 3)))) /\
  In (0, 0) (firstn 3 [(0, 0); (2, 0); (1, 1)]) /\
  0 <= det (2, 0) (1, 1) (0, 0) /\
  0 <= det_fl binary32 (2, 0) (1, 1) (0, 0).
Proof.
  assert (H : In ((2, 0), (1, 1))
                (edges (snd (fst (do_the_andrew_parkour_fl binary32
                                    [(0, 0); (2, 0); (1, 1)] 3))))).
  { rewrite (do_the_andrew_parkour_fl_grid binary32 _ 3 binary32_single
               triangle_grid), triangle_hull.
    simpl. tauto. }
  assert (Hq : In (0, 0) (firstn 3 [(0, 0); (2, 0); (1, 1)])).
  { simpl. tauto. }
  split; [exact H |]. split; [exact Hq |].
  exact (hull_contains_input binary32 [(0, 0); (2, 0); (1, 1)] 3
           (2, 0) (1, 1) (0, 0) binary32_single triangle_grid H Hq).
Defined.

(** X3: for grid points, a hull of four or more entries turns strictly to
    the left at every one of its corners, the first point included (the
    corner there is between the entry before the closing one and the second
    entry): no three consecutive hull points are on a line, and the hull
    runs counterclockwise. *)
Theorem hull_turns_left (rnd : R -> R) (x : list point) (n : nat) :
  single rnd -> Forall grid_point (firstn n x) ->
  (4 <= fst (fst (do_the_andrew_parkour_fl rnd x n)))%Z ->
  convex_path (snd (fst (do_the_andrew_parkour_fl rnd x n))
                 ++ firstn 1
                      (tl (snd (fst (do_the_andrew_parkour_fl rnd x n))))).
Proof.
  intros S G H. rewrite (do_the_andrew_parkour_fl_grid rnd x n S G) in *.
  exact (hull_turns_left_exact x n H).
Qed.

Lemma hull_turns_left_witness :
  Z.le 4 (fst (fst (do_the_andrew_parkour_fl binary32
                      [(0, 0); (2, 0); (1, 1)] 3))) /\
  convex_path
    (snd (fst (do_the_andrew_parkour_fl binary32 [(0, 0); (2, 0); (1, 1)] 3))
       ++ firstn 1
            (tl (snd (fst (do_the_andrew_parkour_fl binary32
                             [(0, 0); (2, 0); (1, 1)] 3))))).
Proof.
  assert (H : Z.le 4 (fst (fst (do_the_andrew_parkour_fl binary32
                                  [(0, 0); (2, 0); (1, 1)] 3)))).
  { rewrite (do_the_andrew_parkour_fl_grid binary32 _ 3 binary32_single
               triangle_grid), triangle_hull.
    simpl. lia. }
  split; [exact H |].
  exact (hull_turns_left binary32 [(0, 0); (2, 0); (1, 1)] 3 binary32_single
           triangle_grid H).
Defined.

(** X29: the hull of grid points that are not all the same names no point
    twice, apart from the first, which is repeated at the end. *)
Theorem hull_no_repeats (rnd : R -> R) (x : list point) (n : nat) :
  single rnd -> Forall grid_point (firstn n x) ->
  (exists p q : point,
      In p (firstn n x) /\ In q (firstn n x) /\ p <> q) ->
  NoDup (removelast (snd (fst (do_the_andrew_parkour_fl rnd x n)))).
Proof.
  intros S G H. rewrite (do_the_andrew_parkour_fl_grid rnd x n S G).
  exact (hull_no_repeats_exact x n H).
Qed.

Lemma hull_no_repeats_witness :
  (exists p q : point,
      In p (firstn 3 [(0, 0); (2, 0); (1, 1)]) /\
      In q (firstn 3 [(0, 0); (2, 0); (1, 1)]) /\ p <> q) /\
  NoDup (removelast
           (snd (fst (do_the_andrew_parkour_fl binary32
                        [(0, 0); (2, 0); (1, 1)] 3)))).
Proof.
  assert (H : exists p q : point,
             In p (firstn 3 [(0, 0); (2, 0); (1, 1)]) /\
             In q (firstn 3 [(0, 0); (2, 0); (1, 1)]) /\ p <> q).
  { exists (0, 0), (2, 0). simpl. split; [tauto |]. split; [tauto |].
    intros E. injection E as E. lra. }
  split; [exact H |].
  exact (hull_no_repeats binary32 [(0, 0); (2, 0); (1, 1)] 3 binary32_single
           triangle_grid H).
Defined.

End pkatz.

(** ** Evaluation in single precision

    [pow2] turns the powers of two of the goal into numerals; [b32 x e m]
    rewrites [binary32 x] to [m * 2^e], given the exponent [e] of the last
    place and the significand [m]. *)

Ltac pow2 :=
  repeat match goal with
  | |- context [powerRZ 2 ?z] =>
      let z' := eval vm_compute in z in
      change (powerRZ 2 z) with (powerRZ 2 z');
      match z' with
      | Z0 => change (powerRZ 2 0) with 1
      | Z.pos ?p => rewrite (pow2_pos_num p);
          let v := eval vm_compute in (2 ^ Z.pos p)%Z in
          change (2 ^ Z.pos p)%Z with v
      | Z.neg ?p => rewrite (pow2_neg_num p);
          let v := eval vm_compute in (2 ^ Z.pos p)%Z in
          change (2 ^ Z.pos p)%Z with v
      end
  end.

Ltac lrint_at m :=
  pow2;
  first
    [ apply lrint_eq; lra
    | match goal with
      | |- lrint ?a = _ =>
          let m' := eval vm_compute in (m - 1)%Z in
          first
            [ replace a with (IZR m + 1 / 2) by lra;
              rewrite lrint_tie; reflexivity
            | replace a with (IZR m' + 1 / 2) by lra;
              rewrite lrint_tie; reflexivity ]
      end ].

Ltac abs_at := first [rewrite Rabs_pos_eq by lra | rewrite Rabs_neg by lra].

Ltac b32 x e m :=
  rewrite (binary32_eval x e m);
  [ pow2
  | lia
  | abs_at; pow2; lra
  | first [ left; reflexivity | right; abs_at; pow2; lra ]
  | lrint_at m ].

(** ** The hull computation in single precision *)





(** ** The zoom in single precision *)

Ltac b32z x z :=
  replace (binary32 x) with (IZR z)
    by (replace x with (IZR z) by lra; rewrite binary32_int by lia;
        reflexivity).

Lemma binary32_ZOOM_FACTOR : binary32 ZOOM_FACTOR = 11995709 / 8388608.
Proof.
  unfold ZOOM_FACTOR. b32 (143 / 100) (-23)%Z 11995709%Z. lra.
Qed.

Lemma panned_window_view :
  scale (userdata panned_window) = 1 /\
  offset (userdata panned_window) = (0, 490) /\
  w panned_window = 800%Z /\ h panned_window = 600%Z.
Proof. repeat split; reflexivity. Qed.

(** C7, as stated, fails in the arithmetic of the program: with the view
    490 pixels down, the view point shown at the window centre (400, 300)
    is (400, -190); after '+' it is shown one unit in the last place
    above the centre. *)
Lemma event_key_plus_zoom_counterexample :
  exists (f' : FTR.t) (center : point),
    map_window_to_view_fl binary32 (userdata panned_window) (400, 300)
    = Some center /\
    map_view_to_window_fl binary32 (userdata panned_window) center
    = (400, 300) /\
    event_key_fl ftr_h.FTR_KEY_DOWN ftr_h.FTR_KEY_UP ftr_h.FTR_KEY_RIGHT
      ftr_h.FTR_KEY_LEFT binary32 panned_window (chr "+") 0 0 0 = Some f' /\
    snd (map_view_to_window_fl binary32 (userdata f') center)
    = 9830399 / 32768 /\
    map_view_to_window_fl binary32 (userdata f') center <> (400, 300).
Proof.
  assert (Hs : scale (userdata panned_window) <> 0) by (simpl; lra).
  assert (KD : ftr_h.FTR_KEY_DOWN <> chr "+") by (vm_compute; discriminate).
  assert (KU : ftr_h.FTR_KEY_UP <> chr "+") by (vm_compute; discriminate).
  assert (KR : ftr_h.FTR_KEY_RIGHT <> chr "+") by (vm_compute; discriminate).
  assert (KL : ftr_h.FTR_KEY_LEFT <> chr "+") by (vm_compute; discriminate).
  destruct (event_key_fl_plus ftr_h.FTR_KEY_DOWN ftr_h.FTR_KEY_UP
              ftr_h.FTR_KEY_RIGHT ftr_h.FTR_KEY_LEFT binary32 panned_window
              0 0 0 KD KU KR KL Hs) as (f' & Hf & Hsc & Hoff).
  cbv zeta in Hsc, Hoff.
  exists f', (400, -190).
  destruct panned_window_view as (Vs & Vo & Vw & Vh).
  assert (C : map_window_to_view_fl binary32 (userdata panned_window)
                (400, 300) = Some (400, -190)).
  { rewrite (map_window_to_view_fl_defined _ _ _ Hs). rewrite Vs, Vo.
    cbn [fst snd].
    b32z (400 - 0) 400%Z. b32z (400 / 1) 400%Z.
    b32z (300 - 490) (-190)%Z. b32z (-190 / 1) (-190)%Z.
    reflexivity. }
  assert (E : snd (map_view_to_window_fl binary32 (userdata f') (400, -190))
              = 9830399 / 32768).
  { unfold map_view_to_window_fl. rewrite Hsc, Hoff. cbn [fst snd].
    rewrite Vs, Vo, Vh. cbn [fst snd].
    change (Z.quot 600 2) with 300%Z.
    rewrite binary32_ZOOM_FACTOR.
    b32z (IZR 300) 300%Z.
    b32z (300 - 490) (-190)%Z. b32z (-190 / 1) (-190)%Z.
    b32 (1 * (11995709 / 8388608)) (-23)%Z 11995709%Z.
    match goal with |- context [binary32 (- -190 * ?s)] =>
      replace (- -190 * s) with (1139592355 / 4194304) by lra end.
    b32 (1139592355 / 4194304) (-15)%Z 8903065%Z.
    match goal with |- context [binary32 (?a + 300)] =>
      replace (a + 300) with (18733465 / 32768) by lra end.
    b32 (18733465 / 32768) (-14)%Z 9366732%Z.
    match goal with |- context [binary32 (?s * -190)] =>
      replace (s * -190) with (- (1139592355 / 4194304)) by lra end.
    b32 (- (1139592355 / 4194304)) (-15)%Z (-8903065)%Z.
    match goal with |- context [binary32 (?a + ?b)] =>
      replace (a + b) with (9830399 / 32768) by lra end.
    b32 (9830399 / 32768) (-15)%Z 9830399%Z. lra. }
  split; [exact C |].
  split.
  { unfold map_view_to_window_fl. rewrite Vs, Vo. cbn [fst snd].
    b32z (1 * 400) 400%Z. b32z (0 + 400) 400%Z.
    b32z (1 * -190) (-190)%Z. b32z (490 + -190) 300%Z. reflexivity. }
  split; [exact Hf |].
  split; [exact E |].
  intros N. apply (f_equal snd) in N. rewrite E in N. cbn [snd] in N. lra.
Qed.

(** ** The round trip in single precision *)

Lemma zoomed_view_view :
  scale zoomed_view = 11995709 / 8388608 /\
  offset zoomed_view = (-172, - (4227071 / 32768)).
Proof. split; reflexivity. Qed.

Lemma far_view_view :
  scale far_view = / 1048576 /\ offset far_view = (400, 300).
Proof. split; reflexivity. Qed.

(** C6, as stated, fails in the arithmetic of the program: in a view
    zoomed out far enough the window coordinate of a point is rounded to
    that of the origin, and the round trip takes (1, 1) to (0, 0). *)
Lemma round_trip_counterexample :
  scale far_view <> 0 /\
  map_window_to_view_fl binary32 far_view
    (map_view_to_window_fl binary32 far_view (1, 1)) = Some (0, 0) /\
  map_window_to_view_fl binary32 far_view
    (map_view_to_window_fl binary32 far_view (1, 1)) <> Some (1, 1).
Proof.
  destruct far_view_view as (Vs & Vo).
  assert (Hs : scale far_view <> 0) by (rewrite Vs; lra).
  assert (E : map_window_to_view_fl binary32 far_view
                (map_view_to_window_fl binary32 far_view (1, 1))
              = Some (0, 0)).
  { rewrite (map_window_to_view_fl_defined _ _ _ Hs).
    unfold map_view_to_window_fl. rewrite Vs, Vo. cbn [fst snd].
    b32 (/ 1048576 * 1) (-43)%Z 8388608%Z.
    match goal with |- context [binary32 (400 + ?a)] =>
      replace (400 + a) with (400 + / 1048576) by lra end.
    b32 (400 + / 1048576) (-15)%Z 13107200%Z.
    match goal with |- context [binary32 (300 + ?a)] =>
      replace (300 + a) with (300 + / 1048576) by lra end.
    b32 (300 + / 1048576) (-15)%Z 9830400%Z.
    match goal with |- context [binary32 (?a - 400)] =>
      replace (a - 400) with 0 by lra end.
    match goal with |- context [binary32 (?a - 300)] =>
      replace (a - 300) with 0 by lra end.
    b32z 0 0%Z. b32z (0 / / 1048576) 0%Z. reflexivity. }
  split; [exact Hs |]. split; [exact E |].
  rewrite E. intros N. injection N as N _. lra.
Qed.

(** In single precision the round trip is not exact: in the view zoomed
    once it takes (0, 1/2) to (0, 0.49999747). *)
Lemma round_trip_binary32 :
  map_window_to_view_fl binary32 zoomed_view
    (map_view_to_window_fl binary32 zoomed_view (0, 1 / 2))
  = Some (0, 16777131 / 33554432).
Proof.
  destruct zoomed_view_view as (Vs & Vo).
  assert (Hs : scale zoomed_view <> 0) by (rewrite Vs; lra).
  rewrite (map_window_to_view_fl_defined _ _ _ Hs).
  unfold map_view_to_window_fl. rewrite Vs, Vo. cbn [fst snd].
  b32z (11995709 / 8388608 * 0) 0%Z.
  b32z (-172 + 0) (-172)%Z. b32z (-172 - -172) 0%Z.
  b32z (0 / (11995709 / 8388608)) 0%Z.
  b32 (11995709 / 8388608 * (1 / 2)) (-24)%Z 11995709%Z.
  match goal with |- context [binary32 (- (4227071 / 32768) + ?a)] =>
    replace (- (4227071 / 32768) + a) with (- (2152264643 / 16777216))
      by lra end.
  b32 (- (2152264643 / 16777216)) (-16)%Z (-8407284)%Z.
  match goal with |- context [binary32 (?a - - (4227071 / 32768))] =>
    replace (a - - (4227071 / 32768)) with (23429 / 32768) by lra end.
  b32 (23429 / 32768) (-24)%Z 11995648%Z.
  match goal with |- context [binary32 (?a / (11995709 / 8388608))] =>
    replace (a / (11995709 / 8388608)) with (5997824 / 11995709) by lra end.
  b32 (5997824 / 11995709) (-25)%Z 16777131%Z.
  reflexivity.
Qed.

(** ** Segments in single precision *)

(** C10, as stated, fails in the arithmetic of the program: an integer
    above 2^24 need not be a [float], and the walk along y from
    (16777217, 0) to (16777217, 3) plots neither end point. *)
Lemma traverse_segment_counterexample :
  exists log : list (Z * Z),
    traverse_segment_fl binary32 2 16777217 0 16777217 3 record_pixel []
    = Some log /\
    log = [(16777216, 0); (16777216, 1); (16777216, 2); (16777216, 3)]%Z /\
    hd_error log <> Some (16777217, 0)%Z /\
    last log (16777217, 3 - 1)%Z <> (16777217, 3)%Z.
Proof.
  eexists. split; [| split; [reflexivity |]].
  - rewrite (traverse_segment_fl_ordered binary32 1 16777217 0 16777217 3
               record_pixel [] binary32_single) by lia.
    change ((16777217 =? 16777217) && (0 =? 3))%Z with false.
    change ((3 - 0 <? 16777217 - 16777217)
            || (3 - 0 <? 16777217 - 16777217))%Z with false.
    cbv beta iota zeta.
    rewrite (fold_record_pixel
               (fun j => lrint (binary32
                                  (binary32 (IZR 16777217)
                                   + binary32
                                       (binary32 (IZR j)
                                        * binary32
                                            (IZR (16777217 - 16777217)
                                             / IZR (3 - 0))))))
               (fun j => (j + 0)%Z)).
    change (16777217 - 16777217)%Z with 0%Z. change (3 - 0)%Z with 3%Z.
    b32z (0 / 3) 0%Z.
    unfold counter. change (Z.to_nat (3 + 1)) with 4%nat.
    cbn [seq map app]. rewrite !Rmult_0_r.
    b32z 0 0%Z.
    b32 (IZR 16777217) 1%Z 8388608%Z.
    b32z (8388608 * 2 + 0) 16777216%Z.
    rewrite lrint_IZR. reflexivity.
  - split.
    + cbn [hd_error]. intros H. injection H as H. lia.
    + cbn [last]. intros H. injection H as H. lia.
Qed.

(** ** The statements at concrete inputs

    The constants of [ftr.h] take the values of [ftr_h]. *)

Lemma invert_point_undefined_at_pole_witness :
  invert_point (100, 100) 400 (100, 100) = None.
Proof.
  exact (proj2 (invert_point_undefined_at_pole (100, 100) 400 (100, 100))
           eq_refl).
Defined.


Lemma map_window_to_view_of_window_witness :
  scale zoomed_view <> 0 /\
  map_window_to_view zoomed_view (map_view_to_window zoomed_view (0, 1 / 2))
  = Some (0, 1 / 2) /\
  exists q : point,
    map_window_to_view_fl binary32 zoomed_view
      (map_view_to_window_fl binary32 zoomed_view (0, 1 / 2)) = Some q /\
    Rabs (fst q - fst (0, 1 / 2))
    <= tolerance (fst (offset zoomed_view)) (scale zoomed_view)
         (fst (0, 1 / 2)) /\
    Rabs (snd q - snd (0, 1 / 2))
    <= tolerance (snd (offset zoomed_view)) (scale zoomed_view)
         (snd (0, 1 / 2)).
Proof.
  assert (H : scale zoomed_view <> 0) by (simpl; lra).
  pose proof eta_bounds as [E0 E1]. pose proof FLT_MAX_half as FM.
  assert (R0 : in_range (fst (offset zoomed_view)) (scale zoomed_view)
                 (fst (0, 1 / 2))).
  { unfold in_range. simpl.
    rewrite (Rabs_neg (-172)), (Rabs_pos_eq (11995709 / 8388608)) by lra.
    replace (11995709 / 8388608 * 0) with 0 by lra. rewrite Rabs_R0.
    lra. }
  assert (R1 : in_range (snd (offset zoomed_view)) (scale zoomed_view)
                 (snd (0, 1 / 2))).
  { unfold in_range. simpl.
    rewrite (Rabs_neg (- (4227071 / 32768))),
      (Rabs_pos_eq (11995709 / 8388608)),
      (Rabs_pos_eq (11995709 / 8388608 * (1 / 2))) by lra.
    lra. }
  destruct (map_window_to_view_of_window zoomed_view (0, 1 / 2) H) as [A B].
  exact (conj H (conj A (B binary32 binary32_single R0 R1))).
Defined.

Lemma event_key_plus_zoom_witness :
  (exists (f' : FTR.t) (center : point),
     event_key ftr_h.FTR_KEY_DOWN ftr_h.FTR_KEY_UP ftr_h.FTR_KEY_RIGHT
       ftr_h.FTR_KEY_LEFT panned_window (chr "+") 0 0 0 = Some f' /\
     map_window_to_view (userdata panned_window)
       (IZR (Z.quot (w panned_window) 2), IZR (Z.quot (h panned_window) 2))
     = Some center /\
     map_view_to_window (userdata panned_window) center
     = (IZR (Z.quot (w panned_window) 2), IZR (Z.quot (h panned_window) 2)) /\
     scale (userdata f') = scale (userdata panned_window) * ZOOM_FACTOR /\
     map_view_to_window (userdata f') center
     = (IZR (Z.quot (w panned_window) 2), IZR (Z.quot (h panned_window) 2)))
  /\
  (exists (f' : FTR.t) (center : point),
     event_key_fl ftr_h.FTR_KEY_DOWN ftr_h.FTR_KEY_UP ftr_h.FTR_KEY_RIGHT
       ftr_h.FTR_KEY_LEFT binary32 panned_window (chr "+") 0 0 0 = Some f' /\
     map_window_to_view_fl binary32 (userdata panned_window)
       (IZR (Z.quot (w panned_window) 2), IZR (Z.quot (h panned_window) 2))
     = Some center /\
     scale (userdata f')
     = binary32 (scale (userdata panned_window) * binary32 ZOOM_FACTOR) /\
     offset (userdata f')
     = (binary32 (binary32 (- fst center * scale (userdata f'))
                  + fst (IZR (Z.quot (w panned_window) 2),
                         IZR (Z.quot (h panned_window) 2))),
        binary32 (binary32 (- snd center * scale (userdata f'))
                  + snd (IZR (Z.quot (w panned_window) 2),
                         IZR (Z.quot (h panned_window) 2)))) /\
     Rabs (fst (map_view_to_window_fl binary32 (userdata f') center)
           - fst (IZR (Z.quot (w panned_window) 2),
                  IZR (Z.quot (h panned_window) 2)))
     <= zoom_tolerance
          (fst (IZR (Z.quot (w panned_window) 2),
                IZR (Z.quot (h panned_window) 2)))
          (fst center) (scale (userdata f')) /\
     Rabs (snd (map_view_to_window_fl binary32 (userdata f') center)
           - snd (IZR (Z.quot (w panned_window) 2),
                  IZR (Z.quot (h panned_window) 2)))
     <= zoom_tolerance
          (snd (IZR (Z.quot (w panned_window) 2),
                IZR (Z.quot (h panned_window) 2)))
          (snd center) (scale (userdata f'))).
Proof.
  assert (Hs : scale (userdata panned_window) <> 0) by (simpl; lra).
  assert (M : moderate panned_window).
  { unfold moderate. simpl.
    rewrite Rabs_R0, (Rabs_pos_eq 490), (Rabs_pos_eq 1) by lra.
    repeat split; try lia; lra. }
  assert (KD : ftr_h.FTR_KEY_DOWN <> chr "+") by (vm_compute; discriminate).
  assert (KU : ftr_h.FTR_KEY_UP <> chr "+") by (vm_compute; discriminate).
  assert (KR : ftr_h.FTR_KEY_RIGHT <> chr "+") by (vm_compute; discriminate).
  assert (KL : ftr_h.FTR_KEY_LEFT <> chr "+") by (vm_compute; discriminate).
  destruct (event_key_plus_zoom ftr_h.FTR_KEY_DOWN ftr_h.FTR_KEY_UP
              ftr_h.FTR_KEY_RIGHT ftr_h.FTR_KEY_LEFT panned_window 0 0 0
              KD KU KR KL) as [A B].
  exact (conj (A Hs) (B binary32 binary32_single M)).
Defined.

(** C8, as stated, fails: the secondary button pressed on the handle and
    then the primary button pressed on it lead from the initial state to a
    state with two drag flags set. *)
Lemma drag_exclusive_counterexample :
  exists f1 f2 : FTR.t,
    event_button ftr_h.FTR_BUTTON_LEFT ftr_h.FTR_BUTTON_RIGHT
      ftr_h.FTR_BUTTON_DOWN ftr_h.FTR_BUTTON_UP
      (main_pkatz_init []) ftr_h.FTR_BUTTON_RIGHT 0 100 100 = Some f1 /\
    event_button ftr_h.FTR_BUTTON_LEFT ftr_h.FTR_BUTTON_RIGHT
      ftr_h.FTR_BUTTON_DOWN ftr_h.FTR_BUTTON_UP
      f1 ftr_h.FTR_BUTTON_LEFT 0 100 100 = Some f2 /\
    reachable ftr_h.FTR_KEY_DOWN ftr_h.FTR_KEY_UP ftr_h.FTR_KEY_RIGHT
      ftr_h.FTR_KEY_LEFT ftr_h.FTR_BUTTON_LEFT ftr_h.FTR_BUTTON_RIGHT
      ftr_h.FTR_BUTTON_DOWN ftr_h.FTR_BUTTON_UP f2 /\
    drag_count (userdata f2) = 2%Z /\
    ~ (drag_count (userdata f2) <= 1)%Z.
Proof.
  assert (HLR : ftr_h.FTR_BUTTON_LEFT <> ftr_h.FTR_BUTTON_RIGHT)
    by (vm_compute; discriminate).
  assert (HL0 : ftr_h.FTR_BUTTON_LEFT <> 0%Z) by (vm_compute; discriminate).
  unfold main_pkatz_init.
  match goal with
  | |- context [center_view ?f0] =>
      destruct (two_presses_two_drags ftr_h.FTR_KEY_DOWN ftr_h.FTR_KEY_UP
                  ftr_h.FTR_KEY_RIGHT ftr_h.FTR_KEY_LEFT ftr_h.FTR_BUTTON_LEFT
                  ftr_h.FTR_BUTTON_RIGHT ftr_h.FTR_BUTTON_DOWN
                  ftr_h.FTR_BUTTON_UP f0 100 100 HLR HL0)
        as (f1 & f2 & H1 & H2 & R2 & D2)
  end.
  exists f1, f2. split; [exact H1 |]. split; [exact H2 |].
  split; [exact R2 |]. split; [exact D2 | rewrite D2; lia].
Qed.

Lemma primary_drag_exclusive_witness :
  exists f1 f2 : FTR.t,
    event_button ftr_h.FTR_BUTTON_LEFT ftr_h.FTR_BUTTON_RIGHT
      ftr_h.FTR_BUTTON_DOWN ftr_h.FTR_BUTTON_UP
      (main_pkatz_init []) ftr_h.FTR_BUTTON_RIGHT 0 100 100 = Some f1 /\
    event_button ftr_h.FTR_BUTTON_LEFT ftr_h.FTR_BUTTON_RIGHT
      ftr_h.FTR_BUTTON_DOWN ftr_h.FTR_BUTTON_UP
      f1 ftr_h.FTR_BUTTON_LEFT 0 100 100 = Some f2 /\
    session ftr_h.FTR_KEY_DOWN ftr_h.FTR_KEY_UP ftr_h.FTR_KEY_RIGHT
      ftr_h.FTR_KEY_LEFT ftr_h.FTR_BUTTON_LEFT ftr_h.FTR_BUTTON_RIGHT
      ftr_h.FTR_BUTTON_DOWN ftr_h.FTR_BUTTON_UP true f2 /\
    drag_count (userdata f2) = 2%Z /\
    dragging_window_point (userdata f2) && dragging_background (userdata f2)
    = false /\
    (true = false ->
     dragging_window_point (userdata f2) = false /\
     dragging_background (userdata f2) = false).
Proof.
  assert (HLR : ftr_h.FTR_BUTTON_LEFT <> ftr_h.FTR_BUTTON_RIGHT)
    by (vm_compute; discriminate).
  assert (HL0 : ftr_h.FTR_BUTTON_LEFT <> 0%Z) by (vm_compute; discriminate).
  unfold main_pkatz_init.
  match goal with
  | |- context [center_view ?f0] =>
      destruct (two_presses_two_drags ftr_h.FTR_KEY_DOWN ftr_h.FTR_KEY_UP
                  ftr_h.FTR_KEY_RIGHT ftr_h.FTR_KEY_LEFT ftr_h.FTR_BUTTON_LEFT
                  ftr_h.FTR_BUTTON_RIGHT ftr_h.FTR_BUTTON_DOWN
                  ftr_h.FTR_BUTTON_UP f0 100 100 HLR HL0)
        as (f1 & f2 & H1 & H2 & R2 & D2);
      pose proof (session_init ftr_h.FTR_KEY_DOWN ftr_h.FTR_KEY_UP
                    ftr_h.FTR_KEY_RIGHT ftr_h.FTR_KEY_LEFT
                    ftr_h.FTR_BUTTON_LEFT ftr_h.FTR_BUTTON_RIGHT
                    ftr_h.FTR_BUTTON_DOWN ftr_h.FTR_BUTTON_UP f0) as S0
  end.
  pose proof (session_other _ _ _ _ _ _ _ _ false _ f1
                (Button ftr_h.FTR_BUTTON_RIGHT 0 100 100) S0 eq_refl H1)
    as S1.
  pose proof (session_press _ _ _ _ _ _ _ _ _ f2 0 100 100 S1 H2) as S2.
  exists f1, f2. split; [exact H1 |]. split; [exact H2 |].
  split; [exact S2 |]. split; [exact D2 |].
  exact (primary_drag_exclusive ftr_h.FTR_KEY_DOWN ftr_h.FTR_KEY_UP
           ftr_h.FTR_KEY_RIGHT ftr_h.FTR_KEY_LEFT ftr_h.FTR_BUTTON_LEFT
           ftr_h.FTR_BUTTON_RIGHT ftr_h.FTR_BUTTON_DOWN ftr_h.FTR_BUTTON_UP
           true f2 S2).
Defined.

(** C9, as stated, fails: 'q' leaves a point drag on, and 'j' leaves a
    background drag on. *)
Lemma event_key_counterexample :
  (exists f' : FTR.t,
      event_key ftr_h.FTR_KEY_DOWN ftr_h.FTR_KEY_UP ftr_h.FTR_KEY_RIGHT
        ftr_h.FTR_KEY_LEFT
        (set_userdata
           (set_dragging_window_point true (userdata (main_pkatz_init [])))
           (main_pkatz_init []))
        (chr "q") 0 0 0 = Some f' /\
      dragging_window_point (userdata f') = true)
  /\
  (exists f' : FTR.t,
      event_key ftr_h.FTR_KEY_DOWN ftr_h.FTR_KEY_UP ftr_h.FTR_KEY_RIGHT
        ftr_h.FTR_KEY_LEFT
        (set_userdata
           (set_dragging_background true (userdata (main_pkatz_init [])))
           (main_pkatz_init []))
        (chr "j") 0 0 0 = Some f' /\
      dragging_background (userdata f') = true).
Proof.
  split; eexists; split; reflexivity.
Qed.

Lemma event_key_clears_point_drags_witness :
  chr "j" <> chr "q" /\
  scale (userdata
           (set_userdata
              (set_dragging_window_point true (userdata (main_pkatz_init [])))
              (main_pkatz_init []))) <> 0 /\
  exists f' : FTR.t,
    event_key ftr_h.FTR_KEY_DOWN ftr_h.FTR_KEY_UP ftr_h.FTR_KEY_RIGHT
      ftr_h.FTR_KEY_LEFT
      (set_userdata
         (set_dragging_window_point true (userdata (main_pkatz_init [])))
         (main_pkatz_init []))
      (chr "j") 0 0 0 = Some f' /\
    dragging_window_point (userdata f') = false /\
    dragging_image_point (userdata f') = false.
Proof.
  assert (Hq : chr "j" <> chr "q") by (vm_compute; discriminate).
  assert (Hs : scale (userdata
                     (set_userdata
                        (set_dragging_window_point true
                           (userdata (main_pkatz_init [])))
                        (main_pkatz_init []))) <> 0) by (simpl; lra).
  split; [exact Hq |]. split; [exact Hs |].
  destruct (proj1 (event_key_clears_point_drags ftr_h.FTR_KEY_DOWN
                     ftr_h.FTR_KEY_UP ftr_h.FTR_KEY_RIGHT ftr_h.FTR_KEY_LEFT
                     (set_userdata
                        (set_dragging_window_point true
                           (userdata (main_pkatz_init [])))
                        (main_pkatz_init []))
                     (chr "j") 0 0 0) Hq) as [Hflags Hret].
  destruct (Hret Hs) as (f' & Hf').
  exists f'. split; [exact Hf' | exact (Hflags f' Hf')].
Defined.

Lemma traverse_segment_calls_witness :
  (exists log : list (Z * Z),
     traverse_segment_fl binary32 2 0 1 22 14 record_pixel [] = Some log /\
     map fst log = map (fun i => (0 + i)%Z) (counter (22 - 0)) /\
     Z.of_nat (length log) = (22 - 0)%Z /\
     ~ In (22, 14)%Z log) /\
  (exists log : list (Z * Z),
     traverse_segment_fl binary32 2 3 2 10 40 record_pixel [] = Some log /\
     map snd log = map (fun j => (2 + j)%Z) (counter (40 - 2 + 1)) /\
     Z.of_nat (length log) = (40 - 2 + 1)%Z /\
     hd_error log = Some (3, 2)%Z /\
     last log (10, 40 - 1)%Z = (10, 40)%Z).
Proof.
  split.
  - exact (proj1 (proj2 (proj2
             (traverse_segment_calls binary32 0 1 22 14 binary32_single
                ltac:(lia) ltac:(lia) ltac:(lia) ltac:(lia))))
             ltac:(lia) ltac:(lia)).
  - exact (proj2 (proj2 (proj2
             (traverse_segment_calls binary32 3 2 10 40 binary32_single
                ltac:(lia) ltac:(lia) ltac:(lia) ltac:(lia))))
             ltac:(lia) ltac:(lia) ltac:(lia)).
Defined.

(** ** The added properties at concrete inputs *)

Lemma hull_order_independent_witness :
  Permutation (firstn 3 [(0, 0); (2, 0); (1, 1)])
    (firstn 3 [(2, 0); (0, 0); (1, 1)]) /\
  fst (do_the_andrew_parkour [(0, 0); (2, 0); (1, 1)] 3)
    = fst (do_the_andrew_parkour [(2, 0); (0, 0); (1, 1)] 3).
Proof.
  assert (H : Permutation (firstn 3 [(0, 0); (2, 0); (1, 1)])
                (firstn 3 [(2, 0); (0, 0); (1, 1)])).
  { simpl. apply perm_swap. }
  split; [exact H |].
  exact (hull_order_independent _ _ 3%nat 3%nat H).
Defined.

Lemma session_invariants_witness :
  exists f1 f2 : FTR.t,
    handle ftr_h.FTR_KEY_DOWN ftr_h.FTR_KEY_UP ftr_h.FTR_KEY_RIGHT
      ftr_h.FTR_KEY_LEFT ftr_h.FTR_BUTTON_LEFT ftr_h.FTR_BUTTON_RIGHT
      ftr_h.FTR_BUTTON_DOWN ftr_h.FTR_BUTTON_UP
      (main_pkatz_init [(1, 2)]) (Key (chr "-") 0 0 0) = Some f1 /\
    handle ftr_h.FTR_KEY_DOWN ftr_h.FTR_KEY_UP ftr_h.FTR_KEY_RIGHT
      ftr_h.FTR_KEY_LEFT ftr_h.FTR_BUTTON_LEFT ftr_h.FTR_BUTTON_RIGHT
      ftr_h.FTR_BUTTON_DOWN ftr_h.FTR_BUTTON_UP
      f1 (Button ftr_h.FTR_BUTTON_DOWN 0 100 100) = Some f2 /\
    reachable ftr_h.FTR_KEY_DOWN ftr_h.FTR_KEY_UP ftr_h.FTR_KEY_RIGHT
      ftr_h.FTR_KEY_LEFT ftr_h.FTR_BUTTON_LEFT ftr_h.FTR_BUTTON_RIGHT
      ftr_h.FTR_BUTTON_DOWN ftr_h.FTR_BUTTON_UP f2 /\
    session_inv (userdata f2) /\
    forall ev : event, exists f' : FTR.t,
      handle ftr_h.FTR_KEY_DOWN ftr_h.FTR_KEY_UP ftr_h.FTR_KEY_RIGHT
        ftr_h.FTR_KEY_LEFT ftr_h.FTR_BUTTON_LEFT ftr_h.FTR_BUTTON_RIGHT
        ftr_h.FTR_BUTTON_DOWN ftr_h.FTR_BUTTON_UP f2 ev = Some f' /\
      session_inv (userdata f').
Proof.
  assert (R0 : reachable ftr_h.FTR_KEY_DOWN ftr_h.FTR_KEY_UP
                 ftr_h.FTR_KEY_RIGHT ftr_h.FTR_KEY_LEFT ftr_h.FTR_BUTTON_LEFT
                 ftr_h.FTR_BUTTON_RIGHT ftr_h.FTR_BUTTON_DOWN
                 ftr_h.FTR_BUTTON_UP (main_pkatz_init [(1, 2)])).
  { unfold main_pkatz_init. apply reachable_init. }
  destruct (reachable_progress _ _ _ _ _ _ _ _ _ (Key (chr "-") 0 0 0) R0)
    as (f1 & H1 & R1).
  destruct (reachable_progress _ _ _ _ _ _ _ _ _
              (Button ftr_h.FTR_BUTTON_DOWN 0 100 100) R1)
    as (f2 & H2 & R2).
  exists f1, f2. split; [exact H1 |]. split; [exact H2 |].
  split; [exact R2 |].
  exact (session_invariants _ _ _ _ _ _ _ _ f2 R2).
Defined.

Lemma handlers_keep_point_data_witness :
  exists f' : FTR.t,
    handle ftr_h.FTR_KEY_DOWN ftr_h.FTR_KEY_UP ftr_h.FTR_KEY_RIGHT
      ftr_h.FTR_KEY_LEFT ftr_h.FTR_BUTTON_LEFT ftr_h.FTR_BUTTON_RIGHT
      ftr_h.FTR_BUTTON_DOWN ftr_h.FTR_BUTTON_UP
      (main_pkatz_init [(1, 2)]) (Key (chr "j") 0 0 0) = Some f' /\
    point_data (userdata f') = point_data (userdata (main_pkatz_init [(1, 2)])).
Proof.
  eexists. split; [reflexivity |].
  refine (proj1 (handlers_keep_point_data ftr_h.FTR_KEY_DOWN ftr_h.FTR_KEY_UP
                   ftr_h.FTR_KEY_RIGHT ftr_h.FTR_KEY_LEFT
                   ftr_h.FTR_BUTTON_LEFT ftr_h.FTR_BUTTON_RIGHT
                   ftr_h.FTR_BUTTON_DOWN ftr_h.FTR_BUTTON_UP
                   (main_pkatz_init [(1, 2)]) _ (Key (chr "j") 0 0 0) _)).
  reflexivity.
Defined.

Lemma plot_pixel_in_bounds_witness :
  canvas_ok (canvas.mk 2 2 (repeat 0%Z 12)) /\
  exists f' : canvas.t,
    plot_pixel_red 1 1 (canvas.mk 2 2 (repeat 0%Z 12)) = Some f' /\
    length (canvas.rgb f') = 12%nat.
Proof.
  assert (H : canvas_ok (canvas.mk 2 2 (repeat 0%Z 12))).
  { unfold canvas_ok. simpl. lia. }
  split; [exact H |].
  destruct (plot_pixel_in_bounds (255, 0, 0)%Z 1 1
              (canvas.mk 2 2 (repeat 0%Z 12)) H)
    as (f' & E & _ & _ & L & _).
  exists f'. split; [exact E | exact L].
Defined.

Lemma traverse_segment_in_box_witness :
  exists log : list (Z * Z),
    traverse_segment_fl binary32 2 0 1 22 14 record_pixel []
    = Some (plot_all record_pixel log []) /\
    forall x y : Z, In (x, y) log ->
      (Z.min 0 22 <= x <= Z.max 0 22)%Z /\
      (Z.min 1 14 <= y <= Z.max 1 14)%Z.
Proof.
  exact (traverse_segment_in_box binary32 0 1 22 14 record_pixel []
           binary32_single ltac:(lia) ltac:(lia) ltac:(lia) ltac:(lia)).
Defined.

Lemma plot_segment_in_bounds_witness :
  canvas_ok (canvas.mk 2 2 (repeat 0%Z 12)) /\
  exists f' : canvas.t,
    plot_segment_fl binary32 plot_pixel_blue (canvas.mk 2 2 (repeat 0%Z 12))
      (-3) 0 7 1 = Some f' /\
    length (canvas.rgb f') = 12%nat.
Proof.
  assert (H : canvas_ok (canvas.mk 2 2 (repeat 0%Z 12))).
  { unfold canvas_ok. simpl. lia. }
  assert (B0 : Z.le (Z.abs (ftoi (-3))) 1048576)
    by (rewrite (ftoi_IZR (-3)); lia).
  assert (B1 : Z.le (Z.abs (ftoi 0)) 1048576) by (rewrite (ftoi_IZR 0); lia).
  assert (B2 : Z.le (Z.abs (ftoi 7)) 1048576) by (rewrite (ftoi_IZR 7); lia).
  assert (B3 : Z.le (Z.abs (ftoi 1)) 1048576) by (rewrite (ftoi_IZR 1); lia).
  split; [exact H |].
  destruct (plot_segment_in_bounds binary32 (0, 0, 255)%Z
              (canvas.mk 2 2 (repeat 0%Z 12)) (-3) 0 7 1 binary32_single H
              B0 B1 B2 B3)
    as (f' & E & _ & _ & L & _).
  exists f'. split; [exact E | exact L].
Defined.

Lemma traverse_circle_pixels_witness :
  exists log : list (Z * Z),
    traverse_circle_fl binary64 400 300 200 record_pixel []
      = Some (plot_all record_pixel log []) /\
    Z.of_nat (length log)
      = Z.max 0 (4 * (2 * ftoi (IZR 200 / sqrt 2) + 1)) /\
    forall x y : Z, In (x, y) log ->
      (Z.abs x <= 2147483647)%Z /\ (Z.abs y <= 2147483647)%Z /\
      ((x - 400) * (x - 400) + (y - 300) * (y - 300) <= 200 * 200)%Z /\
      (200 * 200 < (Z.abs (x - 400) + 1) * (Z.abs (x - 400) + 1)
                   + (Z.abs (y - 300) + 1) * (Z.abs (y - 300) + 1))%Z.
Proof.
  exact (traverse_circle_pixels binary64 400 300 200 record_pixel []
           binary64_double ltac:(lia) ltac:(lia) ltac:(lia)).
Defined.
